(** * A persistent treap map with two-level reference counting

    Shallow embedding of [pkg/container/pmap.go].

    Memory model.  [*mapNode] and [*refValue] pointers are addresses into two
    append-only tables; the nil pointer is [None].  A node that a function is
    still building ([shallowCloneWithRef] followed by assignments to [weight],
    [left], [right]) is a local record; it enters the node table when its last
    field has been written, which is before any other code can see it.  After
    that only [refCount] changes, through [atomic.AddInt32].

    [int32] counters are integers with the wrap-around of [AddInt32] written
    out.  The heap carries one ghost bit, [wrapped], which the code never
    reads: it is raised when an [AddInt32] leaves the [int32] range.

    A computation is a function from heaps to an optional result and heap;
    [None] stands for a Go panic (a failed type assertion on a nil interface)
    or for recursion fuel running out. *)

From Stdlib Require Import ZArith Lia List Bool.
From stdpp Require Import base option list.

Local Open Scope Z_scope.

(** ** Machine integers *)

Definition wrap32 (z : Z) : Z := (z + 2 ^ 31) mod 2 ^ 32 - 2 ^ 31.

Definition in_int32 (z : Z) : bool := (- 2 ^ 31 <=? z) && (z <? 2 ^ 31).

Section PMap.

(** [K] is the key type with its [Less] method, [V] the value type with its
    zero value, [Rel] the type of release callbacks. *)
Context {K V Rel : Type}.
Variable less : K -> K -> bool.
Variable zeroV : V.

(** ** Data *)

Record mapNode := MapNode {
  key : K;
  value : nat;
  weight : Z;
  refCount : Z;
  left : option nat;
  right : option nat
}.

Record refValue := RefValue {
  vRefCount : Z;
  vValue : option V;
  vRelease : option Rel
}.

(** One call [release(key, value)], tagged with the [refValue] it was made
    for. *)
Record event := Event {
  ePayload : nat;
  eRelease : Rel;
  eKey : K;
  eValue : V
}.

Record heap := Heap {
  nodes : list mapNode;
  vals : list refValue;
  trace : list event;
  wrapped : bool
}.

Definition M (A : Type) : Type := heap -> option (A * heap).

Definition ret {A} (a : A) : M A := fun h => Some (a, h).

Definition fail {A} : M A := fun _ => None.

Definition bind {A B} (m : M A) (f : A -> M B) : M B :=
  fun h => match m h with
           | Some (a, h') => f a h'
           | None => None
           end.

Notation "'let!' x ':=' m 'in' k" := (bind m (fun x => k))
  (at level 10, x pattern, k at level 200).
Notation "m ;; k" := (bind m (fun _ => k))
  (at level 100, right associativity).

(** ** Heap primitives *)

Definition load_node (a : nat) : M mapNode :=
  fun h => match nodes h !! a with
           | Some n => Some (n, h)
           | None => None
           end.

Definition load_val (p : nat) : M refValue :=
  fun h => match vals h !! p with
           | Some v => Some (v, h)
           | None => None
           end.

Definition set_refCount (n : mapNode) (c : Z) : mapNode :=
  MapNode (key n) (value n) (weight n) c (left n) (right n).

Definition set_weight (n : mapNode) (w : Z) : mapNode :=
  MapNode (key n) (value n) w (refCount n) (left n) (right n).

Definition set_left (n : mapNode) (l : option nat) : mapNode :=
  MapNode (key n) (value n) (weight n) (refCount n) l (right n).

Definition set_right (n : mapNode) (r : option nat) : mapNode :=
  MapNode (key n) (value n) (weight n) (refCount n) (left n) r.

(** [atomic.AddInt32(&node.refCount, d)]: returns the new value. *)
Definition add_node_ref (a : nat) (d : Z) : M Z :=
  fun h => match nodes h !! a with
           | Some n =>
               let c := wrap32 (refCount n + d) in
               Some (c, Heap (<[a := set_refCount n c]> (nodes h)) (vals h)
                             (trace h)
                             (wrapped h || negb (in_int32 (refCount n + d))))
           | None => None
           end.

(** [atomic.AddInt32(&value.refCount, d)]: returns the new value. *)
Definition add_val_ref (p : nat) (d : Z) : M Z :=
  fun h => match vals h !! p with
           | Some v =>
               let c := wrap32 (vRefCount v + d) in
               Some (c, Heap (nodes h)
                             (<[p := RefValue c (vValue v) (vRelease v)]> (vals h))
                             (trace h)
                             (wrapped h || negb (in_int32 (vRefCount v + d))))
           | None => None
           end.

Definition alloc_node (n : mapNode) : M nat :=
  fun h => Some (length (nodes h),
                 Heap (nodes h ++ [n]) (vals h) (trace h) (wrapped h)).

Definition alloc_val (v : refValue) : M nat :=
  fun h => Some (length (vals h),
                 Heap (nodes h) (vals h ++ [v]) (trace h) (wrapped h)).

(** The call [node.value.release(node.key, node.value.value)]. *)
Definition call_release (p : nat) (r : Rel) (k : K) (v : V) : M unit :=
  fun h => Some (tt, Heap (nodes h) (vals h) (trace h ++ [Event p r k v])
                          (wrapped h)).

(** [value.value = nil; value.release = nil]. *)
Definition clear_val (p : nat) : M unit :=
  fun h => match vals h !! p with
           | Some v =>
               Some (tt, Heap (nodes h)
                              (<[p := RefValue (vRefCount v) None None]> (vals h))
                              (trace h) (wrapped h))
           | None => None
           end.

(** ** Nodes *)

(** [newNodeWithRef]; [w] is the result of [rand.Uint64()]. *)
Definition newNodeWithRef (k : K) (v : V) (release : option Rel) (w : Z)
  : M nat :=
  let! p := alloc_val (RefValue 1 (Some v) release) in
  alloc_node (MapNode k p w 1 None None).

(** [shallowCloneWithRef]: the clone is returned as a record, to be stored by
    the caller once its children are set. *)
Definition shallowCloneWithRef (a : nat) : M mapNode :=
  let! n := load_node a in
  add_val_ref (value n) 1 ;;
  ret (MapNode (key n) (value n) (weight n) 1 None None).

Definition incref (p : option nat) : M (option nat) :=
  match p with
  | Some a => add_node_ref a 1 ;; ret p
  | None => ret p
  end.

Fixpoint decref_f (fuel : nat) (p : option nat) : M unit :=
  match p with
  | None => ret tt
  | Some a =>
      match fuel with
      | O => fail
      | S f =>
          let! c := add_node_ref a (-1) in
          if c =? 0 then
            let! n := load_node a in
            let! c2 := add_val_ref (value n) (-1) in
            (if c2 =? 0 then
               let! rv := load_val (value n) in
               match vRelease rv with
               | Some r =>
                   match vValue rv with
                   | Some v => call_release (value n) r (key n) v
                   | None => fail
                   end
               | None => ret tt
               end ;;
               clear_val (value n)
             else ret tt) ;;
            decref_f f (left n) ;;
            decref_f f (right n)
          else ret tt
      end
  end.

(** Children are older than their parent, so the number of nodes bounds the
    depth of the cascade. *)
Definition decref (p : option nat) : M unit :=
  fun h => decref_f (length (nodes h)) p h.

(** ** Map handles *)

Record PMap := MkPMap { root : option nat }.

Definition NewPMap : PMap := MkPMap None.

Definition Clone (pm : PMap) : M PMap :=
  let! r := incref (root pm) in
  ret (MkPMap r).

Definition Clear (pm : PMap) : M PMap :=
  decref (root pm) ;;
  ret (MkPMap None).

Definition Destroy (pm : PMap) : M PMap := Clear pm.




Fixpoint Get_f (fuel : nat) (p : option nat) (k : K) : M (V * bool) :=
  match p with
  | None => ret (zeroV, false)
  | Some a =>
      match fuel with
      | O => fail
      | S f =>
          let! n := load_node a in
          if less k (key n) then Get_f f (left n) k
          else if less (key n) k then Get_f f (right n) k
          else
            let! rv := load_val (value n) in
            match vValue rv with
            | Some v => ret (v, true)
            | None => fail
            end
      end
  end.

Definition Get (pm : PMap) (k : K) : M (V * bool) :=
  fun h => Get_f (length (nodes h)) (root pm) k h.

(** ** Treap primitives *)

Definition is_nil (p : option nat) : bool :=
  match p with
  | None => true
  | Some _ => false
  end.

Definition nil3 : option nat * option nat * option nat := (None, None, None).

Fixpoint split_f (fuel : nat) (n : option nat) (k : K) (requireMid : bool)
  : M (option nat * option nat * option nat) :=
  match n with
  | None => ret nil3
  | Some a =>
      match fuel with
      | O => fail
      | S f =>
          let! nd := load_node a in
          if less (key nd) k then
            let! (l, mid, r) := split_f f (right nd) k requireMid in
            if requireMid && is_nil mid then ret nil3
            else
              let! newN := shallowCloneWithRef a in
              let! nl := incref (left nd) in
              let! na := alloc_node (set_right (set_left newN nl) l) in
              ret (Some na, mid, r)
          else if less k (key nd) then
            let! (l, mid, r) := split_f f (left nd) k requireMid in
            if requireMid && is_nil mid then ret nil3
            else
              let! newN := shallowCloneWithRef a in
              let! nr := incref (right nd) in
              let! na := alloc_node (set_right (set_left newN r) nr) in
              ret (l, mid, Some na)
          else
            let! m := shallowCloneWithRef a in
            let! ma := alloc_node m in
            let! l := incref (left nd) in
            let! r := incref (right nd) in
            ret (l, Some ma, r)
      end
  end.

Definition split (n : option nat) (k : K) (requireMid : bool)
  : M (option nat * option nat * option nat) :=
  fun h => split_f (length (nodes h)) n k requireMid h.

Fixpoint merge_f (fuel : nat) (l r : option nat) : M (option nat) :=
  match l, r with
  | None, _ => incref r
  | _, None => incref l
  | Some la, Some ra =>
      match fuel with
      | O => fail
      | S f =>
          let! ln := load_node la in
          let! rn := load_node ra in
          if weight rn <? weight ln then
            let! rt := shallowCloneWithRef la in
            let! ll := incref (left ln) in
            let! m := merge_f f (right ln) r in
            let! a := alloc_node (set_right (set_left rt ll) m) in
            ret (Some a)
          else
            let! rt := shallowCloneWithRef ra in
            let! m := merge_f f l (left rn) in
            let! rr := incref (right rn) in
            let! a := alloc_node (set_right (set_left rt m) rr) in
            ret (Some a)
      end
  end.

Definition merge (l r : option nat) : M (option nat) :=
  fun h => merge_f (2 * length (nodes h)) l r h.

(** The body of [union] once [first] is the heavier root. [rec] is [union]
    itself, for the two recursive calls. *)
Definition union_body (rec : option nat -> option nat -> bool -> M (option nat))
  (fa : nat) (fn : mapNode) (sa : nat) (overwrite : bool) : M (option nat) :=
  let! (l, mid, r) := split (Some sa) (key fn) false in
  let! result :=
    match mid with
    | Some ma => if overwrite then shallowCloneWithRef ma
                 else shallowCloneWithRef fa
    | None => shallowCloneWithRef fa
    end in
  let result := set_weight result (weight fn) in
  let! ul := rec (left fn) l overwrite in
  let result := set_left result ul in
  let! ur := rec (right fn) r overwrite in
  let result := set_right result ur in
  decref l ;;
  decref mid ;;
  decref r ;;
  let! a := alloc_node result in
  ret (Some a).

Fixpoint union_f (fuel : nat) (first second : option nat) (overwrite : bool)
  : M (option nat) :=
  match first, second with
  | None, _ => incref second
  | _, None => incref first
  | Some fa, Some sa =>
      match fuel with
      | O => fail
      | S f =>
          let! fn := load_node fa in
          let! sn := load_node sa in
          if weight fn <? weight sn
          then union_body (union_f f) sa sn fa (negb overwrite)
          else union_body (union_f f) fa fn sa overwrite
      end
  end.

Definition union (first second : option nat) (overwrite : bool)
  : M (option nat) :=
  fun h => union_f (2 * length (nodes h)) first second overwrite h.



(** ** Updates *)

Definition SetAll (pm other : PMap) : M PMap :=
  let rt := root pm in
  let! r := union rt (root other) true in
  decref rt ;;
  ret (MkPMap r).

Definition SetWithRelease (pm : PMap) (k : K) (v : V) (release : option Rel)
  (w : Z) : M PMap :=
  let first := root pm in
  let! second := newNodeWithRef k v release w in
  let! r := union first (Some second) true in
  decref first ;;
  decref (Some second) ;;
  ret (MkPMap r).

Definition Set_ (pm : PMap) (k : K) (v : V) (w : Z) : M PMap :=
  SetWithRelease pm k v None w.

Definition Delete (pm : PMap) (k : K) : M PMap :=
  let rt := root pm in
  let! (l, mid, r) := split rt k true in
  match mid with
  | None => ret pm
  | Some _ =>
      let! m := merge l r in
      decref l ;;
      decref mid ;;
      decref r ;;
      decref rt ;;
      ret (MkPMap m)
  end.

(** * The tree a pointer denotes

    Stored nodes never change their key, payload pointer, weight or children,
    so a pointer denotes one finite tree for as long as it exists.  [tree]
    is that denotation; [psplit], [pmerge] and [punion_f] are what [split],
    [merge] and [union] compute on it. *)

Inductive tree :=
| Leaf
| Node (l : tree) (k : K) (p : nat) (w : Z) (r : tree).

Fixpoint height (t : tree) : nat :=
  match t with
  | Leaf => 0
  | Node l _ _ _ r => S (Nat.max (height l) (height r))
  end.

Definition is_leaf (t : tree) : bool :=
  match t with
  | Leaf => true
  | Node _ _ _ _ _ => false
  end.


Fixpoint psplit (t : tree) (k : K) : tree * tree * tree :=
  match t with
  | Leaf => (Leaf, Leaf, Leaf)
  | Node l k' p w r =>
      if less k' k then
        let '(a, m, b) := psplit r k in (Node l k' p w a, m, b)
      else if less k k' then
        let '(a, m, b) := psplit l k in (a, m, Node b k' p w r)
      else (l, Node Leaf k' p w Leaf, r)
  end.

(** With [requireMid] set, a split that finds no node yields three nils. *)
Definition psplit_rm (requireMid : bool) (t : tree) (k : K)
  : tree * tree * tree :=
  let '(a, m, b) := psplit t k in
  if requireMid && is_leaf m then (Leaf, Leaf, Leaf) else (a, m, b).

Fixpoint pmerge (l : tree) : tree -> tree :=
  fix pmerge_r (r : tree) : tree :=
    match l, r with
    | Leaf, _ => r
    | _, Leaf => l
    | Node ll lk lp lw lr, Node rl rk rp rw rr =>
        if rw <? lw then Node ll lk lp lw (pmerge lr r)
        else Node (pmerge_r rl) rk rp rw rr
    end.

Definition punion_body (rec : tree -> tree -> bool -> tree)
  (fl : tree) (fk : K) (fp : nat) (fw : Z) (fr : tree) (sec : tree)
  (overwrite : bool) : tree :=
  let '(l, mid, r) := psplit sec fk in
  let '(rk, rp) :=
    match mid with
    | Node _ mk mp _ _ => if overwrite then (mk, mp) else (fk, fp)
    | Leaf => (fk, fp)
    end in
  Node (rec fl l overwrite) rk rp fw (rec fr r overwrite).

Fixpoint punion_f (fuel : nat) (first second : tree) (overwrite : bool)
  : tree :=
  match first, second with
  | Leaf, _ => second
  | _, Leaf => first
  | Node fl fk fp fw fr, Node sl sk sp sw sr =>
      match fuel with
      | O => Leaf
      | S f =>
          if fw <? sw
          then punion_body (punion_f f) sl sk sp sw sr first (negb overwrite)
          else punion_body (punion_f f) fl fk fp fw fr second overwrite
      end
  end.

Inductive shape (h : heap) : option nat -> tree -> Prop :=
| shape_nil : shape h None Leaf
| shape_node a n l r :
    nodes h !! a = Some n ->
    shape h (left n) l ->
    shape h (right n) r ->
    shape h (Some a) (Node l (key n) (value n) (weight n) r).

(** * Frame: what no operation ever changes *)

(** Two node records agree on everything except the reference counter. *)
Definition same_fields (n n' : mapNode) : Prop :=
  key n = key n' /\ value n = value n' /\ weight n = weight n' /\
  left n = left n' /\ right n = right n'.

(** [ext h h']: [h'] is a later heap than [h]. Tables only grow, stored
    nodes keep their fields, the trace is extended, and the ghost bit is
    sticky. *)
Record ext (h h' : heap) : Prop := MkExt {
  ext_nodes : forall a n, nodes h !! a = Some n ->
                exists n', nodes h' !! a = Some n' /\ same_fields n n';
  ext_nlen : (length (nodes h) <= length (nodes h'))%nat;
  ext_vlen : (length (vals h) <= length (vals h'))%nat;
  ext_trace : exists t, trace h' = trace h ++ t;
  ext_wrapped : wrapped h' = false -> wrapped h = false
}.

Definition Ext {A} (m : M A) : Prop :=
  forall h a h', m h = Some (a, h') -> ext h h'.

Lemma same_fields_refl n : same_fields n n.
Proof. repeat split. Qed.

Lemma same_fields_trans n1 n2 n3 :
  same_fields n1 n2 -> same_fields n2 n3 -> same_fields n1 n3.
Proof. unfold same_fields. intuition congruence. Qed.

Lemma ext_refl h : ext h h.
Proof.
  split; auto.
  - intros a n Hn. exists n. split; [done | apply same_fields_refl].
  - exists []. by rewrite app_nil_r.
Qed.

Lemma ext_trans h1 h2 h3 : ext h1 h2 -> ext h2 h3 -> ext h1 h3.
Proof.
  intros [N1 L1 V1 [t1 T1] W1] [N2 L2 V2 [t2 T2] W2]. split.
  - intros a n Hn. destruct (N1 _ _ Hn) as (n' & Hn' & S1).
    destruct (N2 _ _ Hn') as (n'' & Hn'' & S2).
    exists n''. split; [done | by eapply same_fields_trans].
  - lia.
  - lia.
  - exists (t1 ++ t2). by rewrite T2, T1, app_assoc.
  - auto.
Qed.

Lemma bind_Some {A B} (m : M A) (f : A -> M B) h b h' :
  bind m f h = Some (b, h') <->
  exists a h1, m h = Some (a, h1) /\ f a h1 = Some (b, h').
Proof.
  unfold bind. split.
  - destruct (m h) as [[a h1]|]; [|done]. intros H. by exists a, h1.
  - intros (a & h1 & -> & H). done.
Qed.

Lemma Ext_ret {A} (a : A) : Ext (ret a).
Proof. intros h x h' [= _ <-]. apply ext_refl. Qed.

Lemma Ext_fail {A} : Ext (@fail A).
Proof. intros h x h' [=]. Qed.

Lemma Ext_bind {A B} (m : M A) (f : A -> M B) :
  Ext m -> (forall a, Ext (f a)) -> Ext (bind m f).
Proof.
  intros Hm Hf h b h' (a & h1 & H1 & H2)%bind_Some.
  eapply ext_trans; [by eapply Hm | by eapply Hf].
Qed.

Lemma Ext_load_node a : Ext (load_node a).
Proof.
  intros h x h'. unfold load_node.
  destruct (nodes h !! a); intros [= _ <-]. apply ext_refl.
Qed.

Lemma Ext_load_val p : Ext (load_val p).
Proof.
  intros h x h'. unfold load_val.
  destruct (vals h !! p); intros [= _ <-]. apply ext_refl.
Qed.

Lemma Ext_add_node_ref a d : Ext (add_node_ref a d).
Proof.
  intros h x h'. unfold add_node_ref.
  destruct (nodes h !! a) as [n|] eqn:Hn; intros [= _ <-].
  split; simpl; auto.
  - intros b m Hm. destruct (decide (b = a)) as [->|Hne].
    + rewrite list_lookup_insert_eq by (by eapply lookup_lt_Some).
      eexists. split; [done|]. rewrite Hn in Hm. injection Hm as <-.
      repeat split.
    + rewrite list_lookup_insert_ne by done. exists m. split; [done|].
      apply same_fields_refl.
  - by rewrite length_insert.
  - exists []. by rewrite app_nil_r.
  - intros [? _]%orb_false_iff. done.
Qed.

Lemma Ext_add_val_ref p d : Ext (add_val_ref p d).
Proof.
  intros h x h'. unfold add_val_ref.
  destruct (vals h !! p) as [v|] eqn:Hv; intros [= _ <-].
  split; simpl; auto.
  - intros b m Hm. exists m. split; [done | apply same_fields_refl].
  - by rewrite length_insert.
  - exists []. by rewrite app_nil_r.
  - intros [? _]%orb_false_iff. done.
Qed.

Lemma Ext_alloc_node n : Ext (alloc_node n).
Proof.
  intros h x h' [= _ <-]. split; simpl; auto.
  - intros b m Hm. exists m. split; [|apply same_fields_refl].
    by apply lookup_app_l_Some.
  - rewrite length_app. lia.
  - exists []. by rewrite app_nil_r.
Qed.

Lemma Ext_alloc_val v : Ext (alloc_val v).
Proof.
  intros h x h' [= _ <-]. split; simpl; auto.
  - intros b m Hm. exists m. split; [done | apply same_fields_refl].
  - rewrite length_app. lia.
  - exists []. by rewrite app_nil_r.
Qed.

Lemma Ext_call_release p r k v : Ext (call_release p r k v).
Proof.
  intros h x h' [= _ <-]. split; simpl; auto.
  - intros b m Hm. exists m. split; [done | apply same_fields_refl].
  - by eexists.
Qed.

Lemma Ext_clear_val p : Ext (clear_val p).
Proof.
  intros h x h'. unfold clear_val.
  destruct (vals h !! p) as [v|] eqn:Hv; intros [= _ <-].
  split; simpl; auto.
  - intros b m Hm. exists m. split; [done | apply same_fields_refl].
  - by rewrite length_insert.
  - exists []. by rewrite app_nil_r.
Qed.

Ltac ext_step :=
  first
    [ apply Ext_ret | apply Ext_fail | apply Ext_load_node
    | apply Ext_load_val | apply Ext_add_node_ref | apply Ext_add_val_ref
    | apply Ext_alloc_node | apply Ext_alloc_val | apply Ext_call_release
    | apply Ext_clear_val | assumption
    | apply Ext_bind; [|intros ?]
    | match goal with
      | |- Ext (match ?x with _ => _ end) => destruct x
      | |- Ext (let (_, _) := ?x in _) => destruct x
      end ].

Ltac ext_tac := repeat ext_step.

Lemma Ext_shallowCloneWithRef a : Ext (shallowCloneWithRef a).
Proof. unfold shallowCloneWithRef. ext_tac. Qed.

Lemma Ext_incref p : Ext (incref p).
Proof. unfold incref. ext_tac. Qed.

Lemma Ext_newNodeWithRef k v r w : Ext (newNodeWithRef k v r w).
Proof. unfold newNodeWithRef. ext_tac. Qed.

Lemma Ext_decref_f fuel : forall p, Ext (decref_f fuel p).
Proof.
  induction fuel as [|f IH]; intros [a|]; simpl; ext_tac; apply IH.
Qed.

Lemma Ext_decref p : Ext (decref p).
Proof. intros h x h' H. by eapply Ext_decref_f. Qed.

Lemma Ext_split_f fuel k rm : forall n, Ext (split_f fuel n k rm).
Proof.
  induction fuel as [|f IH]; intros [a|]; simpl; ext_tac;
    first [apply IH | apply Ext_shallowCloneWithRef | apply Ext_incref].
Qed.

Lemma Ext_split n k rm : Ext (split n k rm).
Proof. intros h x h' H. by eapply Ext_split_f. Qed.

Lemma Ext_merge_f fuel : forall l r, Ext (merge_f fuel l r).
Proof.
  induction fuel as [|f IH]; intros [la|] [ra|]; simpl; ext_tac;
    first [apply IH | apply Ext_shallowCloneWithRef | apply Ext_incref
          | apply (Ext_incref (Some _)) | apply (Ext_incref None)].
Qed.

Lemma Ext_merge l r : Ext (merge l r).
Proof. intros h x h' H. by eapply Ext_merge_f. Qed.

Lemma Ext_union_body rec fa fn sa ow :
  (forall a b o, Ext (rec a b o)) -> Ext (union_body rec fa fn sa ow).
Proof.
  intros IH. unfold union_body. ext_tac;
    first [apply IH | apply Ext_shallowCloneWithRef | apply Ext_split
          | apply Ext_decref].
Qed.

Lemma Ext_union_f fuel : forall a b ow, Ext (union_f fuel a b ow).
Proof.
  induction fuel as [|f IH]; intros [fa|] [sa|] ow; simpl; ext_tac;
    first [apply IH | apply Ext_shallowCloneWithRef | apply Ext_split
          | apply Ext_decref
          | apply (Ext_incref (Some _)) | apply (Ext_incref None)].
Qed.

Lemma Ext_union a b ow : Ext (union a b ow).
Proof. intros h x h' H. by eapply Ext_union_f. Qed.

Lemma Ext_Clone pm : Ext (Clone pm).
Proof. unfold Clone. ext_tac. apply Ext_incref. Qed.

Lemma Ext_Clear pm : Ext (Clear pm).
Proof. unfold Clear. ext_tac. apply Ext_decref. Qed.

Lemma Ext_SetAll pm other : Ext (SetAll pm other).
Proof. unfold SetAll. ext_tac; first [apply Ext_union | apply Ext_decref]. Qed.

Lemma Ext_SetWithRelease pm k v r w : Ext (SetWithRelease pm k v r w).
Proof.
  unfold SetWithRelease. ext_tac;
    first [apply Ext_union | apply Ext_decref | apply Ext_newNodeWithRef].
Qed.

Lemma Ext_Delete pm k : Ext (Delete pm k).
Proof.
  unfold Delete. ext_tac;
    first [apply Ext_split | apply Ext_merge | apply Ext_decref].
Qed.

(** ** Shapes are stable *)

Lemma shape_ext h h' p t : ext h h' -> shape h p t -> shape h' p t.
Proof.
  intros E. induction 1 as [|a n l r Hn _ IHl _ IHr]; [constructor|].
  destruct (ext_nodes _ _ E _ _ Hn) as (n' & Hn' & Hk & Hv & Hw & Hl & Hr).
  rewrite Hk, Hv, Hw. econstructor; [done| |]; congruence.
Qed.

Lemma shape_inj h p t : shape h p t -> forall t', shape h p t' -> t = t'.
Proof.
  induction 1 as [|a n l r Hn _ IHl _ IHr]; intros t' H'.
  - by inversion H'.
  - inversion H' as [|a' n' l' r' Hn' Hl' Hr']; subst.
    rewrite Hn in Hn'. injection Hn' as <-.
    f_equal; auto.
Qed.

Lemma shape_None_inv h t : shape h None t -> t = Leaf.
Proof. by inversion 1. Qed.

Lemma shape_is_nil h p t : shape h p t -> is_nil p = is_leaf t.
Proof. by destruct 1. Qed.

(** * Structure: every operation returns

    [wfh] collects what holds of every heap the code can build whatever the
    counters say: children are older than their parent, payload pointers are
    in range, and a payload that still has its callback still has its
    value. *)

Record wfh (h : heap) : Prop := MkWfh {
  wf_left : forall a n c, nodes h !! a = Some n -> left n = Some c ->
              (c < a)%nat;
  wf_right : forall a n c, nodes h !! a = Some n -> right n = Some c ->
               (c < a)%nat;
  wf_value : forall a n, nodes h !! a = Some n ->
               (value n < length (vals h))%nat;
  wf_release : forall p v, vals h !! p = Some v -> vValue v = None ->
                 vRelease v = None
}.

Definition valid (h : heap) (p : option nat) : Prop :=
  match p with
  | Some a => (a < length (nodes h))%nat
  | None => True
  end.

(** [wp m h Q]: [m] returns from [h], with a result and heap in [Q]. *)
Definition wp {A} (m : M A) (h : heap) (Q : A -> heap -> Prop) : Prop :=
  exists a h', m h = Some (a, h') /\ Q a h'.

Lemma wp_ret {A} (a : A) h (Q : A -> heap -> Prop) : Q a h -> wp (ret a) h Q.
Proof. intros. by exists a, h. Qed.

Lemma wp_bind {A B} (m : M A) (f : A -> M B) h (Q : B -> heap -> Prop) :
  wp m h (fun a h1 => wp (f a) h1 Q) -> wp (bind m f) h Q.
Proof.
  intros (a & h1 & Hm & b & h2 & Hf & HQ).
  exists b, h2. split; [|done]. apply bind_Some. by exists a, h1.
Qed.

Lemma wp_mono {A} (m : M A) h (Q Q' : A -> heap -> Prop) :
  wp m h Q -> (forall a h', m h = Some (a, h') -> Q a h' -> Q' a h') ->
  wp m h Q'.
Proof. intros (a & h' & Hm & HQ) H. exists a, h'. auto. Qed.

Lemma valid_ext h h' p : ext h h' -> valid h p -> valid h' p.
Proof.
  intros E. destruct p as [a|]; simpl; [|done].
  pose proof (ext_nlen _ _ E). lia.
Qed.

Lemma shape_valid h p t : shape h p t -> valid h p.
Proof. destruct 1; simpl; [done|]. by eapply lookup_lt_Some. Qed.

Lemma wfh_add_node_ref a d h c h' :
  add_node_ref a d h = Some (c, h') -> wfh h -> wfh h'.
Proof.
  unfold add_node_ref. destruct (nodes h !! a) as [n|] eqn:Hn; [|done].
  intros [= _ <-] [L R Vl Rl]. split; simpl; [| | |done].
  - intros b m x Hm. destruct (decide (b = a)) as [->|Hne].
    + rewrite list_lookup_insert_eq in Hm by (by eapply lookup_lt_Some).
      injection Hm as <-. simpl. by apply L.
    + rewrite list_lookup_insert_ne in Hm by done. by eapply L.
  - intros b m x Hm. destruct (decide (b = a)) as [->|Hne].
    + rewrite list_lookup_insert_eq in Hm by (by eapply lookup_lt_Some).
      injection Hm as <-. simpl. by apply R.
    + rewrite list_lookup_insert_ne in Hm by done. by eapply R.
  - intros b m Hm. destruct (decide (b = a)) as [->|Hne].
    + rewrite list_lookup_insert_eq in Hm by (by eapply lookup_lt_Some).
      injection Hm as <-. simpl. by eapply Vl.
    + rewrite list_lookup_insert_ne in Hm by done. by eapply Vl.
Qed.

Lemma wfh_add_val_ref p d h c h' :
  add_val_ref p d h = Some (c, h') -> wfh h -> wfh h'.
Proof.
  unfold add_val_ref. destruct (vals h !! p) as [v|] eqn:Hv; [|done].
  intros [= _ <-] [L R Vl Rl]. split; simpl; [done|done| |].
  - intros b m Hm. rewrite length_insert. by eapply Vl.
  - intros q u Hu. destruct (decide (q = p)) as [->|Hne].
    + rewrite list_lookup_insert_eq in Hu by (by eapply lookup_lt_Some).
      injection Hu as <-. simpl. by eapply Rl.
    + rewrite list_lookup_insert_ne in Hu by done. by eapply Rl.
Qed.

Lemma wfh_clear_val p h x h' :
  clear_val p h = Some (x, h') -> wfh h -> wfh h'.
Proof.
  unfold clear_val. destruct (vals h !! p) as [v|] eqn:Hv; [|done].
  intros [= _ <-] [L R Vl Rl]. split; simpl; [done|done| |].
  - intros b m Hm. rewrite length_insert. by eapply Vl.
  - intros q u Hu. destruct (decide (q = p)) as [->|Hne].
    + rewrite list_lookup_insert_eq in Hu by (by eapply lookup_lt_Some).
      by injection Hu as <-.
    + rewrite list_lookup_insert_ne in Hu by done. by eapply Rl.
Qed.

Lemma wfh_call_release p r k v h x h' :
  call_release p r k v h = Some (x, h') -> wfh h -> wfh h'.
Proof. intros [= _ <-] [L R Vl Rl]. by split. Qed.

Lemma wfh_alloc_val v h p h' :
  alloc_val v h = Some (p, h') -> (vValue v = None -> vRelease v = None) ->
  wfh h -> wfh h'.
Proof.
  intros [= _ <-] Hv [L R Vl Rl]. split; simpl; [done|done| |].
  - intros b m Hm. rewrite length_app. specialize (Vl _ _ Hm). lia.
  - intros q u [Hu|[_ Hu]]%lookup_app_Some; [by eapply Rl|].
    destruct (q - length (vals h))%nat; [|done].
    injection Hu as <-. done.
Qed.

Lemma wfh_alloc_node n h a h' :
  alloc_node n h = Some (a, h') ->
  valid h (left n) -> valid h (right n) ->
  (value n < length (vals h))%nat ->
  wfh h -> wfh h'.
Proof.
  intros [= _ <-] Hl Hr Hv [L R Vl Rl]. split; simpl; [| | |done].
  - intros b m c [Hm|[Hb Hm]]%lookup_app_Some; [by eapply L|].
    destruct (b - length (nodes h))%nat eqn:E; [|done].
    injection Hm as <-. intros Hc. rewrite Hc in Hl. simpl in Hl. lia.
  - intros b m c [Hm|[Hb Hm]]%lookup_app_Some; [by eapply R|].
    destruct (b - length (nodes h))%nat eqn:E; [|done].
    injection Hm as <-. intros Hc. rewrite Hc in Hr. simpl in Hr. lia.
  - intros b m [Hm|[Hb Hm]]%lookup_app_Some; [by eapply Vl|].
    destruct (b - length (nodes h))%nat eqn:E; [|done].
    by injection Hm as <-.
Qed.

Lemma wp_load_node a h (Q : mapNode -> heap -> Prop) :
  (a < length (nodes h))%nat ->
  (forall n, nodes h !! a = Some n -> Q n h) ->
  wp (load_node a) h Q.
Proof.
  intros [n Hn]%lookup_lt_is_Some HQ. exists n, h. split; [|auto].
  unfold load_node. by rewrite Hn.
Qed.

Lemma wp_load_val p h (Q : refValue -> heap -> Prop) :
  (p < length (vals h))%nat ->
  (forall v, vals h !! p = Some v -> Q v h) ->
  wp (load_val p) h Q.
Proof.
  intros [v Hv]%lookup_lt_is_Some HQ. exists v, h. split; [|auto].
  unfold load_val. by rewrite Hv.
Qed.

Lemma wp_add_node_ref a d h (Q : Z -> heap -> Prop) :
  wfh h -> (a < length (nodes h))%nat ->
  (forall c h', ext h h' -> wfh h' -> Q c h') ->
  wp (add_node_ref a d) h Q.
Proof.
  intros W [n Hn]%lookup_lt_is_Some HQ.
  destruct (add_node_ref a d h) as [[c h']|] eqn:E.
  - exists c, h'. split; [done|].
    apply HQ; [by eapply Ext_add_node_ref | by eapply wfh_add_node_ref].
  - unfold add_node_ref in E. by rewrite Hn in E.
Qed.

Lemma wp_add_val_ref p d h (Q : Z -> heap -> Prop) :
  wfh h -> (p < length (vals h))%nat ->
  (forall c h', ext h h' -> wfh h' -> Q c h') ->
  wp (add_val_ref p d) h Q.
Proof.
  intros W [v Hv]%lookup_lt_is_Some HQ.
  destruct (add_val_ref p d h) as [[c h']|] eqn:E.
  - exists c, h'. split; [done|].
    apply HQ; [by eapply Ext_add_val_ref | by eapply wfh_add_val_ref].
  - unfold add_val_ref in E. by rewrite Hv in E.
Qed.

Lemma wp_clear_val p h (Q : unit -> heap -> Prop) :
  wfh h -> (p < length (vals h))%nat ->
  (forall h', ext h h' -> wfh h' -> Q tt h') ->
  wp (clear_val p) h Q.
Proof.
  intros W [v Hv]%lookup_lt_is_Some HQ.
  destruct (clear_val p h) as [[[] h']|] eqn:E.
  - exists tt, h'. split; [done|].
    apply HQ; [by eapply Ext_clear_val | by eapply wfh_clear_val].
  - unfold clear_val in E. by rewrite Hv in E.
Qed.

Lemma wp_call_release p r k v h (Q : unit -> heap -> Prop) :
  wfh h ->
  (forall h', ext h h' -> wfh h' -> Q tt h') ->
  wp (call_release p r k v) h Q.
Proof.
  intros W HQ. eexists tt, _. split; [reflexivity|].
  apply HQ; [by eapply Ext_call_release | by eapply wfh_call_release].
Qed.

Lemma wp_alloc_node n h (Q : nat -> heap -> Prop) :
  wfh h -> valid h (left n) -> valid h (right n) ->
  (value n < length (vals h))%nat ->
  (forall h', ext h h' -> wfh h' ->
     nodes h' !! length (nodes h) = Some n -> Q (length (nodes h)) h') ->
  wp (alloc_node n) h Q.
Proof.
  intros W Hl Hr Hv HQ. eexists _, _. split; [reflexivity|].
  apply HQ; [by eapply Ext_alloc_node | by eapply wfh_alloc_node |].
  simpl. by rewrite lookup_app_r, Nat.sub_diag.
Qed.

Lemma wp_alloc_val v h (Q : nat -> heap -> Prop) :
  wfh h -> (vValue v = None -> vRelease v = None) ->
  (forall h', ext h h' -> wfh h' ->
     vals h' !! length (vals h) = Some v -> Q (length (vals h)) h') ->
  wp (alloc_val v) h Q.
Proof.
  intros W Hv HQ. eexists _, _. split; [reflexivity|].
  apply HQ; [by eapply Ext_alloc_val | by eapply wfh_alloc_val |].
  simpl. by rewrite lookup_app_r, Nat.sub_diag.
Qed.

Lemma ext_lookup h h' a n :
  ext h h' -> nodes h !! a = Some n ->
  exists n', nodes h' !! a = Some n' /\ same_fields n n'.
Proof. intros E. apply (ext_nodes _ _ E). Qed.

Lemma decref_f_total fuel : forall p h,
  wfh h ->
  match p with
  | Some a => (a < length (nodes h))%nat /\ (a < fuel)%nat
  | None => True
  end ->
  wp (decref_f fuel p) h (fun _ h' => wfh h').
Proof.
  induction fuel as [|f IH]; intros [a|] h W Hp; simpl;
    try (by apply wp_ret); [lia|].
  destruct Hp as [Ha Hf].
  apply wp_bind, wp_add_node_ref; [done..|]. intros c h1 E1 W1.
  destruct (c =? 0); [|by apply wp_ret].
  pose proof (ext_nlen _ _ E1) as L1.
  apply wp_bind, wp_load_node; [lia|]. intros n Hn.
  pose proof (wf_value _ W1 _ _ Hn) as Hv.
  apply wp_bind, wp_add_val_ref; [done..|]. intros c2 h2 E2 W2.
  pose proof (ext_vlen _ _ E2) as V2.
  pose proof (ext_nlen _ _ E2) as L2.
  assert (forall h3, ext h2 h3 -> wfh h3 ->
            wp (decref_f f (left n);; decref_f f (right n)) h3
               (fun _ h' => wfh h')) as Hrest.
  { intros h3 E3 W3. pose proof (ext_nlen _ _ E3) as L3.
    apply wp_bind. eapply wp_mono.
    - apply IH; [done|]. destruct (left n) as [c'|] eqn:Hc; [|done].
      pose proof (wf_left _ W1 _ _ _ Hn Hc). lia.
    - intros [] h4 E4%Ext_decref_f W4. simpl.
      pose proof (ext_nlen _ _ E4) as L4.
      apply IH; [done|]. destruct (right n) as [c'|] eqn:Hc; [|done].
      pose proof (wf_right _ W1 _ _ _ Hn Hc). lia. }
  apply wp_bind.
  destruct (c2 =? 0).
  - apply wp_bind, wp_load_val; [lia|]. intros rv Hrv.
    apply wp_bind.
    destruct (vRelease rv) as [r|] eqn:Hr.
    + destruct (vValue rv) as [v|] eqn:Hvv.
      * apply wp_call_release; [done|]. intros h3 E3 W3.
        pose proof (ext_vlen _ _ E3).
        apply wp_clear_val; [done|lia|]. intros h4 E4 W4.
        apply Hrest; [|done]. by eapply ext_trans.
      * pose proof (wf_release _ W2 _ _ Hrv Hvv). congruence.
    + apply wp_ret. apply wp_clear_val; [done|lia|]. intros h4 E4 W4.
      by apply Hrest.
  - apply wp_ret. apply Hrest; [apply ext_refl|done].
Qed.

Lemma wp_decref p h (Q : unit -> heap -> Prop) :
  wfh h -> valid h p ->
  (forall h', ext h h' -> wfh h' -> Q tt h') ->
  wp (decref p) h Q.
Proof.
  intros W Hp HQ. unfold decref. eapply wp_mono.
  - apply decref_f_total; [done|]. destruct p; simpl in *; [lia|done].
  - intros [] h' E%Ext_decref_f W'. by apply HQ.
Qed.

Lemma wp_incref p h (Q : option nat -> heap -> Prop) :
  wfh h -> valid h p ->
  (forall h', ext h h' -> wfh h' -> Q p h') ->
  wp (incref p) h Q.
Proof.
  intros W Hp HQ. destruct p as [a|]; simpl.
  - apply wp_bind, wp_add_node_ref; [done..|]. intros c h' E W'.
    apply wp_ret. by apply HQ.
  - apply wp_ret. apply HQ; [apply ext_refl|done].
Qed.

Lemma wp_shallowCloneWithRef a n h (Q : mapNode -> heap -> Prop) :
  wfh h -> nodes h !! a = Some n ->
  (forall h', ext h h' -> wfh h' ->
     Q (MapNode (key n) (value n) (weight n) 1 None None) h') ->
  wp (shallowCloneWithRef a) h Q.
Proof.
  intros W Hn HQ. unfold shallowCloneWithRef.
  apply wp_bind, wp_load_node; [by eapply lookup_lt_Some|].
  intros n' Hn'. rewrite Hn in Hn'. injection Hn' as <-.
  apply wp_bind, wp_add_val_ref; [done|by eapply wf_value|].
  intros c h' E W'. apply wp_ret. by apply HQ.
Qed.

Lemma shape_valid_ext h h' p t : shape h p t -> ext h h' -> valid h' p.
Proof. intros Hs E. eapply valid_ext; [done|]. by eapply shape_valid. Qed.

Lemma shape_alloc h' a n tl tr :
  nodes h' !! a = Some n -> shape h' (left n) tl -> shape h' (right n) tr ->
  shape h' (Some a) (Node tl (key n) (value n) (weight n) tr).
Proof. intros. by econstructor. Qed.

Ltac split_ands := repeat match goal with |- _ /\ _ => split end.

Lemma psplit_rm_Leaf rm k : psplit_rm rm Leaf k = (Leaf, Leaf, Leaf).
Proof. by destruct rm. Qed.

Lemma split_f_total k rm fuel : forall n t h,
  wfh h -> shape h n t -> (height t <= fuel)%nat ->
  wp (split_f fuel n k rm) h (fun res h' =>
    wfh h' /\
    shape h' res.1.1 (psplit_rm rm t k).1.1 /\
    shape h' res.1.2 (psplit_rm rm t k).1.2 /\
    shape h' res.2 (psplit_rm rm t k).2).
Proof.
  induction fuel as [|f IH]; intros n t h W Hs Hf.
  - destruct Hs; simpl in *; [|lia]. apply wp_ret. rewrite psplit_rm_Leaf.
    simpl. split_ands; (done || constructor).
  - destruct Hs as [|a nd tl tr Hn Hl Hr]; simpl in *.
    { apply wp_ret. rewrite psplit_rm_Leaf.
      simpl. split_ands; (done || constructor). }
    apply wp_bind, wp_load_node; [by eapply lookup_lt_Some|].
    intros nd' Hn'. rewrite Hn in Hn'. injection Hn' as <-.
    unfold psplit_rm. simpl.
    destruct (less (key nd) k) eqn:L1; [|destruct (less k (key nd)) eqn:L2].
    + apply wp_bind. eapply wp_mono; [apply (IH _ tr); [done..|lia]|].
      intros [[l mid] r] h1 E1%Ext_split_f (W1 & S1 & S2 & S3).
      unfold psplit_rm in S1, S2, S3.
      destruct (psplit tr k) as [[ta tm] tb]. simpl in *.
      destruct (rm && is_leaf tm) eqn:Erm; simpl in *;
        rewrite (shape_is_nil _ _ _ S2); simpl.
      * apply andb_true_iff in Erm as [-> _]. simpl.
        apply wp_ret. split_ands; (done || constructor).
      * rewrite Erm.
        destruct (ext_lookup _ _ _ _ E1 Hn) as (n1 & Hn1 & F1).
        eapply wp_bind, wp_shallowCloneWithRef; [done..|].
        intros h2 E2 W2.
        apply wp_bind, wp_incref;
          [done|eapply shape_valid_ext; [done|by eapply ext_trans]|].
        intros h3 E3 W3.
        assert (ext h h3) as E by (eauto using ext_trans).
        assert (ext h1 h3) as E13 by (eauto using ext_trans).
        apply wp_bind, wp_alloc_node; simpl; [done| | | |].
        { by eapply shape_valid_ext. }
        { by eapply shape_valid_ext. }
        { pose proof (wf_value _ W1 _ _ Hn1). pose proof (ext_vlen _ _ E13).
          lia. }
        intros h4 E4 W4 Hlk. apply wp_ret. simpl.
        destruct F1 as (Fk & Fv & Fw & _). rewrite <- Fk, <- Fv, <- Fw in Hlk.
        assert (ext h h4) as E04 by (eauto using ext_trans).
        assert (ext h1 h4) as E14 by (eauto using ext_trans).
        split_ands; [done| |solve [eauto using shape_ext]..].
        apply (shape_alloc _ _ _ _ _ Hlk); simpl; solve [eauto using shape_ext].
    + apply wp_bind. eapply wp_mono; [apply (IH _ tl); [done..|lia]|].
      intros [[l mid] r] h1 E1%Ext_split_f (W1 & S1 & S2 & S3).
      unfold psplit_rm in S1, S2, S3.
      destruct (psplit tl k) as [[ta tm] tb]. simpl in *.
      destruct (rm && is_leaf tm) eqn:Erm; simpl in *;
        rewrite (shape_is_nil _ _ _ S2); simpl.
      * apply andb_true_iff in Erm as [-> _]. simpl.
        apply wp_ret. split_ands; (done || constructor).
      * rewrite Erm.
        destruct (ext_lookup _ _ _ _ E1 Hn) as (n1 & Hn1 & F1).
        eapply wp_bind, wp_shallowCloneWithRef; [done..|].
        intros h2 E2 W2.
        apply wp_bind, wp_incref;
          [done|eapply shape_valid_ext; [done|by eapply ext_trans]|].
        intros h3 E3 W3.
        assert (ext h h3) as E by (eauto using ext_trans).
        assert (ext h1 h3) as E13 by (eauto using ext_trans).
        apply wp_bind, wp_alloc_node; simpl; [done| | | |].
        { by eapply shape_valid_ext. }
        { by eapply shape_valid_ext. }
        { pose proof (wf_value _ W1 _ _ Hn1). pose proof (ext_vlen _ _ E13).
          lia. }
        intros h4 E4 W4 Hlk. apply wp_ret. simpl.
        destruct F1 as (Fk & Fv & Fw & _). rewrite <- Fk, <- Fv, <- Fw in Hlk.
        assert (ext h h4) as E04 by (eauto using ext_trans).
        assert (ext h1 h4) as E14 by (eauto using ext_trans).
        split_ands; [done|solve [eauto using shape_ext]..| ].
        apply (shape_alloc _ _ _ _ _ Hlk); simpl; solve [eauto using shape_ext].
    + eapply wp_bind, wp_shallowCloneWithRef; [done..|].
      intros h2 E2 W2.
      apply wp_bind, wp_alloc_node; simpl; [done..| |].
      { pose proof (wf_value _ W _ _ Hn). pose proof (ext_vlen _ _ E2). lia. }
      intros h3 E3 W3 Hlk.
      assert (ext h h3) as E by (eauto using ext_trans).
      apply wp_bind, wp_incref;
        [done|by eapply shape_valid_ext|].
      intros h4 E4 W4.
      assert (ext h h4) as E' by (eauto using ext_trans).
      apply wp_bind, wp_incref;
        [done|by eapply shape_valid_ext|].
      intros h5 E5 W5.
      assert (ext h h5) as E'' by (eauto using ext_trans).
      apply wp_ret. rewrite andb_false_r. simpl.
      split_ands; [done|solve [eauto using shape_ext]| |solve [eauto using shape_ext]].
      apply (shape_ext h3); [by eapply ext_trans|].
      apply (shape_alloc _ _ _ _ _ Hlk); simpl; constructor.
Qed.

Lemma shape_height h p t :
  wfh h -> shape h p t ->
  match p with
  | Some a => (height t <= S a)%nat
  | None => height t = O
  end.
Proof.
  intros W. induction 1 as [|a n l r Hn Hl IHl Hr IHr]; simpl; [done|].
  assert (height l <= a)%nat.
  { destruct (left n) as [c|] eqn:Hc; [|lia].
    pose proof (wf_left _ W _ _ _ Hn Hc). lia. }
  assert (height r <= a)%nat.
  { destruct (right n) as [c|] eqn:Hc; [|lia].
    pose proof (wf_right _ W _ _ _ Hn Hc). lia. }
  lia.
Qed.

Lemma shape_height_len h p t :
  wfh h -> shape h p t -> (height t <= length (nodes h))%nat.
Proof.
  intros W Hs. pose proof (shape_height _ _ _ W Hs) as Hh.
  pose proof (shape_valid _ _ _ Hs) as Hv.
  destruct p; simpl in *; lia.
Qed.

Lemma wp_split n t k rm h
  (Q : option nat * option nat * option nat -> heap -> Prop) :
  wfh h -> shape h n t ->
  (forall l m r h', ext h h' -> wfh h' ->
     shape h' l (psplit_rm rm t k).1.1 ->
     shape h' m (psplit_rm rm t k).1.2 ->
     shape h' r (psplit_rm rm t k).2 ->
     Q (l, m, r) h') ->
  wp (split n k rm) h Q.
Proof.
  intros W Hs HQ. unfold split. eapply wp_mono.
  - apply split_f_total; [done..|]. by eapply shape_height_len.
  - intros [[l m] r] h' E%Ext_split_f (W' & S1 & S2 & S3). by apply HQ.
Qed.

Lemma pmerge_Leaf_r t : pmerge t Leaf = t.
Proof. by destruct t. Qed.

Lemma pmerge_node ll lk lp lw lr rl rk rp rw rr :
  pmerge (Node ll lk lp lw lr) (Node rl rk rp rw rr) =
  if rw <? lw then Node ll lk lp lw (pmerge lr (Node rl rk rp rw rr))
  else Node (pmerge (Node ll lk lp lw lr) rl) rk rp rw rr.
Proof. reflexivity. Qed.

Lemma pmerge_Leaf_l t : pmerge Leaf t = t.
Proof. by destruct t. Qed.

Lemma merge_f_nil_l fuel r : merge_f fuel None r = incref r.
Proof. by destruct fuel. Qed.

Lemma merge_f_nil_r fuel l : merge_f fuel l None = incref l.
Proof. by destruct fuel, l. Qed.

Lemma merge_f_total fuel : forall l r tl tr h,
  wfh h -> shape h l tl -> shape h r tr ->
  (height tl + height tr <= fuel)%nat ->
  wp (merge_f fuel l r) h (fun res h' =>
    wfh h' /\ shape h' res (pmerge tl tr)).
Proof.
  induction fuel as [|f IH]; intros l r tl tr h W Sl Sr Hf.
  - destruct Sl as [|la ln ll lr Hln Hll Hlr].
    + rewrite merge_f_nil_l, pmerge_Leaf_l.
      apply wp_incref; [done|by eapply shape_valid|].
      intros h' E W'; split; eauto using shape_ext.
    + destruct Sr as [|ra rn rl rr Hrn Hrl Hrr]; simpl in Hf; [|lia].
      rewrite merge_f_nil_r, pmerge_Leaf_r.
      apply wp_incref; [done|by eapply lookup_lt_Some|].
      intros h' E W'; split; [done|].
      eapply shape_ext; [done|]. by econstructor.
  - destruct Sl as [|la ln ll lr Hln Hll Hlr].
    + rewrite merge_f_nil_l, pmerge_Leaf_l.
      apply wp_incref; [done|by eapply shape_valid|].
      intros h' E W'; split; eauto using shape_ext.
    + destruct Sr as [|ra rn rl rr Hrn Hrl Hrr].
      { rewrite merge_f_nil_r, pmerge_Leaf_r.
        apply wp_incref; [done|by eapply lookup_lt_Some|].
        intros h' E W'; split; [done|].
        eapply shape_ext; [done|]. by econstructor. }
      rewrite pmerge_node. simpl merge_f. simpl in Hf.
      apply wp_bind, wp_load_node; [by eapply lookup_lt_Some|].
      intros n1 Hn1. rewrite Hln in Hn1. injection Hn1 as <-.
      apply wp_bind, wp_load_node; [by eapply lookup_lt_Some|].
      intros n2 Hn2. rewrite Hrn in Hn2. injection Hn2 as <-.
      destruct (weight rn <? weight ln).
      * eapply wp_bind, wp_shallowCloneWithRef; [done..|]. intros h1 E1 W1.
        apply wp_bind, wp_incref; [done|by eapply shape_valid_ext|].
        intros h2 E2 W2.
        assert (ext h h2) as E02 by (eauto using ext_trans).
        apply wp_bind. eapply wp_mono.
        { apply (IH (right ln) (Some ra) lr
                    (Node rl (key rn) (value rn) (weight rn) rr)); [done| | |].
          - eauto using shape_ext.
          - eapply shape_ext; [done|]. by econstructor.
          - simpl. lia. }
        intros m h3 E3%Ext_merge_f [W3 S3]. simpl.
        assert (ext h h3) as E03 by (eauto using ext_trans).
        apply wp_bind, wp_alloc_node; simpl; [done| | | |].
        { by eapply shape_valid_ext. }
        { by eapply shape_valid. }
        { pose proof (wf_value _ W _ _ Hln). pose proof (ext_vlen _ _ E03).
          lia. }
        intros h4 E4 W4 Hlk. apply wp_ret. split; [done|].
        apply (shape_alloc _ _ _ _ _ Hlk); simpl;
          solve [eauto using shape_ext, ext_trans].
      * eapply wp_bind, wp_shallowCloneWithRef; [done..|]. intros h1 E1 W1.
        apply wp_bind. eapply wp_mono.
        { apply (IH (Some la) (left rn)
                    (Node ll (key ln) (value ln) (weight ln) lr) rl); [done| | |].
          - eapply shape_ext; [done|]. by econstructor.
          - eauto using shape_ext.
          - simpl. lia. }
        intros m h2 E2%Ext_merge_f [W2 S2]. simpl.
        assert (ext h h2) as E02 by (eauto using ext_trans).
        apply wp_bind, wp_incref; [done|by eapply shape_valid_ext|].
        intros h3 E3 W3.
        assert (ext h h3) as E03 by (eauto using ext_trans).
        apply wp_bind, wp_alloc_node; simpl; [done| | | |].
        { by eapply shape_valid_ext. }
        { by eapply shape_valid_ext. }
        { pose proof (wf_value _ W _ _ Hrn). pose proof (ext_vlen _ _ E03).
          lia. }
        intros h4 E4 W4 Hlk. apply wp_ret. split; [done|].
        apply (shape_alloc _ _ _ _ _ Hlk); simpl;
          solve [eauto using shape_ext, ext_trans].
Qed.

Lemma psplit_height t k :
  (height (psplit t k).1.1 <= height t)%nat /\
  (height (psplit t k).1.2 <= height t)%nat /\
  (height (psplit t k).2 <= height t)%nat.
Proof.
  induction t as [|l IHl k' p w r IHr]; simpl; [lia|].
  destruct (less k' k); [|destruct (less k k')].
  - destruct (psplit r k) as [[a m] b]. simpl in *. lia.
  - destruct (psplit l k) as [[a m] b]. simpl in *. lia.
  - simpl. lia.
Qed.

Lemma psplit_rm_false t k : psplit_rm false t k = psplit t k.
Proof. unfold psplit_rm. by destruct (psplit t k) as [[a m] b]. Qed.

Lemma punion_f_Leaf_l fuel t ow : punion_f fuel Leaf t ow = t.
Proof. by destruct fuel. Qed.

Lemma punion_f_Leaf_r fuel t ow : punion_f fuel t Leaf ow = t.
Proof. by destruct fuel, t. Qed.

Lemma union_f_nil_l fuel b ow : union_f fuel None b ow = incref b.
Proof. by destruct fuel. Qed.

Lemma union_f_nil_r fuel a ow : union_f fuel a None ow = incref a.
Proof. by destruct fuel, a. Qed.

Section UnionBody.

Variable rec : option nat -> option nat -> bool -> M (option nat).
Variable prec : tree -> tree -> bool -> tree.
Variable f : nat.
Hypothesis rec_total : forall a b ta tb ow h,
  wfh h -> shape h a ta -> shape h b tb ->
  (height ta + height tb <= f)%nat ->
  wp (rec a b ow) h (fun res h' => wfh h' /\ shape h' res (prec ta tb ow)).
Hypothesis rec_ext : forall a b ow, Ext (rec a b ow).

Lemma union_body_total fa fn sa fl fr tsec ow h :
  wfh h -> nodes h !! fa = Some fn ->
  shape h (left fn) fl -> shape h (right fn) fr ->
  shape h (Some sa) tsec ->
  (Nat.max (height fl) (height fr) + height tsec <= f)%nat ->
  wp (union_body rec fa fn sa ow) h (fun res h' =>
    wfh h' /\
    shape h' res
      (punion_body prec fl (key fn) (value fn) (weight fn) fr tsec ow)).
Proof.
  intros W Hn Sl Sr Ss Hf. unfold union_body, punion_body.
  apply wp_bind. eapply wp_split; [done..|].
  intros l mid r h1 E1 W1. rewrite psplit_rm_false.
  pose proof (psplit_height tsec (key fn)) as (H1 & H2 & H3).
  destruct (psplit tsec (key fn)) as [[tl tm] tr]. simpl in *.
  intros S1 S2 S3.
  destruct (ext_lookup _ _ _ _ E1 Hn) as (fn1 & Hn1 & Ff).
  assert (exists src nsrc,
    nodes h1 !! src = Some nsrc /\
    (match mid with
     | Some ma => if ow then shallowCloneWithRef ma else shallowCloneWithRef fa
     | None => shallowCloneWithRef fa
     end) = shallowCloneWithRef src /\
    (match tm with
     | Node _ mk mp _ _ => if ow then (mk, mp) else (key fn, value fn)
     | Leaf => (key fn, value fn)
     end) = (key nsrc, value nsrc)) as (src & nsrc & Hsrc & -> & ->).
  { destruct Ff as (Fk & Fv & _).
    destruct S2 as [|ma mn ml mr Hmn _ _]; [|destruct ow].
    - exists fa, fn1. by rewrite Fk, Fv.
    - by exists ma, mn.
    - exists fa, fn1. by rewrite Fk, Fv. }
  apply wp_bind. eapply wp_shallowCloneWithRef; [done..|].
  intros h2 E2 W2. simpl.
  assert (ext h h2) as E02 by (eauto using ext_trans).
  apply wp_bind. eapply wp_mono.
  { apply (rec_total (left fn) l fl tl); [done| | |lia];
      eauto using shape_ext. }
  intros ul h3 E3%rec_ext [W3 Sul]. simpl.
  assert (ext h h3) as E03 by (eauto using ext_trans).
  assert (ext h1 h3) as E13 by (eauto using ext_trans).
  apply wp_bind. eapply wp_mono.
  { apply (rec_total (right fn) r fr tr); [done| | |lia];
      eauto using shape_ext. }
  intros ur h4 E4%rec_ext [W4 Sur]. simpl.
  assert (ext h h4) as E04 by (eauto using ext_trans).
  assert (ext h1 h4) as E14 by (eauto using ext_trans).
  apply wp_bind, wp_decref; [done|by eapply shape_valid_ext|].
  intros h5 E5 W5.
  assert (ext h1 h5) as E15 by (eauto using ext_trans).
  apply wp_bind, wp_decref; [done|by eapply shape_valid_ext|].
  intros h6 E6 W6.
  assert (ext h1 h6) as E16 by (eauto using ext_trans).
  apply wp_bind, wp_decref; [done|by eapply shape_valid_ext|].
  intros h7 E7 W7.
  assert (ext h1 h7) as E17 by (eauto using ext_trans).
  assert (ext h3 h7) as E37 by (eauto using ext_trans).
  assert (ext h4 h7) as E47 by (eauto using ext_trans).
  apply wp_bind, wp_alloc_node; simpl; [done| | | |].
  { by eapply shape_valid_ext. }
  { by eapply shape_valid_ext. }
  { pose proof (wf_value _ W1 _ _ Hsrc). pose proof (ext_vlen _ _ E17). lia. }
  intros h8 E8 W8 Hlk. apply wp_ret. split; [done|].
  apply (shape_alloc _ _ _ _ _ Hlk); simpl;
    solve [eauto using shape_ext, ext_trans].
Qed.

End UnionBody.

Lemma union_f_total fuel : forall a b ta tb ow h,
  wfh h -> shape h a ta -> shape h b tb ->
  (height ta + height tb <= fuel)%nat ->
  wp (union_f fuel a b ow) h (fun res h' =>
    wfh h' /\ shape h' res (punion_f fuel ta tb ow)).
Proof.
  induction fuel as [|f IH]; intros a b ta tb ow h W Sa Sb Hf.
  - destruct Sa as [|fa fn fl fr Hfn Hfl Hfr].
    + rewrite union_f_nil_l, punion_f_Leaf_l.
      apply wp_incref; [done|by eapply shape_valid|].
      intros h' E W'; split; eauto using shape_ext.
    + destruct Sb as [|sa sn sl sr Hsn Hsl Hsr]; simpl in Hf; [|lia].
      rewrite union_f_nil_r, punion_f_Leaf_r.
      apply wp_incref; [done|by eapply lookup_lt_Some|].
      intros h' E W'; split; [done|].
      eapply shape_ext; [done|]. by econstructor.
  - destruct Sa as [|fa fn fl fr Hfn Hfl Hfr].
    + rewrite union_f_nil_l, punion_f_Leaf_l.
      apply wp_incref; [done|by eapply shape_valid|].
      intros h' E W'; split; eauto using shape_ext.
    + destruct Sb as [|sa sn sl sr Hsn Hsl Hsr].
      { rewrite union_f_nil_r, punion_f_Leaf_r.
        apply wp_incref; [done|by eapply lookup_lt_Some|].
        intros h' E W'; split; [done|].
        eapply shape_ext; [done|]. by econstructor. }
      simpl union_f. simpl punion_f. simpl in Hf.
      apply wp_bind, wp_load_node; [by eapply lookup_lt_Some|].
      intros n1 Hn1. rewrite Hfn in Hn1. injection Hn1 as <-.
      apply wp_bind, wp_load_node; [by eapply lookup_lt_Some|].
      intros n2 Hn2. rewrite Hsn in Hn2. injection Hn2 as <-.
      destruct (weight fn <? weight sn).
      * eapply union_body_total; try done.
        -- apply Ext_union_f.
        -- by econstructor.
        -- simpl. lia.
      * eapply union_body_total; try done.
        -- apply Ext_union_f.
        -- by econstructor.
        -- simpl. lia.
Qed.

Lemma wp_merge l r tl tr h (Q : option nat -> heap -> Prop) :
  wfh h -> shape h l tl -> shape h r tr ->
  (forall res h', ext h h' -> wfh h' -> shape h' res (pmerge tl tr) ->
     Q res h') ->
  wp (merge l r) h Q.
Proof.
  intros W Sl Sr HQ. unfold merge. eapply wp_mono.
  - apply merge_f_total; [done..|].
    pose proof (shape_height_len _ _ _ W Sl).
    pose proof (shape_height_len _ _ _ W Sr). lia.
  - intros res h' E%Ext_merge_f [W' S']. by apply HQ.
Qed.

(** What [union] computes: the recursion of [punion_f] with the fuel [union]
    starts from. *)
Definition punion (h : heap) (a b : tree) (ow : bool) : tree :=
  punion_f (2 * length (nodes h)) a b ow.

Lemma wp_union a b ta tb ow h (Q : option nat -> heap -> Prop) :
  wfh h -> shape h a ta -> shape h b tb ->
  (forall res h', ext h h' -> wfh h' -> shape h' res (punion h ta tb ow) ->
     Q res h') ->
  wp (union a b ow) h Q.
Proof.
  intros W Sa Sb HQ. unfold union. eapply wp_mono.
  - apply union_f_total; [done..|].
    pose proof (shape_height_len _ _ _ W Sa).
    pose proof (shape_height_len _ _ _ W Sb). lia.
  - intros res h' E%Ext_union_f [W' S']. by apply HQ.
Qed.

(** * Reference counts

    The counting invariant.  [R] lists the node references held outside the
    node table (map roots and the locals of a running operation), [Q] the
    payload references held by node records that are not stored yet, and
    [recs] the binding each payload was created with. *)

Fixpoint sumZ {A} (f : A -> Z) (l : list A) : Z :=
  match l with
  | [] => 0
  | x :: l => f x + sumZ f l
  end.

Definition delta (p : option nat) (a : nat) : Z :=
  match p with
  | Some b => if decide (b = a) then 1 else 0
  | None => 0
  end.

Definition deltan (q p : nat) : Z := if decide (q = p) then 1 else 0.

Definition mult (R : list (option nat)) (a : nat) : Z :=
  sumZ (fun p => delta p a) R.

Definition cnt (Q : list nat) (p : nat) : Z := sumZ (fun q => deltan q p) Q.

Definition live (n : mapNode) : bool := 0 <? refCount n.

(** References from a stored node to the node [a], to the payload [p]. A node
    whose counter is zero has given its references back. *)
Definition edges (a : nat) (n : mapNode) : Z :=
  if live n then delta (left n) a + delta (right n) a else 0.

Definition holds (p : nat) (n : mapNode) : Z :=
  if live n then deltan (value n) p else 0.

Definition indeg (h : heap) (a : nat) : Z := sumZ (edges a) (nodes h).

Definition pdeg (h : heap) (p : nat) : Z := sumZ (holds p) (nodes h).

Abbreviation binding := (K * V * option Rel)%type.

Record counted (h : heap) (R : list (option nat)) (Q : list nat)
  (recs : list binding) : Prop := MkCounted {
  c_rc : forall a n, nodes h !! a = Some n ->
           refCount n = mult R a + indeg h a;
  c_vrc : forall p v, vals h !! p = Some v ->
            vRefCount v = cnt Q p + pdeg h p;
  c_dom : forall a n, nodes h !! a = Some n ->
            valid h (left n) /\ valid h (right n) /\
            (value n < length (vals h))%nat;
  c_roots : forall a, 0 < mult R a -> (a < length (nodes h))%nat;
  c_pend : forall p, 0 < cnt Q p -> (p < length (vals h))%nat;
  c_len : length recs = length (vals h);
  c_val : forall p v k x r, vals h !! p = Some v ->
            recs !! p = Some (k, x, r) ->
            if 0 <? vRefCount v then vValue v = Some x /\ vRelease v = r
            else vValue v = None /\ vRelease v = None;
  c_key : forall a n, nodes h !! a = Some n ->
            exists x r, recs !! value n = Some (key n, x, r);
  c_nodup : NoDup (ePayload <$> trace h);
  c_trace : forall e, e ∈ trace h <->
              exists v, vals h !! ePayload e = Some v /\ vRefCount v = 0 /\
                recs !! ePayload e = Some (eKey e, eValue e, Some (eRelease e))
}.

(** The invariant proper: the counts are exact unless a counter wrapped. *)
Definition Inv (h : heap) (R : list (option nat)) (Q : list nat)
  (recs : list binding) : Prop :=
  wrapped h = false -> counted h R Q recs.

Lemma sumZ_app {A} (f : A -> Z) l1 l2 :
  sumZ f (l1 ++ l2) = sumZ f l1 + sumZ f l2.
Proof. induction l1; simpl; lia. Qed.

Lemma sumZ_insert {A} (f : A -> Z) l i x y :
  l !! i = Some x -> sumZ f (<[i := y]> l) = sumZ f l - f x + f y.
Proof.
  revert i. induction l as [|z l IH]; intros [|i] Hi; simpl in *; try done.
  - injection Hi as ->. lia.
  - rewrite (IH _ Hi). lia.
Qed.

Lemma sumZ_nonneg {A} (f : A -> Z) l : (forall x, 0 <= f x) -> 0 <= sumZ f l.
Proof. intros Hf. induction l as [|z l IH]; simpl; [lia|]. specialize (Hf z). lia. Qed.

Lemma sumZ_lookup_le {A} (f : A -> Z) l i x :
  (forall x, 0 <= f x) -> l !! i = Some x -> f x <= sumZ f l.
Proof.
  intros Hf. revert i. induction l as [|z l IH]; intros [|i] Hi; simpl in *;
    try done.
  - injection Hi as ->. pose proof (sumZ_nonneg f l Hf). lia.
  - specialize (IH _ Hi). specialize (Hf z). lia.
Qed.

Lemma sumZ_ext {A} (f g : A -> Z) l :
  (forall x, f x = g x) -> sumZ f l = sumZ g l.
Proof. intros Hfg. induction l; simpl; [done|]. rewrite Hfg. lia. Qed.

Lemma delta_nonneg p a : 0 <= delta p a.
Proof. unfold delta. destruct p; [destruct (decide _)|]; lia. Qed.

Lemma deltan_nonneg q p : 0 <= deltan q p.
Proof. unfold deltan. destruct (decide _); lia. Qed.

Lemma edges_nonneg a n : 0 <= edges a n.
Proof.
  unfold edges. pose proof (delta_nonneg (left n) a).
  pose proof (delta_nonneg (right n) a). destruct (live n); lia.
Qed.

Lemma holds_nonneg p n : 0 <= holds p n.
Proof.
  unfold holds. pose proof (deltan_nonneg (value n) p). destruct (live n); lia.
Qed.

Lemma mult_nonneg R a : 0 <= mult R a.
Proof. apply sumZ_nonneg. intros. apply delta_nonneg. Qed.

Lemma cnt_nonneg Q p : 0 <= cnt Q p.
Proof. apply sumZ_nonneg. intros. apply deltan_nonneg. Qed.

Lemma indeg_nonneg h a : 0 <= indeg h a.
Proof. apply sumZ_nonneg. intros. apply edges_nonneg. Qed.

Lemma pdeg_nonneg h p : 0 <= pdeg h p.
Proof. apply sumZ_nonneg. intros. apply holds_nonneg. Qed.

Lemma mult_cons p R a : mult (p :: R) a = delta p a + mult R a.
Proof. reflexivity. Qed.

Lemma cnt_cons q Q p : cnt (q :: Q) p = deltan q p + cnt Q p.
Proof. reflexivity. Qed.

Lemma wrap32_id z : in_int32 z = true -> wrap32 z = z.
Proof.
  unfold in_int32, wrap32. intros [H1 H2]%andb_true_iff.
  apply Z.leb_le in H1. apply Z.ltb_lt in H2.
  rewrite Z.mod_small; lia.
Qed.

(** The ghost lists matter only through their multiplicities. *)
Lemma counted_equiv h R R' Q Q' recs :
  (forall a, mult R a = mult R' a) -> (forall p, cnt Q p = cnt Q' p) ->
  counted h R Q recs -> counted h R' Q' recs.
Proof.
  intros HR HQ [C1 C2 C3 Cr Cp C4 C5 C6 C7 C8]. split; try done.
  - intros a n Hn. rewrite <- HR. auto.
  - intros p v Hv. rewrite <- HQ. auto.
  - intros a. rewrite <- HR. auto.
  - intros p. rewrite <- HQ. auto.
Qed.

Lemma Inv_equiv h R R' Q Q' recs :
  (forall a, mult R a = mult R' a) -> (forall p, cnt Q p = cnt Q' p) ->
  Inv h R Q recs -> Inv h R' Q' recs.
Proof. intros HR HQ H W. eapply counted_equiv; eauto. Qed.

(** ** Counter updates *)

Lemma add_node_ref_inv a d h c h' n :
  add_node_ref a d h = Some (c, h') -> nodes h !! a = Some n ->
  wrapped h' = false ->
  c = refCount n + d /\ wrapped h = false /\
  h' = Heap (<[a := set_refCount n c]> (nodes h)) (vals h) (trace h) false.
Proof.
  unfold add_node_ref. intros H Hn. rewrite Hn in H. injection H as <- <-.
  simpl. intros [-> Hi%negb_false_iff]%orb_false_iff.
  rewrite Hi. simpl. split; [by apply wrap32_id|done].
Qed.

Lemma add_val_ref_inv p d h c h' v :
  add_val_ref p d h = Some (c, h') -> vals h !! p = Some v ->
  wrapped h' = false ->
  c = vRefCount v + d /\ wrapped h = false /\
  h' = Heap (nodes h) (<[p := RefValue c (vValue v) (vRelease v)]> (vals h))
            (trace h) false.
Proof.
  unfold add_val_ref. intros H Hv. rewrite Hv in H. injection H as <- <-.
  simpl. intros [-> Hi%negb_false_iff]%orb_false_iff.
  rewrite Hi. simpl. split; [by apply wrap32_id|done].
Qed.

Lemma live_set_refCount n c :
  live (set_refCount n c) = (0 <? c).
Proof. reflexivity. Qed.

Lemma edges_same x n n' :
  same_fields n n' -> live n = live n' -> edges x n = edges x n'.
Proof. intros (_ & _ & _ & Hl & Hr) Hlv. unfold edges. by rewrite Hlv, Hl, Hr. Qed.

Lemma holds_same p n n' :
  same_fields n n' -> live n = live n' -> holds p n = holds p n'.
Proof. intros (_ & Hv & _) Hlv. unfold holds. by rewrite Hlv, Hv. Qed.

Lemma same_fields_set_refCount n c : same_fields n (set_refCount n c).
Proof. repeat split. Qed.

Lemma lookup_insert_cases {A} (l : list A) i j x y :
  <[i := x]> l !! j = Some y ->
  (j = i /\ y = x /\ (i < length l)%nat) \/ (j <> i /\ l !! j = Some y).
Proof.
  intros H. destruct (decide (j = i)) as [->|Hne].
  - left. assert (i < length l)%nat as Hi.
    { apply lookup_lt_Some in H. by rewrite length_insert in H. }
    rewrite list_lookup_insert_eq in H by done. by injection H as <-.
  - right. by rewrite list_lookup_insert_ne in H.
Qed.

Lemma valid_len h h' p :
  length (nodes h) = length (nodes h') -> valid h p -> valid h' p.
Proof. intros Hl. destruct p; simpl; [lia|done]. Qed.

(** A counter of a live node moves and stays positive: one reference more
    or less in [R], nothing else changes. *)
Lemma counted_add_live a d h c h' n R R' Q recs :
  add_node_ref a d h = Some (c, h') -> wrapped h' = false ->
  nodes h !! a = Some n -> 0 < refCount n -> 0 < refCount n + d ->
  (forall x, mult R' x = mult R x + d * delta (Some a) x) ->
  counted h R Q recs -> counted h' R' Q recs.
Proof.
  intros Hadd W' Hn Hl Hl' HR [C1 C2 C3 Cr Cp C4 C5 C6 C7 C8].
  destruct (add_node_ref_inv _ _ _ _ _ _ Hadd Hn W') as (-> & W & ->).
  assert (forall x, indeg (Heap (<[a := set_refCount n (refCount n + d)]> (nodes h))
                     (vals h) (trace h) false) x = indeg h x) as Hin.
  { intros x. unfold indeg. simpl. rewrite (sumZ_insert _ _ _ _ _ Hn).
    rewrite (edges_same x n (set_refCount n (refCount n + d)));
      [lia|apply same_fields_set_refCount|].
    unfold live. simpl. by rewrite (proj2 (Z.ltb_lt _ _) Hl),
      (proj2 (Z.ltb_lt _ _) Hl'). }
  assert (forall x, pdeg (Heap (<[a := set_refCount n (refCount n + d)]> (nodes h))
                     (vals h) (trace h) false) x = pdeg h x) as Hpd.
  { intros x. unfold pdeg. simpl. rewrite (sumZ_insert _ _ _ _ _ Hn).
    rewrite (holds_same x n (set_refCount n (refCount n + d)));
      [lia|apply same_fields_set_refCount|].
    unfold live. simpl. by rewrite (proj2 (Z.ltb_lt _ _) Hl),
      (proj2 (Z.ltb_lt _ _) Hl'). }
  split; simpl; try done.
  - intros x nx [(-> & -> & _)|[Hne Hx]]%lookup_insert_cases.
    + rewrite Hin, HR. simpl. rewrite decide_True by done.
      specialize (C1 _ _ Hn). lia.
    + rewrite Hin, HR. simpl. rewrite decide_False by done.
      specialize (C1 _ _ Hx). lia.
  - intros q v Hv. rewrite Hpd. auto.
  - intros x nx Hx.
    assert (exists m, nodes h !! x = Some m /\ same_fields m nx)
      as (m & Hm & (_ & Fv & _ & Fl & Fr)).
    { apply lookup_insert_cases in Hx as [(-> & -> & _)|[Hne Hx]].
      - exists n. split; [done|apply same_fields_set_refCount].
      - exists nx. split; [done|apply same_fields_refl]. }
    destruct (C3 _ _ Hm) as (V1 & V2 & V3). rewrite <- Fl, <- Fr, <- Fv.
    split_ands; [eapply valid_len; [|done]..|done]; simpl;
      by rewrite length_insert.
  - intros x. rewrite length_insert, HR. simpl.
    destruct (decide (a = x)) as [<-|Hne].
    + intros _. by eapply lookup_lt_Some.
    + intros Hx. apply Cr. lia.
  - intros x nx [(-> & -> & _)|[Hne Hx]]%lookup_insert_cases; simpl; eauto.
Qed.

Lemma delta_pos_inv p x : 0 < delta p x -> p = Some x.
Proof.
  unfold delta. destruct p as [b|]; [|lia].
  destruct (decide (b = x)); [congruence|lia].
Qed.

Lemma deltan_pos_inv q p : 0 < deltan q p -> q = p.
Proof. unfold deltan. destruct (decide (q = p)); [done|lia]. Qed.

(** The last reference to a node goes: the node gives back its references
    to its children and to its payload. *)
Lemma counted_kill a h h' n R Q recs :
  add_node_ref a (-1) h = Some (0, h') -> wrapped h' = false ->
  nodes h !! a = Some n ->
  counted h (Some a :: R) Q recs ->
  counted h' (left n :: right n :: R) (value n :: Q) recs.
Proof.
  intros Hadd W' Hn [C1 C2 C3 Cr Cp C4 C5 C6 C7 C8].
  destruct (add_node_ref_inv _ _ _ _ _ _ Hadd Hn W') as (Hc & W & ->).
  assert (live n = true) as Hlv by (apply Z.ltb_lt; lia).
  assert (forall x, indeg (Heap (<[a := set_refCount n 0]> (nodes h))
                     (vals h) (trace h) false) x
                    = indeg h x - delta (left n) x - delta (right n) x) as Hin.
  { intros x. unfold indeg. simpl. rewrite (sumZ_insert _ _ _ _ _ Hn).
    unfold edges at 2 3. rewrite Hlv. simpl. lia. }
  assert (forall x, pdeg (Heap (<[a := set_refCount n 0]> (nodes h))
                     (vals h) (trace h) false) x
                    = pdeg h x - deltan (value n) x) as Hpd.
  { intros x. unfold pdeg. simpl. rewrite (sumZ_insert _ _ _ _ _ Hn).
    unfold holds at 2 3. rewrite Hlv. simpl. lia. }
  pose proof (C1 _ _ Hn) as Ha. rewrite mult_cons in Ha. simpl in Ha.
  rewrite decide_True in Ha by done.
  pose proof (mult_nonneg R a). pose proof (indeg_nonneg h a).
  split; simpl; try done.
  - intros x nx [(-> & -> & _)|[Hne Hx]]%lookup_insert_cases.
    + rewrite Hin, !mult_cons. simpl. lia.
    + rewrite Hin, !mult_cons. specialize (C1 _ _ Hx).
      rewrite mult_cons in C1. simpl in C1.
      rewrite decide_False in C1 by done. lia.
  - intros q v Hv. rewrite Hpd, cnt_cons. specialize (C2 _ _ Hv). lia.
  - intros x nx Hx.
    assert (exists m, nodes h !! x = Some m /\ same_fields m nx)
      as (m & Hm & (_ & Fv & _ & Fl & Fr)).
    { apply lookup_insert_cases in Hx as [(-> & -> & _)|[Hne Hx]].
      - exists n. split; [done|apply same_fields_set_refCount].
      - exists nx. split; [done|apply same_fields_refl]. }
    destruct (C3 _ _ Hm) as (V1 & V2 & V3). rewrite <- Fl, <- Fr, <- Fv.
    split_ands; [eapply valid_len; [|done]..|done]; simpl;
      by rewrite length_insert.
  - intros x. rewrite length_insert, !mult_cons. intros Hx.
    destruct (C3 _ _ Hn) as (V1 & V2 & V3).
    pose proof (delta_nonneg (left n) x). pose proof (delta_nonneg (right n) x).
    destruct (Z_lt_dec 0 (delta (left n) x)) as [Hd|Hd].
    { apply delta_pos_inv in Hd. rewrite Hd in V1. done. }
    destruct (Z_lt_dec 0 (delta (right n) x)) as [Hd'|Hd'].
    { apply delta_pos_inv in Hd'. rewrite Hd' in V2. done. }
    apply Cr. rewrite mult_cons. pose proof (delta_nonneg (Some a) x). lia.
  - intros q. rewrite cnt_cons. intros Hq.
    destruct (C3 _ _ Hn) as (V1 & V2 & V3).
    pose proof (deltan_nonneg (value n) q).
    destruct (Z_lt_dec 0 (deltan (value n) q)) as [Hd|Hd].
    { apply deltan_pos_inv in Hd. by rewrite <- Hd. }
    apply Cp. lia.
  - intros x nx [(-> & -> & _)|[Hne Hx]]%lookup_insert_cases; simpl; eauto.
Qed.

(** A record under construction takes a reference to a payload in use. *)
Lemma counted_val_incr p h c h' v R Q recs :
  add_val_ref p 1 h = Some (c, h') -> wrapped h' = false ->
  vals h !! p = Some v -> 0 < vRefCount v ->
  counted h R Q recs -> counted h' R (p :: Q) recs.
Proof.
  intros Hadd W' Hv Hpos [C1 C2 C3 Cr Cp C4 C5 C6 C7 C8].
  destruct (add_val_ref_inv _ _ _ _ _ _ Hadd Hv W') as (-> & W & ->).
  split; simpl; try done.
  - intros q u [(-> & -> & _)|[Hne Hu]]%lookup_insert_cases; simpl.
    + rewrite cnt_cons. unfold deltan. rewrite decide_True by done.
      specialize (C2 _ _ Hv). unfold pdeg in *. simpl. lia.
    + rewrite cnt_cons. unfold deltan. rewrite decide_False by done.
      specialize (C2 _ _ Hu). unfold pdeg in *. simpl. lia.
  - intros x nx Hx. rewrite length_insert. by eapply C3.
  - intros q. rewrite cnt_cons, length_insert. intros Hq.
    pose proof (deltan_nonneg p q).
    destruct (Z_lt_dec 0 (deltan p q)) as [Hd|Hd].
    { apply deltan_pos_inv in Hd. subst q. by eapply lookup_lt_Some. }
    apply Cp. lia.
  - by rewrite length_insert.
  - intros q u k x r [(-> & -> & _)|[Hne Hu]]%lookup_insert_cases Hr; simpl.
    + specialize (C5 _ _ _ _ _ Hv Hr).
      rewrite (proj2 (Z.ltb_lt _ _) Hpos) in C5.
      by rewrite (proj2 (Z.ltb_lt 0 (vRefCount v + 1))) by lia.
    + by eapply C5.
  - intros e. rewrite C8. split; intros (u & Hu & Hz & Hr).
    + exists u. split; [|done]. rewrite list_lookup_insert_ne; [done|].
      intros Heq. rewrite <- Heq, Hv in Hu. injection Hu as <-. lia.
    + apply lookup_insert_cases in Hu as [(_ & -> & _)|[Hne Hu]].
      * simpl in Hz. lia.
      * by exists u.
Qed.

(** What [decref] does after decrementing a payload counter to [c2]. *)
Definition release_last (p : nat) (k : K) (c2 : Z) : M unit :=
  if c2 =? 0 then
    let! rv := load_val p in
    match vRelease rv with
    | Some r =>
        match vValue rv with
        | Some v => call_release p r k v
        | None => fail
        end
    | None => ret tt
    end ;;
    clear_val p
  else ret tt.

Lemma Ext_release_last p k c2 : Ext (release_last p k c2).
Proof. unfold release_last. ext_tac. Qed.

(** A payload reference is dropped; with the last one the callback runs and
    the payload is cleared. *)
Lemma counted_val_drop p k h c2 h2 u h3 R Q recs x r :
  add_val_ref p (-1) h = Some (c2, h2) ->
  release_last p k c2 h2 = Some (u, h3) ->
  wrapped h3 = false ->
  recs !! p = Some (k, x, r) ->
  counted h R (p :: Q) recs -> counted h3 R Q recs.
Proof.
  unfold release_last.
  intros Hadd Hfrag W3 Hrec [C1 C2 C3 Cr Cp C4 C5 C6 C7 C8].
  assert (p < length (vals h))%nat as Hp.
  { apply Cp. rewrite cnt_cons. unfold deltan. rewrite decide_True by done.
    pose proof (cnt_nonneg Q p). lia. }
  destruct (lookup_lt_is_Some_2 _ _ Hp) as [v Hv].
  pose proof (C2 _ _ Hv) as Hrc. rewrite cnt_cons in Hrc. unfold deltan in Hrc.
  rewrite decide_True in Hrc by done.
  pose proof (cnt_nonneg Q p). pose proof (pdeg_nonneg h p).
  pose proof (C5 _ _ _ _ _ Hv Hrec) as Hcont.
  rewrite (proj2 (Z.ltb_lt 0 (vRefCount v))) in Hcont by lia.
  destruct Hcont as [Hvv Hvr].
  assert (wrapped h2 = false) as W2.
  { destruct (c2 =? 0); [|by injection Hfrag as _ <-].
    apply bind_Some in Hfrag as (rv & h2' & Hld & Hfrag).
    apply Ext_load_val in Hld as Eld.
    apply bind_Some in Hfrag as ([] & h2'' & Hrel & Hclr).
    apply (ext_wrapped _ _ Eld).
    assert (ext h2' h2'') as E.
    { revert Hrel. destruct (vRelease rv); [destruct (vValue rv)|];
        [apply Ext_call_release|done|apply Ext_ret]. }
    apply (ext_wrapped _ _ E). apply Ext_clear_val in Hclr.
    by apply (ext_wrapped _ _ Hclr). }
  destruct (add_val_ref_inv _ _ _ _ _ _ Hadd Hv W2) as (-> & W & ->).
  destruct (vRefCount v + -1 =? 0) eqn:Hz.
  - apply Z.eqb_eq in Hz.
    unfold bind, load_val in Hfrag. simpl in Hfrag.
    rewrite list_lookup_insert_eq in Hfrag by done. simpl in Hfrag.
    rewrite Hvv, Hvr in Hfrag.
    assert (exists t,
      h3 = Heap (nodes h) (<[p := RefValue 0 None None]> (vals h)) t false /\
      t = trace h ++ match r with
                     | Some rel => [Event p rel k x]
                     | None => []
                     end) as (t & -> & Ht).
    { destruct r as [rel|]; simpl in Hfrag; unfold clear_val in Hfrag;
        simpl in Hfrag; rewrite list_lookup_insert_eq in Hfrag by done;
        injection Hfrag as _ <-; rewrite list_insert_insert_eq, Hz;
        eexists; split; try reflexivity. by rewrite app_nil_r. }
    assert (p ∉ ePayload <$> trace h) as Hnotin.
    { intros (e & -> & He)%list_elem_of_fmap.
      apply C8 in He as (v' & Hv' & Hz' & _). rewrite Hv in Hv'.
      injection Hv' as <-. lia. }
    split; simpl; try done.
    + intros q v' [(-> & -> & _)|[Hne Hu]]%lookup_insert_cases; simpl.
      * unfold pdeg in *. simpl. lia.
      * specialize (C2 _ _ Hu). rewrite cnt_cons in C2. unfold deltan in C2.
        rewrite decide_False in C2 by done. unfold pdeg in *. simpl. lia.
    + intros a n Hn. rewrite length_insert. by eapply C3.
    + intros q Hq. rewrite length_insert. apply Cp. rewrite cnt_cons.
      pose proof (deltan_nonneg p q). lia.
    + by rewrite length_insert.
    + intros q u' k' x' r' [(-> & -> & _)|[Hne Hu]]%lookup_insert_cases Hr';
        simpl; [done|by eapply C5].
    + subst t. rewrite fmap_app. apply NoDup_app. split; [done|].
      split; [|destruct r; simpl; [apply NoDup_singleton|apply NoDup_nil_2]].
      intros q Hq. destruct r; simpl; [|apply not_elem_of_nil].
      intros ->%list_elem_of_singleton. done.
    + intros e. subst t. rewrite elem_of_app, C8. split.
      * intros [(u' & Hu' & Hz' & Hr')|He].
        -- exists u'. split; [|done]. rewrite list_lookup_insert_ne; [done|].
           intros Heq. rewrite <- Heq, Hv in Hu'. injection Hu' as <-. lia.
        -- destruct r as [rel|]; [|by apply not_elem_of_nil in He].
           apply list_elem_of_singleton in He as ->. simpl.
           eexists. split; [by apply list_lookup_insert_eq|done].
      * intros (u' & [(Hpe & -> & _)|[Hne Hu]]%lookup_insert_cases & Hz' & Hr').
        -- right. rewrite Hpe, Hrec in Hr'. injection Hr' as Hk Hx Hr''.
           rewrite Hr''. apply list_elem_of_singleton.
           destruct e; simpl in *. congruence.
        -- left. by exists u'.
  - apply Z.eqb_neq in Hz. injection Hfrag as _ <-.
    split; simpl; try done.
    + intros q v' [(-> & -> & _)|[Hne Hu]]%lookup_insert_cases; simpl.
      * unfold pdeg in *. simpl. lia.
      * specialize (C2 _ _ Hu). rewrite cnt_cons in C2. unfold deltan in C2.
        rewrite decide_False in C2 by done. unfold pdeg in *. simpl. lia.
    + intros a n Hn. rewrite length_insert. by eapply C3.
    + intros q Hq. rewrite length_insert. apply Cp. rewrite cnt_cons.
      pose proof (deltan_nonneg p q). lia.
    + by rewrite length_insert.
    + intros q u' k' x' r' [(-> & -> & _)|[Hne Hu]]%lookup_insert_cases Hr';
        simpl; [|by eapply C5].
      rewrite Hrec in Hr'. injection Hr' as <- <- <-.
      by rewrite (proj2 (Z.ltb_lt 0 (vRefCount v + -1))) by lia.
    + intros e. rewrite C8. split; intros (u' & Hu' & Hz' & Hr').
      * exists u'. split; [|done]. rewrite list_lookup_insert_ne; [done|].
        intros Heq. rewrite <- Heq, Hv in Hu'. injection Hu' as <-. lia.
      * apply lookup_insert_cases in Hu' as [(_ & -> & _)|[Hne Hu']].
        -- simpl in Hz'. lia.
        -- by exists u'.
Qed.

Lemma sumZ_zero {A} (f : A -> Z) l :
  (forall i y, l !! i = Some y -> f y = 0) -> sumZ f l = 0.
Proof.
  induction l as [|z l IH]; intros Hf; simpl; [done|].
  rewrite (Hf O z eq_refl), IH; [done|].
  intros i y Hy. by apply (Hf (S i)).
Qed.

Lemma indeg_fresh h R Q recs x :
  counted h R Q recs -> (length (nodes h) <= x)%nat -> indeg h x = 0.
Proof.
  intros C Hx. apply sumZ_zero. intros i m Hm.
  destruct (c_dom _ _ _ _ C _ _ Hm) as (V1 & V2 & _).
  unfold edges, delta. destruct (live m); [|done].
  destruct (left m) as [c|]; destruct (right m) as [c'|]; simpl in *;
    repeat (destruct (decide _)); lia.
Qed.

Lemma pdeg_fresh h R Q recs p :
  counted h R Q recs -> (length (vals h) <= p)%nat -> pdeg h p = 0.
Proof.
  intros C Hp. apply sumZ_zero. intros i m Hm.
  destruct (c_dom _ _ _ _ C _ _ Hm) as (_ & _ & V3).
  unfold holds, deltan. destruct (live m); [|done].
  destruct (decide _); lia.
Qed.

Lemma mult_fresh h R Q recs x :
  counted h R Q recs -> (length (nodes h) <= x)%nat -> mult R x = 0.
Proof.
  intros C Hx. pose proof (mult_nonneg R x).
  destruct (Z_lt_dec 0 (mult R x)) as [Hm|Hm]; [|lia].
  apply (c_roots _ _ _ _ C) in Hm. lia.
Qed.

Lemma cnt_fresh h R Q recs p :
  counted h R Q recs -> (length (vals h) <= p)%nat -> cnt Q p = 0.
Proof.
  intros C Hx. pose proof (cnt_nonneg Q p).
  destruct (Z_lt_dec 0 (cnt Q p)) as [Hm|Hm]; [|lia].
  apply (c_pend _ _ _ _ C) in Hm. lia.
Qed.

Lemma lookup_snoc_cases {A} (l : list A) x i y :
  (l ++ [x]) !! i = Some y ->
  ((i < length l)%nat /\ l !! i = Some y) \/ (i = length l /\ y = x).
Proof.
  intros [H|[Hi H]]%lookup_app_Some.
  - left. split; [by eapply lookup_lt_Some|done].
  - right. destruct (i - length l)%nat eqn:E; [|done].
    injection H as <-. split; [lia|done].
Qed.

(** A finished record is stored: the references it holds become edges. *)
Lemma counted_alloc n h a h' R Q recs x r :
  alloc_node n h = Some (a, h') -> refCount n = 1 ->
  recs !! value n = Some (key n, x, r) ->
  counted h (left n :: right n :: R) (value n :: Q) recs ->
  counted h' (Some a :: R) Q recs.
Proof.
  intros [= <- <-] Hrc Hrec C.
  pose proof C as [C1 C2 C3 Cr Cp C4 C5 C6 C7 C8].
  assert (live n = true) as Hlv by (apply Z.ltb_lt; lia).
  assert (forall y, indeg (Heap (nodes h ++ [n]) (vals h) (trace h) (wrapped h)) y
            = indeg h y + delta (left n) y + delta (right n) y) as Hin.
  { intros y. unfold indeg. simpl. rewrite sumZ_app. simpl.
    unfold edges at 2. rewrite Hlv. lia. }
  assert (forall q, pdeg (Heap (nodes h ++ [n]) (vals h) (trace h) (wrapped h)) q
            = pdeg h q + deltan (value n) q) as Hpd.
  { intros q. unfold pdeg. simpl. rewrite sumZ_app. simpl.
    unfold holds at 2. rewrite Hlv. lia. }
  assert (valid h (left n) /\ valid h (right n) /\
          (value n < length (vals h))%nat) as (Vl & Vr & Vv).
  { split_ands.
    - destruct (left n) as [c|] eqn:E; [|done]. apply Cr.
      rewrite mult_cons. simpl. rewrite decide_True by done.
      pose proof (mult_nonneg (right n :: R) c). lia.
    - destruct (right n) as [c|] eqn:E; [|done]. apply Cr.
      rewrite !mult_cons. simpl. rewrite decide_True by done.
      pose proof (mult_nonneg R c). pose proof (delta_nonneg (left n) c). lia.
    - apply Cp. rewrite cnt_cons. unfold deltan. rewrite decide_True by done.
      pose proof (cnt_nonneg Q (value n)). lia. }
  split; simpl; try done.
  - intros y ny [[Hy Hlk]|[-> ->]]%lookup_snoc_cases.
    + rewrite Hin, mult_cons. simpl. rewrite decide_False by lia.
      specialize (C1 _ _ Hlk). rewrite !mult_cons in C1. lia.
    + rewrite Hin, mult_cons. simpl. rewrite decide_True by done.
      pose proof (mult_fresh _ _ _ _ (length (nodes h)) C (le_n _)) as Hm.
      rewrite !mult_cons in Hm.
      pose proof (indeg_fresh _ _ _ _ (length (nodes h)) C (le_n _)).
      pose proof (mult_nonneg R (length (nodes h))).
      pose proof (delta_nonneg (left n) (length (nodes h))).
      pose proof (delta_nonneg (right n) (length (nodes h))). lia.
  - intros q v Hv. rewrite Hpd. specialize (C2 _ _ Hv).
    rewrite cnt_cons in C2. lia.
  - intros y ny [[Hy Hlk]|[-> ->]]%lookup_snoc_cases.
    + destruct (C3 _ _ Hlk) as (V1 & V2 & V3).
      split_ands; [| |done]; (eapply valid_ext; [|done]);
        by eapply (Ext_alloc_node n h).
    + split_ands; [| |done]; (eapply valid_ext; [|done]);
        by eapply (Ext_alloc_node n h).
  - intros y. rewrite mult_cons, length_app. simpl. intros Hy.
    destruct (decide (length (nodes h) = y)); [lia|].
    assert (y < length (nodes h))%nat; [|lia]. apply Cr. rewrite !mult_cons.
    pose proof (delta_nonneg (left n) y).
    pose proof (delta_nonneg (right n) y). lia.
  - intros q Hq. apply Cp. rewrite cnt_cons.
    pose proof (deltan_nonneg (value n) q). lia.
  - intros y ny [[Hy Hlk]|[-> ->]]%lookup_snoc_cases; eauto.
Qed.

Lemma counted_decref_f fuel : forall p h u h' R Q recs,
  decref_f fuel p h = Some (u, h') -> wrapped h' = false ->
  counted h (p :: R) Q recs -> counted h' R Q recs.
Proof.
  induction fuel as [|f IH]; intros [a|] h u h' R Q recs H W' C;
    simpl in H; try done;
    try (injection H as _ <-; by eapply counted_equiv; [| |exact C]).
  apply bind_Some in H as (c & h1 & Hadd & H).
  destruct (nodes h !! a) as [n|] eqn:Hn;
    [|unfold add_node_ref in Hadd; by rewrite Hn in Hadd].
  destruct (c =? 0) eqn:Hc.
  - apply Z.eqb_eq in Hc. subst c.
    apply bind_Some in H as (n1 & h1' & Hld & H).
    unfold load_node in Hld.
    destruct (nodes h1 !! a) as [n1'|] eqn:Hn1; [|done].
    injection Hld as -> <-.
    apply bind_Some in H as (c2 & h2 & Hv & H).
    apply bind_Some in H as ([] & h3 & Hfrag & H).
    apply bind_Some in H as ([] & h4 & Hl & Hr).
    pose proof (Ext_decref_f _ _ _ _ _ Hr) as E4.
    pose proof (Ext_decref_f _ _ _ _ _ Hl) as E3.
    pose proof (Ext_release_last _ (key n1) _ _ _ _ Hfrag) as E2.
    pose proof (Ext_add_val_ref _ _ _ _ _ Hv) as E1.
    pose proof (ext_wrapped _ _ E4 W') as W4.
    pose proof (ext_wrapped _ _ E3 W4) as W3.
    pose proof (ext_wrapped _ _ E2 W3) as W2.
    pose proof (ext_wrapped _ _ E1 W2) as W1.
    pose proof (counted_kill _ _ _ _ _ _ _ Hadd W1 Hn C) as C1.
    destruct (add_node_ref_inv _ _ _ _ _ _ Hadd Hn W1) as (_ & _ & Hh1).
    assert (n1 = set_refCount n 0) as ->.
    { rewrite Hh1 in Hn1. simpl in Hn1.
      rewrite list_lookup_insert_eq in Hn1 by (by eapply lookup_lt_Some).
      by injection Hn1 as <-. }
    simpl in *.
    destruct (c_key _ _ _ _ C _ _ Hn) as (x & r & Hrec).
    pose proof (counted_val_drop _ _ _ _ _ _ _ _ _ _ _ _ Hv Hfrag W3 Hrec C1)
      as C3.
    pose proof (IH _ _ _ _ _ _ _ Hl W4 C3) as C4.
    exact (IH _ _ _ _ _ _ _ Hr W' C4).
  - apply Z.eqb_neq in Hc. injection H as _ <-.
    destruct (add_node_ref_inv _ _ _ _ _ _ Hadd Hn W') as (Hceq & _ & _).
    pose proof (c_rc _ _ _ _ C _ _ Hn) as Hrc. rewrite mult_cons in Hrc.
    simpl in Hrc. rewrite decide_True in Hrc by done.
    pose proof (mult_nonneg R a). pose proof (indeg_nonneg h a).
    eapply (counted_add_live a (-1)); [done..|lia|lia| |exact C].
    intros y. rewrite mult_cons. lia.
Qed.

(** ** Borrowed references

    A function borrows a pointer it is passed: the caller holds a reference
    in [R], or the pointer is reached from one, and the callee takes none
    away.  Reachability depends only on stored fields, so it survives every
    step. *)

Inductive reach (h : heap) (R : list (option nat)) : nat -> Prop :=
| reach_root a : 0 < mult R a -> reach h R a
| reach_left a n c :
    reach h R a -> nodes h !! a = Some n -> left n = Some c -> reach h R c
| reach_right a n c :
    reach h R a -> nodes h !! a = Some n -> right n = Some c -> reach h R c.

Definition reacho (h : heap) (R : list (option nat)) (p : option nat) : Prop :=
  match p with
  | Some a => reach h R a
  | None => True
  end.

Lemma reach_ext h h' R a : ext h h' -> reach h R a -> reach h' R a.
Proof.
  intros E. induction 1 as [a Ha|a n c _ IH Hn Hc|a n c _ IH Hn Hc].
  - by apply reach_root.
  - destruct (ext_lookup _ _ _ _ E Hn) as (n' & Hn' & (_ & _ & _ & Fl & _)).
    eapply reach_left; [done..|congruence].
  - destruct (ext_lookup _ _ _ _ E Hn) as (n' & Hn' & (_ & _ & _ & _ & Fr)).
    eapply reach_right; [done..|congruence].
Qed.

Lemma reach_mono h R R' a :
  (forall x, mult R x <= mult R' x) -> reach h R a -> reach h R' a.
Proof.
  intros HR. induction 1 as [a Ha|a n c _ IH Hn Hc|a n c _ IH Hn Hc].
  - apply reach_root. specialize (HR a). lia.
  - by eapply reach_left.
  - by eapply reach_right.
Qed.

Lemma reacho_ext h h' R p : ext h h' -> reacho h R p -> reacho h' R p.
Proof. destruct p; simpl; [apply reach_ext|done]. Qed.

Lemma reacho_mono h R R' p :
  (forall x, mult R x <= mult R' x) -> reacho h R p -> reacho h R' p.
Proof. destruct p; simpl; [apply reach_mono|done]. Qed.

Lemma reach_live h R Q recs a :
  counted h R Q recs -> reach h R a ->
  exists n, nodes h !! a = Some n /\ 0 < refCount n.
Proof.
  intros C. induction 1 as [a Ha|a n c _ IH Hn Hc|a n c _ IH Hn Hc].
  - destruct (lookup_lt_is_Some_2 _ _ (c_roots _ _ _ _ C _ Ha)) as [n Hn].
    exists n. split; [done|]. rewrite (c_rc _ _ _ _ C _ _ Hn).
    pose proof (indeg_nonneg h a). lia.
  - destruct IH as (n' & Hn' & Hl). rewrite Hn in Hn'. injection Hn' as <-.
    destruct (c_dom _ _ _ _ C _ _ Hn) as (Vd & _ & _). rewrite Hc in Vd.
    destruct (lookup_lt_is_Some_2 _ _ Vd) as [m Hm].
    exists m. split; [done|]. rewrite (c_rc _ _ _ _ C _ _ Hm).
    pose proof (mult_nonneg R c).
    pose proof (sumZ_lookup_le (edges c) _ _ _ (edges_nonneg c) Hn) as Hle.
    unfold edges at 1 in Hle. unfold live in Hle.
    rewrite (proj2 (Z.ltb_lt _ _) Hl), Hc in Hle. simpl in Hle.
    rewrite decide_True in Hle by done.
    pose proof (delta_nonneg (right n) c). unfold indeg. lia.
  - destruct IH as (n' & Hn' & Hl). rewrite Hn in Hn'. injection Hn' as <-.
    destruct (c_dom _ _ _ _ C _ _ Hn) as (_ & Vd & _). rewrite Hc in Vd.
    destruct (lookup_lt_is_Some_2 _ _ Vd) as [m Hm].
    exists m. split; [done|]. rewrite (c_rc _ _ _ _ C _ _ Hm).
    pose proof (mult_nonneg R c).
    pose proof (sumZ_lookup_le (edges c) _ _ _ (edges_nonneg c) Hn) as Hle.
    unfold edges at 1 in Hle. unfold live in Hle.
    rewrite (proj2 (Z.ltb_lt _ _) Hl), Hc in Hle. simpl in Hle.
    rewrite decide_True in Hle by done.
    pose proof (delta_nonneg (left n) c). unfold indeg. lia.
Qed.

(** A live node's payload is in use. *)
Lemma live_payload h R Q recs a n :
  counted h R Q recs -> nodes h !! a = Some n -> 0 < refCount n ->
  exists v, vals h !! value n = Some v /\ 0 < vRefCount v.
Proof.
  intros C Hn Hl.
  destruct (c_dom _ _ _ _ C _ _ Hn) as (_ & _ & Vd).
  destruct (lookup_lt_is_Some_2 _ _ Vd) as [v Hv].
  exists v. split; [done|]. rewrite (c_vrc _ _ _ _ C _ _ Hv).
  pose proof (cnt_nonneg Q (value n)).
  pose proof (sumZ_lookup_le (holds (value n)) _ _ _
                (holds_nonneg (value n)) Hn) as Hle.
  unfold holds at 1 in Hle. unfold live in Hle.
  rewrite (proj2 (Z.ltb_lt _ _) Hl) in Hle. unfold deltan in Hle.
  rewrite decide_True in Hle by done. unfold pdeg. lia.
Qed.

(** ** The invariant along each primitive *)

Lemma Inv_decref_f fuel p h u h' R Q recs :
  decref_f fuel p h = Some (u, h') ->
  Inv h (p :: R) Q recs -> Inv h' R Q recs.
Proof.
  intros H I W'. eapply counted_decref_f; [done..|].
  apply I. eapply ext_wrapped; [|done]. by eapply Ext_decref_f.
Qed.

Lemma Inv_decref p h u h' R Q recs :
  decref p h = Some (u, h') ->
  Inv h (p :: R) Q recs -> Inv h' R Q recs.
Proof. apply Inv_decref_f. Qed.

Lemma Inv_incref p h q h' R Q recs :
  incref p h = Some (q, h') -> reacho h R p ->
  Inv h R Q recs -> q = p /\ Inv h' (p :: R) Q recs.
Proof.
  destruct p as [a|]; simpl.
  - intros (c & h1 & Hadd & [= <- <-])%bind_Some Hr I. split; [done|].
    intros W'. pose proof (Ext_add_node_ref _ _ _ _ _ Hadd) as E.
    pose proof (I (ext_wrapped _ _ E W')) as C.
    destruct (reach_live _ _ _ _ _ C Hr) as (n & Hn & Hl).
    eapply (counted_add_live a 1); [done..|lia| |exact C].
    intros y. rewrite mult_cons. lia.
  - intros [= <- <-] _ I. split; [done|]. by eapply Inv_equiv; [| |exact I].
Qed.

(** The binding of a payload is known unless a counter wrapped. *)
Definition keyed (h : heap) (recs : list binding) (k : K) (p : nat) : Prop :=
  wrapped h = false -> exists x r, recs !! p = Some (k, x, r).

Lemma keyed_ext h h' recs k p :
  ext h h' -> keyed h recs k p -> keyed h' recs k p.
Proof. intros E Hk W'. apply Hk. by eapply ext_wrapped. Qed.

Lemma Inv_shallowCloneWithRef a h m h' R Q recs :
  shallowCloneWithRef a h = Some (m, h') -> reach h R a ->
  Inv h R Q recs ->
  Inv h' R (value m :: Q) recs /\ keyed h' recs (key m) (value m) /\
  exists n, nodes h !! a = Some n /\
    m = MapNode (key n) (value n) (weight n) 1 None None.
Proof.
  unfold shallowCloneWithRef.
  intros (n & h0 & Hld & (c & h1 & Hadd & [= <- <-])%bind_Some)%bind_Some Hr I.
  unfold load_node in Hld. destruct (nodes h !! a) as [n'|] eqn:Hn; [|done].
  injection Hld as -> <-. simpl.
  pose proof (Ext_add_val_ref _ _ _ _ _ Hadd) as E.
  split_ands.
  - intros W'. pose proof (I (ext_wrapped _ _ E W')) as C.
    destruct (reach_live _ _ _ _ _ C Hr) as (n' & Hn' & Hl).
    rewrite Hn in Hn'. injection Hn' as <-.
    destruct (live_payload _ _ _ _ _ _ C Hn Hl) as (v & Hv & Hvl).
    by eapply counted_val_incr.
  - intros W'. pose proof (I (ext_wrapped _ _ E W')) as C.
    by eapply (c_key _ _ _ _ C).
  - by exists n.
Qed.

Lemma Inv_alloc n h a h' R Q recs :
  alloc_node n h = Some (a, h') -> refCount n = 1 ->
  keyed h recs (key n) (value n) ->
  Inv h (left n :: right n :: R) (value n :: Q) recs ->
  a = length (nodes h) /\ nodes h' !! a = Some n /\
  Inv h' (Some a :: R) Q recs.
Proof.
  intros H Hrc Hk I. split_ands.
  - by injection H as <- _.
  - injection H as <- <-. simpl. by rewrite lookup_app_r, Nat.sub_diag.
  - intros W'. pose proof (Ext_alloc_node _ _ _ _ H) as E.
    pose proof (ext_wrapped _ _ E W') as W.
    destruct (Hk W) as (x & r & Hrec).
    eapply counted_alloc; eauto.
Qed.

(** ** Split *)

(** With [requireMid], a split that reports no [mid] reports nothing, and has
    touched nothing: the test comes before any clone or [incref]. *)
Lemma split_f_rm_nil k fuel : forall n h l r h',
  split_f fuel n k true h = Some ((l, None, r), h') ->
  l = None /\ r = None /\ h' = h.
Proof.
  induction fuel as [|f IH]; intros [a|] h l r h' H; simpl in H; try done;
    try (by injection H as <- <- <-).
  apply bind_Some in H as (nd & h0 & Hld & H).
  unfold load_node in Hld. destruct (nodes h !! a) as [nd'|]; [|done].
  injection Hld as -> <-.
  destruct (less (key nd) k); [|destruct (less k (key nd))].
  - apply bind_Some in H as ([[l0 m0] r0] & h1 & Hrec & H).
    destruct m0 as [ma|]; simpl in H.
    + apply bind_Some in H as (? & ? & _ & H).
      apply bind_Some in H as (? & ? & _ & H).
      apply bind_Some in H as (? & ? & _ & H). done.
    + injection H as <- <- <-. by destruct (IH _ _ _ _ _ Hrec) as (_ & _ & ->).
  - apply bind_Some in H as ([[l0 m0] r0] & h1 & Hrec & H).
    destruct m0 as [ma|]; simpl in H.
    + apply bind_Some in H as (? & ? & _ & H).
      apply bind_Some in H as (? & ? & _ & H).
      apply bind_Some in H as (? & ? & _ & H). done.
    + injection H as <- <- <-. by destruct (IH _ _ _ _ _ Hrec) as (_ & _ & ->).
  - apply bind_Some in H as (? & ? & _ & H).
    apply bind_Some in H as (? & ? & _ & H).
    apply bind_Some in H as (? & ? & _ & H).
    apply bind_Some in H as (? & ? & _ & H). done.
Qed.

Ltac mult_eq := intros ?; repeat rewrite mult_cons; simpl; lia.

Ltac cnt_eq := intros ?; repeat rewrite cnt_cons; simpl; lia.

Ltac mult_le :=
  intros ?; repeat rewrite mult_cons;
  repeat match goal with
         | |- context [delta ?p ?x] =>
             lazymatch goal with
             | H : 0 <= delta p x |- _ => fail
             | _ => pose proof (delta_nonneg p x)
             end
         end; lia.

Lemma reach_step h h' R R' a :
  reach h R a -> ext h h' -> (forall x, mult R x <= mult R' x) ->
  reach h' R' a.
Proof. intros Hr E HR. eapply reach_ext; [done|]. by eapply reach_mono. Qed.

Lemma reacho_step h h' R R' p :
  reacho h R p -> ext h h' -> (forall x, mult R x <= mult R' x) ->
  reacho h' R' p.
Proof. destruct p; simpl; [apply reach_step|done]. Qed.

Lemma reacho_left h R a n :
  reach h R a -> nodes h !! a = Some n -> reacho h R (left n).
Proof.
  intros Hr Hn. destruct (left n) eqn:E; simpl; [|done].
  by eapply reach_left.
Qed.

Lemma reacho_right h R a n :
  reach h R a -> nodes h !! a = Some n -> reacho h R (right n).
Proof.
  intros Hr Hn. destruct (right n) eqn:E; simpl; [|done].
  by eapply reach_right.
Qed.

Lemma Inv_split_f k rm fuel : forall n h l m r h' R Q recs,
  split_f fuel n k rm h = Some ((l, m, r), h') ->
  reacho h R n -> Inv h R Q recs ->
  Inv h' (l :: m :: r :: R) Q recs.
Proof.
  induction fuel as [|f IH]; intros [a|] h l m r h' R Q recs H Hr I;
    simpl in H; try done;
    try (injection H as <- <- <- <-; eapply Inv_equiv; [| |exact I];
         [mult_eq|cnt_eq]).
  simpl in Hr.
  apply bind_Some in H as (nd & h0 & Hld & H).
  unfold load_node in Hld. destruct (nodes h !! a) as [nd'|] eqn:Hn; [|done].
  injection Hld as -> <-.
  destruct (less (key nd) k); [|destruct (less k (key nd))].
  - apply bind_Some in H as ([[l0 m0] r0] & h1 & Hrec & H).
    pose proof (Ext_split_f _ _ _ _ _ _ _ Hrec) as E1.
    pose proof (IH _ _ _ _ _ _ _ _ _ Hrec (reacho_right _ _ _ _ Hr Hn) I) as I1.
    destruct (rm && is_nil m0) eqn:Erm.
    + injection H as <- <- <- <-.
      apply andb_true_iff in Erm as [-> Hm0]. destruct m0; [done|].
      destruct (split_f_rm_nil _ _ _ _ _ _ _ Hrec) as (-> & -> & ->). done.
    + apply bind_Some in H as (newN & h2 & Hcl & H).
      apply bind_Some in H as (nl & h3 & Hinc & H).
      apply bind_Some in H as (na & h4 & Hal & [= <- <- <- <-]).
      pose proof (Ext_shallowCloneWithRef _ _ _ _ Hcl) as E2.
      assert (reach h1 (l0 :: m0 :: r0 :: R) a) as Hr1
        by (eapply reach_step; [done|done|mult_le]).
      destruct (Inv_shallowCloneWithRef _ _ _ _ _ _ _ Hcl Hr1 I1)
        as (I2 & Hk & n1 & Hn1 & ->).
      destruct (ext_lookup _ _ _ _ E1 Hn) as (n1' & Hn1' & F1).
      rewrite Hn1 in Hn1'. injection Hn1' as <-.
      destruct F1 as (Fk & Fv & Fw & Fl & Fr).
      assert (reacho h2 (l0 :: m0 :: r0 :: R) (left nd)) as Hrl.
      { eapply reacho_step;
          [exact (reacho_left _ _ _ _ Hr Hn)|eauto using ext_trans|mult_le]. }
      destruct (Inv_incref _ _ _ _ _ _ _ Hinc Hrl I2) as (-> & I3).
      pose proof (Ext_incref _ _ _ _ Hinc) as E3.
      destruct (Inv_alloc _ _ _ _ (m0 :: r0 :: R) Q recs Hal eq_refl)
        as (_ & _ & I4); [by eapply keyed_ext|exact I3|exact I4].
  - apply bind_Some in H as ([[l0 m0] r0] & h1 & Hrec & H).
    pose proof (Ext_split_f _ _ _ _ _ _ _ Hrec) as E1.
    pose proof (IH _ _ _ _ _ _ _ _ _ Hrec (reacho_left _ _ _ _ Hr Hn) I) as I1.
    destruct (rm && is_nil m0) eqn:Erm.
    + injection H as <- <- <- <-.
      apply andb_true_iff in Erm as [-> Hm0]. destruct m0; [done|].
      destruct (split_f_rm_nil _ _ _ _ _ _ _ Hrec) as (-> & -> & ->). done.
    + apply bind_Some in H as (newN & h2 & Hcl & H).
      apply bind_Some in H as (nr & h3 & Hinc & H).
      apply bind_Some in H as (na & h4 & Hal & [= <- <- <- <-]).
      pose proof (Ext_shallowCloneWithRef _ _ _ _ Hcl) as E2.
      assert (reach h1 (l0 :: m0 :: r0 :: R) a) as Hr1
        by (eapply reach_step; [done|done|mult_le]).
      destruct (Inv_shallowCloneWithRef _ _ _ _ _ _ _ Hcl Hr1 I1)
        as (I2 & Hk & n1 & Hn1 & ->).
      destruct (ext_lookup _ _ _ _ E1 Hn) as (n1' & Hn1' & F1).
      rewrite Hn1 in Hn1'. injection Hn1' as <-.
      destruct F1 as (Fk & Fv & Fw & Fl & Fr).
      assert (reacho h2 (l0 :: m0 :: r0 :: R) (right nd)) as Hrl.
      { eapply reacho_step;
          [exact (reacho_right _ _ _ _ Hr Hn)|eauto using ext_trans|mult_le]. }
      destruct (Inv_incref _ _ _ _ _ _ _ Hinc Hrl I2) as (-> & I3).
      pose proof (Ext_incref _ _ _ _ Hinc) as E3.
      destruct (Inv_alloc _ _ _ _ (l0 :: m0 :: R) Q recs Hal eq_refl)
        as (_ & _ & I4); [by eapply keyed_ext| |].
      * simpl. eapply Inv_equiv; [| |exact I3]; [mult_eq|cnt_eq].
      * eapply Inv_equiv; [| |exact I4]; [mult_eq|cnt_eq].
  - apply bind_Some in H as (mN & h1 & Hcl & H).
    apply bind_Some in H as (ma & h2 & Hal & H).
    apply bind_Some in H as (l1 & h3 & Hil & H).
    apply bind_Some in H as (r1 & h4 & Hir & [= <- <- <- <-]).
    destruct (Inv_shallowCloneWithRef _ _ _ _ _ _ _ Hcl Hr I)
      as (I1 & Hk & n1 & Hn1 & ->).
    rewrite Hn in Hn1. injection Hn1 as <-.
    pose proof (Ext_shallowCloneWithRef _ _ _ _ Hcl) as E1.
    pose proof (Ext_alloc_node _ _ _ _ Hal) as E2.
    destruct (Inv_alloc _ _ _ _ R Q recs Hal eq_refl)
      as (_ & _ & I2); [done| |].
    { simpl. eapply Inv_equiv; [| |exact I1]; [mult_eq|cnt_eq]. }
    assert (ext h h2) as E02 by (by eapply ext_trans).
    assert (reacho h2 (Some ma :: R) (left nd)) as Hrl.
    { eapply reacho_step; [exact (reacho_left _ _ _ _ Hr Hn)|done|mult_le]. }
    destruct (Inv_incref _ _ _ _ _ _ _ Hil Hrl I2) as (-> & I3).
    pose proof (Ext_incref _ _ _ _ Hil) as E3.
    assert (reacho h3 (left nd :: Some ma :: R) (right nd)) as Hrr.
    { eapply reacho_step;
        [exact (reacho_right _ _ _ _ Hr Hn)|eauto using ext_trans|mult_le]. }
    destruct (Inv_incref _ _ _ _ _ _ _ Hir Hrr I3) as (-> & I4).
    eapply Inv_equiv; [| |exact I4]; [mult_eq|cnt_eq].
Qed.

Lemma Inv_split n k rm h l m r h' R Q recs :
  split n k rm h = Some ((l, m, r), h') ->
  reacho h R n -> Inv h R Q recs ->
  Inv h' (l :: m :: r :: R) Q recs.
Proof. apply Inv_split_f. Qed.

(** ** Merge *)

Lemma Inv_merge_f fuel : forall l r h res h' R Q recs,
  merge_f fuel l r h = Some (res, h') ->
  reacho h R l -> reacho h R r -> Inv h R Q recs ->
  Inv h' (res :: R) Q recs.
Proof.
  induction fuel as [|f IH]; intros l r h res h' R Q recs H Hl Hr I;
    (destruct l as [la|]; [destruct r as [ra|]|];
     [|rewrite merge_f_nil_r in H;
       by destruct (Inv_incref _ _ _ _ _ _ _ H Hl I) as (-> & I1)
      |rewrite merge_f_nil_l in H;
       by destruct (Inv_incref _ _ _ _ _ _ _ H Hr I) as (-> & I1)]).
  - done.
  - simpl in H.
    simpl in Hl, Hr.
    apply bind_Some in H as (ln & h0 & Hld & H).
    unfold load_node in Hld.
    destruct (nodes h !! la) as [ln'|] eqn:Hln; [|done].
    injection Hld as -> <-.
    apply bind_Some in H as (rn & h0 & Hld & H).
    unfold load_node in Hld.
    destruct (nodes h !! ra) as [rn'|] eqn:Hrn; [|done].
    injection Hld as -> <-.
    destruct (weight rn <? weight ln).
    + apply bind_Some in H as (rt & h1 & Hcl & H).
      apply bind_Some in H as (ll & h2 & Hinc & H).
      apply bind_Some in H as (m & h3 & Hm & H).
      apply bind_Some in H as (a & h4 & Hal & [= <- <-]).
      destruct (Inv_shallowCloneWithRef _ _ _ _ _ _ _ Hcl Hl I)
        as (I1 & Hk & n1 & Hn1 & ->).
      rewrite Hln in Hn1. injection Hn1 as <-.
      pose proof (Ext_shallowCloneWithRef _ _ _ _ Hcl) as E1.
      assert (reacho h1 R (left ln)) as Hrl.
      { eapply reacho_ext; [done|]. exact (reacho_left _ _ _ _ Hl Hln). }
      destruct (Inv_incref _ _ _ _ _ _ _ Hinc Hrl I1) as (-> & I2).
      pose proof (Ext_incref _ _ _ _ Hinc) as E2.
      assert (ext h h2) as E02 by (by eapply ext_trans).
      assert (reacho h2 (left ln :: R) (right ln)) as Hrr.
      { eapply reacho_step; [exact (reacho_right _ _ _ _ Hl Hln)|done|mult_le]. }
      assert (reacho h2 (left ln :: R) (Some ra)) as Hrs.
      { simpl. eapply reach_step; [exact Hr|done|mult_le]. }
      pose proof (IH _ _ _ _ _ _ _ _ Hm Hrr Hrs I2) as I3.
      pose proof (Ext_merge_f _ _ _ _ _ _ Hm) as E3.
      destruct (Inv_alloc _ _ _ _ R Q recs Hal eq_refl) as (_ & _ & I4);
        [eauto using keyed_ext, ext_trans| |done].
      simpl. eapply Inv_equiv; [| |exact I3]; [mult_eq|cnt_eq].
    + apply bind_Some in H as (rt & h1 & Hcl & H).
      apply bind_Some in H as (m & h2 & Hm & H).
      apply bind_Some in H as (rr & h3 & Hinc & H).
      apply bind_Some in H as (a & h4 & Hal & [= <- <-]).
      destruct (Inv_shallowCloneWithRef _ _ _ _ _ _ _ Hcl Hr I)
        as (I1 & Hk & n1 & Hn1 & ->).
      rewrite Hrn in Hn1. injection Hn1 as <-.
      pose proof (Ext_shallowCloneWithRef _ _ _ _ Hcl) as E1.
      assert (reacho h1 R (Some la)) as Hrl.
      { simpl. by eapply reach_ext. }
      assert (reacho h1 R (left rn)) as Hrr.
      { eapply reacho_ext; [done|]. exact (reacho_left _ _ _ _ Hr Hrn). }
      pose proof (IH _ _ _ _ _ _ _ _ Hm Hrl Hrr I1) as I2.
      pose proof (Ext_merge_f _ _ _ _ _ _ Hm) as E2.
      assert (ext h h2) as E02 by (by eapply ext_trans).
      assert (reacho h2 (m :: R) (right rn)) as Hrr2.
      { eapply reacho_step; [exact (reacho_right _ _ _ _ Hr Hrn)|done|mult_le]. }
      destruct (Inv_incref _ _ _ _ _ _ _ Hinc Hrr2 I2) as (-> & I3).
      pose proof (Ext_incref _ _ _ _ Hinc) as E3.
      destruct (Inv_alloc _ _ _ _ R Q recs Hal eq_refl) as (_ & _ & I4);
        [eauto using keyed_ext, ext_trans| |done].
      simpl. eapply Inv_equiv; [| |exact I3]; [mult_eq|cnt_eq].
Qed.

Lemma Inv_merge l r h res h' R Q recs :
  merge l r h = Some (res, h') ->
  reacho h R l -> reacho h R r -> Inv h R Q recs ->
  Inv h' (res :: R) Q recs.
Proof. apply Inv_merge_f. Qed.

(** ** Union *)

Section UnionInv.

Variable rec : option nat -> option nat -> bool -> M (option nat).
Hypothesis rec_inv : forall a b ow h res h' R Q recs,
  rec a b ow h = Some (res, h') ->
  reacho h R a -> reacho h R b -> Inv h R Q recs ->
  Inv h' (res :: R) Q recs.
Hypothesis rec_ext : forall a b ow, Ext (rec a b ow).

Lemma Inv_union_body fa fn sa ow h res h' R Q recs :
  union_body rec fa fn sa ow h = Some (res, h') ->
  nodes h !! fa = Some fn -> reach h R fa -> reach h R sa ->
  Inv h R Q recs ->
  Inv h' (res :: R) Q recs.
Proof.
  unfold union_body. intros H Hn Hf Hs I.
  apply bind_Some in H as ([[l mid] r] & h1 & Hsp & H).
  apply bind_Some in H as (result & h2 & Hcl & H).
  apply bind_Some in H as (ul & h3 & Hul & H).
  apply bind_Some in H as (ur & h4 & Hur & H).
  apply bind_Some in H as ([] & h5 & Hd1 & H).
  apply bind_Some in H as ([] & h6 & Hd2 & H).
  apply bind_Some in H as ([] & h7 & Hd3 & H).
  apply bind_Some in H as (a & h8 & Hal & [= <- <-]).
  pose proof (Ext_split _ _ _ _ _ _ Hsp) as E1.
  pose proof (Inv_split _ _ _ _ _ _ _ _ _ _ _ Hsp Hs I) as I1.
  set (R1 := l :: mid :: r :: R) in *.
  assert (forall x, mult R x <= mult R1 x) as HR1 by (unfold R1; mult_le).
  assert (exists src, shallowCloneWithRef src h1 = Some (result, h2) /\
                      reach h1 R1 src) as (src & Hcl' & Hsrc).
  { assert (reach h1 R1 fa) by (by eapply reach_step).
    destruct mid as [ma|]; [destruct ow|]; eauto.
    exists ma. split; [done|]. apply reach_root. unfold R1.
    rewrite !mult_cons. simpl. rewrite decide_True by done.
    pose proof (delta_nonneg l ma). pose proof (delta_nonneg r ma).
    pose proof (mult_nonneg R ma). lia. }
  clear Hcl.
  destruct (Inv_shallowCloneWithRef _ _ _ _ _ _ _ Hcl' Hsrc I1)
    as (I2 & Hk & nsrc & Hnsrc & ->).
  pose proof (Ext_shallowCloneWithRef _ _ _ _ Hcl') as E2.
  simpl in *.
  assert (ext h h2) as E02 by (by eapply ext_trans).
  assert (reacho h2 R1 (left fn)) as Hrl.
  { eapply reacho_step; [exact (reacho_left _ _ _ _ Hf Hn)|done|done]. }
  assert (reacho h2 R1 l) as Hl.
  { destruct l as [la|]; [|done]. apply reach_root. unfold R1.
    rewrite !mult_cons. simpl. rewrite decide_True by done.
    pose proof (delta_nonneg mid la). pose proof (delta_nonneg r la).
    pose proof (mult_nonneg R la). lia. }
  pose proof (rec_inv _ _ _ _ _ _ _ _ _ Hul Hrl Hl I2) as I3.
  pose proof (rec_ext _ _ _ _ _ _ Hul) as E3.
  assert (ext h h3) as E03 by (by eapply ext_trans).
  assert (reacho h3 (ul :: R1) (right fn)) as Hrr.
  { eapply reacho_step; [exact (reacho_right _ _ _ _ Hf Hn)|done|].
    intros x. rewrite mult_cons. specialize (HR1 x).
    pose proof (delta_nonneg ul x). lia. }
  assert (reacho h3 (ul :: R1) r) as Hr.
  { destruct r as [ra|]; [|done]. apply reach_root. unfold R1.
    rewrite !mult_cons. simpl. rewrite decide_True by done.
    pose proof (delta_nonneg mid ra). pose proof (delta_nonneg l ra).
    pose proof (delta_nonneg ul ra).
    pose proof (mult_nonneg R ra). lia. }
  pose proof (rec_inv _ _ _ _ _ _ _ _ _ Hur Hrr Hr I3) as I4.
  pose proof (rec_ext _ _ _ _ _ _ Hur) as E4.
  assert (Inv h4 (l :: mid :: r :: ul :: ur :: R)
              (value nsrc :: Q) recs) as I4'.
  { eapply Inv_equiv; [| |exact I4]; [unfold R1; mult_eq|cnt_eq]. }
  pose proof (Inv_decref _ _ _ _ _ _ _ Hd1 I4') as I5.
  pose proof (Inv_decref _ _ _ _ _ _ _ Hd2 I5) as I6.
  pose proof (Inv_decref _ _ _ _ _ _ _ Hd3 I6) as I7.
  pose proof (Ext_decref _ _ _ _ Hd1) as E5.
  pose proof (Ext_decref _ _ _ _ Hd2) as E6.
  pose proof (Ext_decref _ _ _ _ Hd3) as E7.
  destruct (Inv_alloc _ _ _ _ R Q recs Hal eq_refl) as (_ & _ & I8);
    [|exact I7|exact I8].
  simpl. eauto 10 using keyed_ext, ext_trans.
Qed.

End UnionInv.

Lemma Inv_union_f fuel : forall a b ow h res h' R Q recs,
  union_f fuel a b ow h = Some (res, h') ->
  reacho h R a -> reacho h R b -> Inv h R Q recs ->
  Inv h' (res :: R) Q recs.
Proof.
  induction fuel as [|f IH]; intros a b ow h res h' R Q recs H Ha Hb I;
    (destruct a as [fa|]; [destruct b as [sa|]|];
     [|rewrite union_f_nil_r in H;
       by destruct (Inv_incref _ _ _ _ _ _ _ H Ha I) as (-> & I1)
      |rewrite union_f_nil_l in H;
       by destruct (Inv_incref _ _ _ _ _ _ _ H Hb I) as (-> & I1)]).
  - done.
  - simpl in H, Ha, Hb.
    apply bind_Some in H as (fn & h0 & Hld & H).
    unfold load_node in Hld.
    destruct (nodes h !! fa) as [fn'|] eqn:Hfn; [|done].
    injection Hld as -> <-.
    apply bind_Some in H as (sn & h0 & Hld & H).
    unfold load_node in Hld.
    destruct (nodes h !! sa) as [sn'|] eqn:Hsn; [|done].
    injection Hld as -> <-.
    destruct (weight fn <? weight sn).
    + eapply (Inv_union_body (union_f f)); eauto using Ext_union_f.
    + eapply (Inv_union_body (union_f f)); eauto using Ext_union_f.
Qed.

Lemma Inv_union a b ow h res h' R Q recs :
  union a b ow h = Some (res, h') ->
  reacho h R a -> reacho h R b -> Inv h R Q recs ->
  Inv h' (res :: R) Q recs.
Proof. apply Inv_union_f. Qed.

(** ** A new binding *)

Lemma counted_alloc_val k v rel h p h' R Q recs :
  alloc_val (RefValue 1 (Some v) rel) h = Some (p, h') ->
  counted h R Q recs ->
  p = length (vals h) /\ counted h' R (p :: Q) (recs ++ [(k, v, rel)]).
Proof.
  intros [= <- <-] C. split; [done|].
  pose proof C as [C1 C2 C3 Cr Cp C4 C5 C6 C7 C8].
  split; simpl; try done.
  - intros q u [[Hq Hu]|[-> ->]]%lookup_snoc_cases; simpl.
    + rewrite cnt_cons. unfold deltan. rewrite decide_False by lia.
      specialize (C2 _ _ Hu). unfold pdeg in *. simpl. lia.
    + rewrite cnt_cons. unfold deltan. rewrite decide_True by done.
      pose proof (cnt_fresh _ _ _ _ (length (vals h)) C (le_n _)).
      pose proof (pdeg_fresh _ _ _ _ (length (vals h)) C (le_n _)).
      unfold pdeg in *. simpl. lia.
  - intros a n Hn. destruct (C3 _ _ Hn) as (V1 & V2 & V3).
    split_ands; [done..|]. rewrite length_app. simpl. lia.
  - intros q. rewrite cnt_cons, length_app. simpl. intros Hq.
    pose proof (deltan_nonneg (length (vals h)) q).
    destruct (Z_lt_dec 0 (deltan (length (vals h)) q)) as [Hd|Hd].
    + apply deltan_pos_inv in Hd. lia.
    + assert (q < length (vals h))%nat; [apply Cp|]; lia.
  - rewrite !length_app. simpl. lia.
  - intros q u k' x' r' [[Hq Hu]|[-> ->]]%lookup_snoc_cases Hr'.
    + rewrite lookup_app_l in Hr' by lia. by eapply C5.
    + rewrite lookup_app_r, C4, Nat.sub_diag in Hr' by lia.
      by injection Hr' as <- <- <-.
  - intros a n Hn. destruct (C6 _ _ Hn) as (x & r & Hr).
    exists x, r. by apply lookup_app_l_Some.
  - intros e. rewrite C8. split; intros (u & Hu & Hz & Hr).
    + exists u. split_ands; [|done|]; by apply lookup_app_l_Some.
    + apply lookup_snoc_cases in Hu as [[Hq Hu]|[_ ->]]; [|done].
      exists u. split_ands; [done..|].
      by rewrite lookup_app_l in Hr by lia.
Qed.

Lemma Inv_newNodeWithRef k v rel w h a h' R Q recs :
  newNodeWithRef k v rel w h = Some (a, h') ->
  Inv h R Q recs ->
  Inv h' (Some a :: R) Q (recs ++ [(k, v, rel)]) /\
  nodes h' !! a = Some (MapNode k (length (vals h)) w 1 None None) /\
  (wrapped h' = false -> length recs = length (vals h)).
Proof.
  unfold newNodeWithRef.
  intros (p & h1 & Hp & Hal)%bind_Some I.
  pose proof (Ext_alloc_val _ _ _ _ Hp) as E1.
  pose proof (Ext_alloc_node _ _ _ _ Hal) as E2.
  assert (p = length (vals h)) as -> by (by injection Hp as <- _).
  split_ands.
  - intros W'.
    pose proof (ext_wrapped _ _ E2 W') as W1.
    pose proof (I (ext_wrapped _ _ E1 W1)) as C.
    destruct (counted_alloc_val k _ _ _ _ _ _ _ _ Hp C) as (_ & C1).
    eapply counted_alloc; [done|done| |].
    + simpl. rewrite lookup_app_r by (rewrite (c_len _ _ _ _ C); lia).
      by rewrite (c_len _ _ _ _ C), Nat.sub_diag.
    + simpl. eapply counted_equiv; [| |exact C1]; [mult_eq|cnt_eq].
  - injection Hal as <- <-. injection Hp as <-. simpl.
    by rewrite lookup_app_r, Nat.sub_diag.
  - intros W'. pose proof (ext_wrapped _ _ E2 W') as W1.
    exact (c_len _ _ _ _ (I (ext_wrapped _ _ E1 W1))).
Qed.

(** * Trees as maps

    From here on the client ordering is a strict weak order, as the contract
    of [Orderable] asks. *)

Record StrictWeakOrder : Prop := MkSWO {
  swo_irrefl : forall x, less x x = false;
  swo_trans : forall x y z, less x y = true -> less y z = true ->
                less x z = true;
  swo_incomp : forall x y z,
    less x y = false -> less y x = false ->
    less y z = false -> less z y = false ->
    less x z = false /\ less z x = false
}.

(** Derived equality of keys. *)
Definition equiv (x y : K) : Prop := less x y = false /\ less y x = false.

Fixpoint keys (t : tree) : list K :=
  match t with
  | Leaf => []
  | Node l k _ _ r => keys l ++ k :: keys r
  end.

Fixpoint items (t : tree) : list (K * nat) :=
  match t with
  | Leaf => []
  | Node l k p _ r => items l ++ (k, p) :: items r
  end.

Fixpoint bst (t : tree) : Prop :=
  match t with
  | Leaf => True
  | Node l k _ _ r =>
      bst l /\ bst r /\
      (forall x, x ∈ keys l -> less x k = true) /\
      (forall x, x ∈ keys r -> less k x = true)
  end.

Definition wbound (b : Z) (t : tree) : Prop :=
  match t with
  | Leaf => True
  | Node _ _ _ w _ => w <= b
  end.

Fixpoint heap_ord (t : tree) : Prop :=
  match t with
  | Leaf => True
  | Node l _ _ w r => heap_ord l /\ heap_ord r /\ wbound w l /\ wbound w r
  end.

Definition treap (t : tree) : Prop := bst t /\ heap_ord t.

(** What [Get] finds: the payload at the end of its descent. *)
Fixpoint pget (t : tree) (k : K) : option nat :=
  match t with
  | Leaf => None
  | Node l k' p _ r =>
      if less k k' then pget l k
      else if less k' k then pget r k
      else Some p
  end.

Section Order.

Hypothesis SWO : StrictWeakOrder.

Lemma less_asym x y : less x y = true -> less y x = false.
Proof.
  intros Hxy. destruct (less y x) eqn:Hyx; [|done].
  pose proof (swo_trans SWO _ _ _ Hxy Hyx) as H.
  by rewrite (swo_irrefl SWO) in H.
Qed.

Lemma equiv_sym x y : equiv x y -> equiv y x.
Proof. by intros [? ?]. Qed.

Lemma equiv_refl x : equiv x x.
Proof. split; apply (swo_irrefl SWO). Qed.

Lemma equiv_trans x y z : equiv x y -> equiv y z -> equiv x z.
Proof. intros [? ?] [? ?]. by eapply (swo_incomp SWO). Qed.

Lemma less_equiv_l x y z : equiv x y -> less y z = true -> less x z = true.
Proof.
  intros [Hxy Hyx] Hyz. destruct (less x z) eqn:Hxz; [done|].
  destruct (less z x) eqn:Hzx.
  - pose proof (swo_trans SWO _ _ _ Hyz Hzx). congruence.
  - destruct (swo_incomp SWO y x z); congruence.
Qed.

Lemma less_equiv_r x y z : equiv y z -> less x y = true -> less x z = true.
Proof.
  intros [Hyz Hzy] Hxy. destruct (less x z) eqn:Hxz; [done|].
  destruct (less z x) eqn:Hzx.
  - pose proof (swo_trans SWO _ _ _ Hzx Hxy). congruence.
  - destruct (swo_incomp SWO x z y); congruence.
Qed.

Lemma less_equiv_l_eq x y z : equiv x y -> less x z = less y z.
Proof.
  intros E. destruct (less y z) eqn:H.
  - by eapply less_equiv_l.
  - destruct (less x z) eqn:H'; [|done].
    pose proof (less_equiv_l _ _ _ (equiv_sym _ _ E) H'). congruence.
Qed.

Lemma less_equiv_r_eq x y z : equiv y z -> less x y = less x z.
Proof.
  intros E. destruct (less x z) eqn:H.
  - eapply less_equiv_r; [|done]. by apply equiv_sym.
  - destruct (less x y) eqn:H'; [|done].
    pose proof (less_equiv_r _ _ _ E H'). congruence.
Qed.

(** ** Split *)

Lemma psplit_items t k :
  items t = items (psplit t k).1.1 ++ items (psplit t k).1.2
            ++ items (psplit t k).2.
Proof.
  induction t as [|l IHl k' p w r IHr]; simpl; [done|].
  destruct (less k' k); [|destruct (less k k')].
  - destruct (psplit r k) as [[a m] b]. simpl in *.
    rewrite IHr. by rewrite <- !app_assoc.
  - destruct (psplit l k) as [[a m] b]. simpl in *.
    rewrite IHl. by rewrite <- !app_assoc.
  - done.
Qed.

Lemma keys_items t : keys t = (items t).*1.
Proof.
  induction t as [|l IHl k' p w r IHr]; simpl; [done|].
  by rewrite fmap_app, IHl, IHr.
Qed.

Lemma psplit_keys t k :
  keys t = keys (psplit t k).1.1 ++ keys (psplit t k).1.2
           ++ keys (psplit t k).2.
Proof. by rewrite !keys_items, (psplit_items t k), !fmap_app. Qed.

Lemma psplit_mid t k :
  (psplit t k).1.2 = Leaf \/
  exists k' p w, (psplit t k).1.2 = Node Leaf k' p w Leaf /\ equiv k' k.
Proof.
  induction t as [|l IHl k' p w r IHr]; simpl; [by left|].
  destruct (less k' k) eqn:H1; [|destruct (less k k') eqn:H2].
  - by destruct (psplit r k) as [[a m] b].
  - by destruct (psplit l k) as [[a m] b].
  - right. by exists k', p, w.
Qed.

Lemma psplit_bounds t k :
  bst t ->
  (forall x, x ∈ keys (psplit t k).1.1 -> less x k = true) /\
  (forall x, x ∈ keys (psplit t k).2 -> less k x = true).
Proof.
  induction t as [|l IHl k' p w r IHr]; simpl.
  { intros _. split; intros x Hx; by apply not_elem_of_nil in Hx. }
  intros (Bl & Br & Hl & Hr).
  destruct (less k' k) eqn:H1; [|destruct (less k k') eqn:H2].
  - destruct (IHr Br) as [I1 I2].
    destruct (psplit r k) as [[a m] b]. simpl in *. split; [|done].
    intros x [Hx|[->|Hx]%elem_of_cons]%elem_of_app; [|done|by auto].
    eapply (swo_trans SWO); [|done]. by apply Hl.
  - destruct (IHl Bl) as [I1 I2].
    destruct (psplit l k) as [[a m] b]. simpl in *. split; [done|].
    intros x [Hx|[->|Hx]%elem_of_cons]%elem_of_app; [by auto|done|].
    eapply (swo_trans SWO); [done|]. by apply Hr.
  - simpl. split; intros x Hx.
    + eapply less_equiv_r; [|by apply Hl]. by split.
    + eapply less_equiv_l; [|by apply Hr]. by split.
Qed.

Lemma psplit_bst t k :
  bst t ->
  bst (psplit t k).1.1 /\ bst (psplit t k).1.2 /\ bst (psplit t k).2.
Proof.
  induction t as [|l IHl k' p w r IHr]; simpl; [done|].
  intros (Bl & Br & Hl & Hr).
  destruct (less k' k) eqn:H1; [|destruct (less k k') eqn:H2].
  - destruct (IHr Br) as (I1 & I2 & I3).
    pose proof (psplit_keys r k) as Hk.
    destruct (psplit r k) as [[a m] b]. simpl in *.
    split_ands; try done.
    intros x Hx. apply Hr. rewrite Hk. apply elem_of_app. by left.
  - destruct (IHl Bl) as (I1 & I2 & I3).
    pose proof (psplit_keys l k) as Hk.
    destruct (psplit l k) as [[a m] b]. simpl in *.
    split_ands; try done.
    intros x Hx. apply Hl. rewrite Hk. rewrite !elem_of_app. auto.
  - simpl. split_ands; try done; intros x Hx; by apply not_elem_of_nil in Hx.
Qed.

Lemma pget_psplit t k x :
  pget t x =
  if less x k then pget (psplit t k).1.1 x
  else if less k x then pget (psplit t k).2 x
  else pget (psplit t k).1.2 x.
Proof.
  induction t as [|l IHl k' p w r IHr]; simpl.
  { by destruct (less x k), (less k x). }
  destruct (less k' k) eqn:H1; [|destruct (less k k') eqn:H2].
  - destruct (psplit r k) as [[a m] b]. simpl in *.
    destruct (less x k) eqn:Hxk; [|destruct (less k x) eqn:Hkx].
    + destruct (less x k'); [done|]. by destruct (less k' x).
    + rewrite (less_asym k' x), (swo_trans SWO _ _ _ H1 Hkx); [done|].
      by eapply (swo_trans SWO).
    + assert (less k' x = true) as Hk'x
        by (eapply less_equiv_r; [|done]; by split).
      by rewrite (less_asym _ _ Hk'x), Hk'x.
  - destruct (psplit l k) as [[a m] b]. simpl in *.
    destruct (less x k) eqn:Hxk; [|destruct (less k x) eqn:Hkx].
    + by rewrite (swo_trans SWO _ _ _ Hxk H2).
    + destruct (less x k'); [done|]. by destruct (less k' x).
    + assert (less x k' = true) as Hxk'
        by (eapply less_equiv_l; [|done]; by split).
      by rewrite Hxk'.
  - simpl. destruct (less x k) eqn:Hxk; [|destruct (less k x) eqn:Hkx].
    + assert (less x k' = true) as ->; [|done].
      eapply less_equiv_r; [|done]. by split.
    + assert (less k' x = true) as Hk'x.
      { eapply less_equiv_l; [|done]. by split. }
      by rewrite (less_asym _ _ Hk'x), Hk'x.
    + assert (equiv x k') as [-> ->]; [|done].
      by apply (equiv_trans x k k').
Qed.

Lemma wbound_mono b c t : b <= c -> wbound b t -> wbound c t.
Proof. destruct t; simpl; [done|lia]. Qed.

Lemma psplit_heap t k :
  heap_ord t ->
  (heap_ord (psplit t k).1.1 /\ heap_ord (psplit t k).1.2 /\
   heap_ord (psplit t k).2) /\
  forall b, wbound b t ->
    wbound b (psplit t k).1.1 /\ wbound b (psplit t k).1.2 /\
    wbound b (psplit t k).2.
Proof.
  induction t as [|l IHl k' p w r IHr]; simpl; [done|].
  intros (Hl & Hr & Wl & Wr).
  destruct (less k' k) eqn:H1; [|destruct (less k k') eqn:H2].
  - destruct (IHr Hr) as ((I1 & I2 & I3) & I4).
    destruct (I4 _ Wr) as (J1 & J2 & J3).
    destruct (psplit r k) as [[a m] b]. simpl in *.
    split; [done|]. intros c Hc.
    destruct (I4 c (wbound_mono _ _ _ Hc Wr)) as (? & ? & ?). done.
  - destruct (IHl Hl) as ((I1 & I2 & I3) & I4).
    destruct (I4 _ Wl) as (J1 & J2 & J3).
    destruct (psplit l k) as [[a m] b]. simpl in *.
    split; [done|]. intros c Hc.
    destruct (I4 c (wbound_mono _ _ _ Hc Wl)) as (? & ? & ?). done.
  - simpl. split; [done|]. intros c Hc.
    split_ands; [by eapply wbound_mono|done|by eapply wbound_mono].
Qed.

(** ** Merge *)

Lemma pmerge_items l : forall r, items (pmerge l r) = items l ++ items r.
Proof.
  induction l as [|ll IHll lk lp lw lr IHlr]; intros r.
  { by rewrite pmerge_Leaf_l. }
  induction r as [|rl IHrl rk rp rw rr IHrr].
  { by rewrite pmerge_Leaf_r, app_nil_r. }
  rewrite pmerge_node. destruct (rw <? lw); cbn [items app].
  - rewrite IHlr. cbn [items]. by rewrite <- app_assoc.
  - rewrite IHrl. cbn [items]. by rewrite <- app_assoc.
Qed.

Lemma pmerge_keys l r : keys (pmerge l r) = keys l ++ keys r.
Proof. by rewrite !keys_items, pmerge_items, fmap_app. Qed.

Lemma pmerge_bst l : forall r,
  bst l -> bst r ->
  (forall x y, x ∈ keys l -> y ∈ keys r -> less x y = true) ->
  bst (pmerge l r).
Proof.
  induction l as [|ll IHll lk lp lw lr IHlr]; intros r.
  { by rewrite pmerge_Leaf_l. }
  induction r as [|rl IHrl rk rp rw rr IHrr].
  { by rewrite pmerge_Leaf_r. }
  intros Bl Br Hlr. rewrite pmerge_node.
  pose proof Bl as (Bll & Blr & Hll & Hlr').
  pose proof Br as (Brl & Brr & Hrl & Hrr).
  destruct (rw <? lw); cbn [bst].
  - split_ands; try done.
    + apply IHlr; [done..|]. intros x y Hx Hy. apply Hlr; [|done].
      simpl. rewrite elem_of_app, elem_of_cons. auto.
    + intros x. rewrite pmerge_keys.
      intros [Hx|Hx]%elem_of_app; [by auto|].
      apply Hlr; [|done]. simpl. rewrite elem_of_app, elem_of_cons. auto.
  - split_ands; try done.
    + apply IHrl; [done..|]. intros x y Hx Hy. apply Hlr; [done|].
      simpl. rewrite elem_of_app. auto.
    + intros x. rewrite pmerge_keys.
      intros [Hx|Hx]%elem_of_app; [|by auto].
      apply Hlr; [done|]. simpl. rewrite elem_of_app, elem_of_cons. auto.
Qed.

Lemma pmerge_heap l : forall r,
  heap_ord l -> heap_ord r ->
  heap_ord (pmerge l r) /\
  forall b, wbound b l -> wbound b r -> wbound b (pmerge l r).
Proof.
  induction l as [|ll IHll lk lp lw lr IHlr]; intros r.
  { by rewrite pmerge_Leaf_l. }
  induction r as [|rl IHrl rk rp rw rr IHrr].
  { by rewrite pmerge_Leaf_r. }
  intros Hl Hr. rewrite pmerge_node.
  pose proof Hl as (Hll & Hlr & Wll & Wlr).
  pose proof Hr as (Hrl & Hrr & Wrl & Wrr).
  destruct (rw <? lw) eqn:Hw; cbn [heap_ord wbound].
  - apply Z.ltb_lt in Hw. destruct (IHlr _ Hlr Hr) as [I1 I2].
    split; [|done]. split_ands; try done. apply I2; [done|]. simpl. lia.
  - apply Z.ltb_ge in Hw. destruct (IHrl Hl Hrl) as [I1 I2].
    split; [|done]. split_ands; try done. by apply I2.
Qed.

(** ** Union *)

Lemma punion_f_elim (P : tree -> tree -> bool -> tree -> Prop) :
  (forall a b ow t, P b a (negb ow) t -> P a b ow t) ->
  (forall b ow, P Leaf b ow b) ->
  (forall a ow, P a Leaf ow a) ->
  (forall fl fk fp fw fr sec ow tl tr,
     wbound fw sec ->
     P fl (psplit sec fk).1.1 ow tl -> P fr (psplit sec fk).2 ow tr ->
     P (Node fl fk fp fw fr) sec ow
       (Node tl
          (match (psplit sec fk).1.2 with
           | Node _ mk _ _ _ => if ow then mk else fk
           | Leaf => fk
           end)
          (match (psplit sec fk).1.2 with
           | Node _ _ mp _ _ => if ow then mp else fp
           | Leaf => fp
           end) fw tr)) ->
  forall fuel a b ow, (height a + height b <= fuel)%nat ->
    P a b ow (punion_f fuel a b ow).
Proof.
  intros Hsym HL HR Hbody.
  induction fuel as [|f IH]; intros a b ow Hf.
  - destruct a; [rewrite punion_f_Leaf_l; apply HL|].
    destruct b; [rewrite punion_f_Leaf_r; apply HR|]. simpl in Hf. lia.
  - destruct a as [|fl fk fp fw fr]; [rewrite punion_f_Leaf_l; apply HL|].
    destruct b as [|sl sk sp sw sr]; [rewrite punion_f_Leaf_r; apply HR|].
    simpl punion_f. simpl in Hf.
    destruct (fw <? sw) eqn:Hw.
    + apply Hsym. apply Z.ltb_lt in Hw. unfold punion_body.
      pose proof (psplit_height (Node fl fk fp fw fr) sk) as (H1 & H2 & H3).
      pose proof (Hbody sl sk sp sw sr (Node fl fk fp fw fr) (negb ow)) as HB.
      destruct (psplit (Node fl fk fp fw fr) sk) as [[l m] r].
      simpl in H1, H2, H3. simpl in HB.
      assert ((match m with
               | Node _ mk mp _ _ => if negb ow then (mk, mp) else (sk, sp)
               | Leaf => (sk, sp)
               end) =
              (match m with
               | Node _ mk _ _ _ => if negb ow then mk else sk
               | Leaf => sk
               end,
               match m with
               | Node _ _ mp _ _ => if negb ow then mp else sp
               | Leaf => sp
               end)) as -> by (destruct m; [done|by destruct (negb ow)]).
      apply HB; [lia|apply IH; lia..].
    + apply Z.ltb_ge in Hw. unfold punion_body.
      pose proof (psplit_height (Node sl sk sp sw sr) fk) as (H1 & H2 & H3).
      pose proof (Hbody fl fk fp fw fr (Node sl sk sp sw sr) ow) as HB.
      destruct (psplit (Node sl sk sp sw sr) fk) as [[l m] r].
      simpl in H1, H2, H3. simpl in HB.
      assert ((match m with
               | Node _ mk mp _ _ => if ow then (mk, mp) else (fk, fp)
               | Leaf => (fk, fp)
               end) =
              (match m with
               | Node _ mk _ _ _ => if ow then mk else fk
               | Leaf => fk
               end,
               match m with
               | Node _ _ mp _ _ => if ow then mp else fp
               | Leaf => fp
               end)) as -> by (destruct m; [done|by destruct ow]).
      apply HB; [lia|apply IH; lia..].
Qed.

Lemma elem_of_keys x t : x ∈ keys t <-> exists p, (x, p) ∈ items t.
Proof.
  rewrite keys_items, list_elem_of_fmap. split.
  - intros ([k p] & -> & H). by exists p.
  - intros (p & H). by exists (x, p).
Qed.

Lemma psplit_items_elem t k kp :
  kp ∈ items t <->
  kp ∈ items (psplit t k).1.1 \/ kp ∈ items (psplit t k).1.2 \/
  kp ∈ items (psplit t k).2.
Proof. by rewrite (psplit_items t k), !elem_of_app. Qed.

Lemma punion_items fuel a b ow :
  (height a + height b <= fuel)%nat ->
  forall kp, kp ∈ items (punion_f fuel a b ow) ->
    kp ∈ items a \/ kp ∈ items b.
Proof.
  revert fuel a b ow.
  apply (punion_f_elim (fun a b ow t =>
    forall kp, kp ∈ items t -> kp ∈ items a \/ kp ∈ items b)).
  - intros a b ow t H kp Hkp. destruct (H kp Hkp); auto.
  - auto.
  - auto.
  - intros fl fk fp fw fr sec ow tl tr _ IHl IHr kp. cbn [items].
    rewrite !elem_of_app, !elem_of_cons.
    pose proof (psplit_items_elem sec fk) as Hs.
    intros [Hl|[->|Hr]].
    + destruct (IHl _ Hl) as [?|?]; [auto|]. right. apply Hs. auto.
    + destruct ((psplit sec fk).1.2) as [|ml mk mp mw mr]; [auto|].
      destruct ow; [|auto]. right. apply Hs. right. left. simpl.
      rewrite elem_of_app, elem_of_cons. auto.
    + destruct (IHr _ Hr) as [?|?]; [auto|]. right. apply Hs. auto.
Qed.

Lemma punion_keys fuel a b ow x :
  (height a + height b <= fuel)%nat ->
  x ∈ keys (punion_f fuel a b ow) -> x ∈ keys a \/ x ∈ keys b.
Proof.
  intros Hf Hx. apply elem_of_keys in Hx as (p & Hp).
  destruct (punion_items _ _ _ _ Hf _ Hp); [left|right];
    apply elem_of_keys; eauto.
Qed.

(** The key at the root of a union node is the heavier root's key, or one
    equal to it under the ordering. *)
Lemma union_root_key sec fk (ow : bool) :
  equiv (match (psplit sec fk).1.2 with
         | Node _ mk _ _ _ => if ow then mk else fk
         | Leaf => fk
         end) fk.
Proof.
  destruct (psplit_mid sec fk) as [->|(k' & p & w & -> & E)].
  - apply equiv_refl.
  - destruct ow; [done|apply equiv_refl].
Qed.

Lemma punion_bst fuel a b ow :
  (height a + height b <= fuel)%nat ->
  bst a -> bst b -> bst (punion_f fuel a b ow).
Proof.
  intros Hf.
  assert (forall fuel a b ow, (height a + height b <= fuel)%nat ->
    (forall x, x ∈ keys (punion_f fuel a b ow) -> x ∈ keys a \/ x ∈ keys b) /\
    (bst a -> bst b -> bst (punion_f fuel a b ow))) as H;
    [|by apply H].
  clear fuel a b ow Hf. apply (punion_f_elim (fun a b ow t =>
    (forall x, x ∈ keys t -> x ∈ keys a \/ x ∈ keys b) /\
    (bst a -> bst b -> bst t))).
  - intros a b ow t [H1 H2]. split; [|by auto].
    intros x Hx. destruct (H1 x Hx); auto.
  - auto.
  - auto.
  - intros fl fk fp fw fr sec ow tl tr _ [Kl Bl] [Kr Br].
    pose proof (union_root_key sec fk ow) as Hrk.
    pose proof (psplit_keys sec fk) as Hks.
    split.
    + intros x. cbn [keys]. rewrite !elem_of_app, !elem_of_cons.
      intros [Hl|[->|Hr]].
      * destruct (Kl _ Hl) as [?|Hx]; [auto|]. right. rewrite Hks.
        rewrite !elem_of_app. auto.
      * destruct (psplit_mid sec fk) as [Hm|(k' & p & w & Hm & E)];
          rewrite Hm in *; [auto|]. destruct ow; [|auto].
        right. rewrite Hks. simpl. rewrite !elem_of_app, elem_of_cons. auto.
      * destruct (Kr _ Hr) as [?|Hx]; [auto|]. right. rewrite Hks.
        rewrite !elem_of_app. auto.
    + intros (Bfl & Bfr & Hfl & Hfr) Bs.
      destruct (psplit_bst sec fk Bs) as (Bsl & _ & Bsr).
      destruct (psplit_bounds sec fk Bs) as (Hsl & Hsr).
      cbn [bst]. split_ands; [by apply Bl|by apply Br| |].
      * intros x Hx. eapply less_equiv_r; [by apply equiv_sym|].
        destruct (Kl _ Hx); auto.
      * intros x Hx. eapply less_equiv_l; [done|].
        destruct (Kr _ Hx); auto.
Qed.

Lemma punion_heap fuel a b ow :
  (height a + height b <= fuel)%nat ->
  heap_ord a -> heap_ord b ->
  heap_ord (punion_f fuel a b ow) /\
  forall c, wbound c a -> wbound c b -> wbound c (punion_f fuel a b ow).
Proof.
  revert fuel a b ow. apply (punion_f_elim (fun a b ow t =>
    heap_ord a -> heap_ord b ->
    heap_ord t /\ forall c, wbound c a -> wbound c b -> wbound c t)).
  - intros a b ow t H Ha Hb. destruct (H Hb Ha) as [H1 H2]. auto.
  - auto.
  - auto.
  - intros fl fk fp fw fr sec ow tl tr Hw IHl IHr (Hfl & Hfr & Wl & Wr) Hs.
    destruct (psplit_heap sec fk Hs) as ((S1 & S2 & S3) & S4).
    destruct (S4 _ Hw) as (W1 & W2 & W3).
    destruct (IHl Hfl S1) as [I1 I2]. destruct (IHr Hfr S3) as [J1 J2].
    cbn [heap_ord wbound]. split; [|done]. split_ands; auto.
Qed.

Definition por (a b : option nat) : option nat :=
  match a with
  | Some p => Some p
  | None => b
  end.

Lemma punion_pget fuel a b ow x :
  (height a + height b <= fuel)%nat ->
  pget (punion_f fuel a b ow) x =
  if ow then por (pget b x) (pget a x) else por (pget a x) (pget b x).
Proof.
  revert fuel a b ow. apply (punion_f_elim (fun a b ow t =>
    pget t x =
    if ow then por (pget b x) (pget a x) else por (pget a x) (pget b x))).
  - intros a b ow t H. rewrite H. by destruct ow.
  - intros b ow. simpl. destruct ow, (pget b x); done.
  - intros a ow. simpl. destruct ow, (pget a x); done.
  - intros fl fk fp fw fr sec ow tl tr _ IHl IHr.
    pose proof (union_root_key sec fk ow) as Hrk.
    rewrite (pget_psplit sec fk x).
    cbn [pget].
    rewrite (less_equiv_r_eq x _ fk Hrk), (less_equiv_l_eq _ fk x Hrk).
    destruct (less x fk) eqn:H1; [done|].
    destruct (less fk x) eqn:H2; [done|].
    destruct (psplit_mid sec fk) as [->|(k' & p & w & -> & [E1 E2])].
    + simpl. by destruct ow.
    + simpl.
      assert (equiv x k') as [-> ->]
        by (apply (equiv_trans x fk k'); by split).
      by destruct ow.
Qed.



(** ** Lookup *)

Lemma pget_Some_item t x p :
  pget t x = Some p -> exists k', (k', p) ∈ items t /\ equiv k' x.
Proof.
  induction t as [|l IHl k' q w r IHr]; simpl; [done|].
  destruct (less x k') eqn:H1; [|destruct (less k' x) eqn:H2].
  - intros (k0 & H & E)%IHl. exists k0. rewrite elem_of_app. auto.
  - intros (k0 & H & E)%IHr. exists k0.
    rewrite elem_of_app, elem_of_cons. auto.
  - intros [= <-]. exists k'. rewrite elem_of_app, elem_of_cons.
    split; [auto|by split].
Qed.

Lemma pget_None t x :
  (forall k', k' ∈ keys t -> ~ equiv k' x) -> pget t x = None.
Proof.
  intros H. destruct (pget t x) as [p|] eqn:E; [|done].
  destruct (pget_Some_item _ _ _ E) as (k' & Hk & He).
  destruct (H k'); [|done]. apply elem_of_keys. eauto.
Qed.

Lemma pget_equiv t x y : equiv x y -> pget t x = pget t y.
Proof.
  intros E. induction t as [|l IHl k' q w r IHr]; simpl; [done|].
  rewrite (less_equiv_l_eq x y k' E), (less_equiv_r_eq k' x y E).
  by rewrite IHl, IHr.
Qed.

Lemma pget_item t k p :
  bst t -> (k, p) ∈ items t -> pget t k = Some p.
Proof.
  induction t as [|l IHl k' q w r IHr]; simpl.
  { intros _ H. by apply not_elem_of_nil in H. }
  intros (Bl & Br & Hl & Hr).
  rewrite elem_of_app, elem_of_cons. intros [H|[[= -> ->]|H]].
  - rewrite Hl; [auto|]. apply elem_of_keys. eauto.
  - by rewrite (swo_irrefl SWO).
  - assert (less k' k = true) as Hk by (apply Hr, elem_of_keys; eauto).
    rewrite (less_asym _ _ Hk), Hk. auto.
Qed.

Lemma bst_items_unique t k k' p p' :
  bst t -> (k, p) ∈ items t -> (k', p') ∈ items t -> equiv k k' -> p = p'.
Proof.
  intros B H H' E.
  pose proof (pget_item _ _ _ B H) as G.
  pose proof (pget_item _ _ _ B H') as G'.
  rewrite (pget_equiv t k k' E) in G. congruence.
Qed.


End Order.

(** * Reading a map *)


Lemma Get_f_absent k h p t :
  shape h p t -> forall fuel, (height t <= fuel)%nat ->
  pget t k = None ->
  Get_f fuel p k h = Some ((zeroV, false), h).
Proof.
  induction 1 as [|a n l r Hn Hl IHl Hr IHr]; intros fuel Hf Hg.
  { by destruct fuel. }
  destruct fuel as [|f]; simpl in Hf; [lia|].
  simpl in *. unfold bind, load_node. rewrite Hn.
  destruct (less k (key n)); [apply IHl; [lia|done]|].
  destruct (less (key n) k); [apply IHr; [lia|done]|]. done.
Qed.





(** * The operations of a handle *)

Lemma mult_pos_elem R a : Some a ∈ R -> 0 < mult R a.
Proof.
  induction R as [|p R IH]; [by intros ?%not_elem_of_nil|].
  rewrite mult_cons. pose proof (delta_nonneg p a).
  pose proof (mult_nonneg R a).
  intros [<-|H']%elem_of_cons.
  - simpl. rewrite decide_True by done. lia.
  - specialize (IH H'). lia.
Qed.

Lemma reacho_root h R p : p ∈ R -> reacho h R p.
Proof. destruct p as [a|]; [|done]. intros H. by apply reach_root, mult_pos_elem. Qed.

Lemma wp_Clone pm h :
  wfh h -> valid h (root pm) ->
  wp (Clone pm) h (fun pm' h' => wfh h' /\ root pm' = root pm).
Proof.
  intros W Hv. unfold Clone. apply wp_bind, wp_incref; [done..|].
  intros h' E W'. by apply wp_ret.
Qed.

Lemma Inv_Clone pm h pm' h' R Q recs :
  Clone pm h = Some (pm', h') -> reacho h R (root pm) ->
  Inv h R Q recs -> Inv h' (root pm' :: R) Q recs.
Proof.
  unfold Clone. intros (r & h1 & Hinc & [= <- <-])%bind_Some Hr I.
  by destruct (Inv_incref _ _ _ _ _ _ _ Hinc Hr I) as (-> & I1).
Qed.

Lemma wp_Clear pm h :
  wfh h -> valid h (root pm) ->
  wp (Clear pm) h (fun pm' h' => wfh h' /\ root pm' = None).
Proof.
  intros W Hv. unfold Clear. apply wp_bind, wp_decref; [done..|].
  intros h' E W'. by apply wp_ret.
Qed.

Lemma Inv_Clear pm h pm' h' R Q recs :
  Clear pm h = Some (pm', h') ->
  Inv h (root pm :: R) Q recs -> Inv h' (root pm' :: R) Q recs.
Proof.
  unfold Clear. intros ([] & h1 & Hd & [= <- <-])%bind_Some I.
  pose proof (Inv_decref _ _ _ _ _ _ _ Hd I) as I1.
  eapply Inv_equiv; [| |exact I1]; [mult_eq|cnt_eq].
Qed.

Lemma wp_SetAll pm other t t' h :
  wfh h -> shape h (root pm) t -> shape h (root other) t' ->
  wp (SetAll pm other) h (fun pm' h' =>
    wfh h' /\ shape h' (root pm') (punion h t t' true)).
Proof.
  intros W S1 S2. unfold SetAll.
  apply wp_bind. eapply wp_union; [done..|]. intros r h1 E1 W1 Sr.
  apply wp_bind, wp_decref; [done|by eapply shape_valid_ext|].
  intros h2 E2 W2. apply wp_ret. split; [done|]. by eapply shape_ext.
Qed.

Lemma Inv_SetAll pm other h pm' h' R Q recs :
  SetAll pm other h = Some (pm', h') ->
  reacho h (root pm :: R) (root other) ->
  Inv h (root pm :: R) Q recs -> Inv h' (root pm' :: R) Q recs.
Proof.
  unfold SetAll. intros (r & h1 & Hu & H)%bind_Some Hr I.
  apply bind_Some in H as ([] & h2 & Hd & [= <- <-]).
  assert (reacho h (root pm :: R) (root pm)) as Hp
    by (apply reacho_root; repeat rewrite elem_of_cons; auto 10).
  pose proof (Inv_union _ _ _ _ _ _ _ _ _ Hu Hp Hr I) as I1.
  eapply (Inv_decref (root pm)); [done|].
  eapply Inv_equiv; [| |exact I1]; [mult_eq|cnt_eq].
Qed.

Definition single (k : K) (p : nat) (w : Z) : tree := Node Leaf k p w Leaf.

Lemma wp_SetWithRelease pm k v rel w t h :
  wfh h -> shape h (root pm) t ->
  wp (SetWithRelease pm k v rel w) h (fun pm' h' =>
    wfh h' /\
    exists fuel, (height t + 1 <= fuel)%nat /\
      shape h' (root pm')
        (punion_f fuel t (single k (length (vals h)) w) true)).
Proof.
  intros W S1. unfold SetWithRelease, newNodeWithRef.
  apply wp_bind, wp_bind, wp_alloc_val; [done..|]. intros h1 E1 W1 Hv.
  apply wp_alloc_node; simpl; [done..|by eapply lookup_lt_Some|].
  intros h2 E2 W2 Hn.
  assert (ext h h2) as E02 by (by eapply ext_trans).
  assert (shape h2 (Some (length (nodes h1))) (single k (length (vals h)) w))
    as S2.
  { apply (shape_alloc _ _ _ _ _ Hn); constructor. }
  apply wp_bind. eapply wp_union; [done|by eapply shape_ext|done|].
  intros r h3 E3 W3 Sr.
  assert (ext h h3) as E03 by (by eapply ext_trans).
  apply wp_bind, wp_decref; [done|by eapply shape_valid_ext|].
  intros h4 E4 W4.
  apply wp_bind, wp_decref;
    [done|eapply shape_valid_ext; [done|by eapply ext_trans]|].
  intros h5 E5 W5. apply wp_ret. split; [done|].
  exists (2 * length (nodes h2))%nat. split.
  - pose proof (shape_height_len _ _ _ W S1). pose proof (ext_nlen _ _ E02).
    pose proof (lookup_lt_Some _ _ _ Hn). lia.
  - eapply shape_ext; [|done]. by eapply ext_trans.
Qed.

Lemma Inv_SetWithRelease pm k v rel w h pm' h' R Q recs :
  SetWithRelease pm k v rel w h = Some (pm', h') ->
  Inv h (root pm :: R) Q recs ->
  Inv h' (root pm' :: R) Q (recs ++ [(k, v, rel)]) /\
  (wrapped h' = false -> length recs = length (vals h)).
Proof.
  unfold SetWithRelease. intros (second & h1 & Hnew & H)%bind_Some I.
  apply bind_Some in H as (r & h2 & Hu & H).
  apply bind_Some in H as ([] & h3 & Hd1 & H).
  apply bind_Some in H as ([] & h4 & Hd2 & [= <- <-]).
  destruct (Inv_newNodeWithRef _ _ _ _ _ _ _ _ _ _ Hnew I) as (I1 & Hn & Hlen).
  pose proof (Ext_newNodeWithRef _ _ _ _ _ _ _ Hnew) as E1.
  pose proof (Ext_union _ _ _ _ _ _ Hu) as E2.
  pose proof (Ext_decref _ _ _ _ Hd1) as E3.
  pose proof (Ext_decref _ _ _ _ Hd2) as E4.
  assert (reacho h1 (Some second :: root pm :: R) (root pm)) as Hp
    by (apply reacho_root; repeat rewrite elem_of_cons; auto 10).
  assert (reacho h1 (Some second :: root pm :: R) (Some second)) as Hs
    by (apply reacho_root; repeat rewrite elem_of_cons; auto 10).
  pose proof (Inv_union _ _ _ _ _ _ _ _ _ Hu Hp Hs I1) as I2.
  split.
  - eapply (Inv_decref (Some second)); [done|].
    eapply (Inv_decref (root pm)); [done|].
    eapply Inv_equiv; [| |exact I2]; [mult_eq|cnt_eq].
  - intros W'. apply Hlen.
    eauto using ext_wrapped.
Qed.

Lemma wp_Delete pm k t h :
  wfh h -> shape h (root pm) t ->
  wp (Delete pm k) h (fun pm' h' =>
    wfh h' /\
    if is_leaf (psplit t k).1.2 then pm' = pm /\ h' = h
    else shape h' (root pm') (pmerge (psplit t k).1.1 (psplit t k).2)).
Proof.
  intros W S1. unfold Delete.
  apply wp_bind. eapply wp_mono.
  { apply (split_f_total k true (length (nodes h)) _ t h W S1).
    by eapply shape_height_len. }
  intros [[l m] r] h1 Hsp (W1 & Sl & Sm & Sr).
  pose proof (Ext_split_f _ _ _ _ _ _ _ Hsp) as E1.
  unfold psplit_rm in *. destruct (psplit t k) as [[tl tm] tr]. simpl in *.
  destruct (is_leaf tm) eqn:Hm; simpl in *.
  - inversion Sm; subst.
    destruct (split_f_rm_nil _ _ _ _ _ _ _ Hsp) as (_ & _ & ->).
    by apply wp_ret.
  - destruct m as [ma|]; [|inversion Sm; subst; done].
    eapply wp_bind, wp_merge; [done..|]. intros res h2 E2 W2 Sres.
    assert (ext h h2) as E02 by (by eapply ext_trans).
    apply wp_bind, wp_decref; [done|by eapply shape_valid_ext|].
    intros h3 E3 W3.
    assert (ext h1 h3) as E13 by (by eapply ext_trans).
    apply wp_bind, wp_decref; [done|by eapply shape_valid_ext|].
    intros h4 E4 W4.
    assert (ext h1 h4) as E14 by (by eapply ext_trans).
    apply wp_bind, wp_decref; [done|by eapply shape_valid_ext|].
    intros h5 E5 W5.
    assert (ext h h5) as E05 by (eauto using ext_trans).
    apply wp_bind, wp_decref; [done|by eapply shape_valid_ext|].
    intros h6 E6 W6. apply wp_ret. split; [done|].
    eapply shape_ext; [|done]. eauto using ext_trans.
Qed.

Lemma Inv_Delete pm k h pm' h' R Q recs :
  Delete pm k h = Some (pm', h') ->
  Inv h (root pm :: R) Q recs -> Inv h' (root pm' :: R) Q recs.
Proof.
  unfold Delete. intros ([[l mid] r] & h1 & Hsp & H)%bind_Some I.
  destruct mid as [ma|].
  - apply bind_Some in H as (m & h2 & Hm & H).
    apply bind_Some in H as ([] & h3 & Hd1 & H).
    apply bind_Some in H as ([] & h4 & Hd2 & H).
    apply bind_Some in H as ([] & h5 & Hd3 & H).
    apply bind_Some in H as ([] & h6 & Hd4 & [= <- <-]).
    assert (reacho h (root pm :: R) (root pm)) as Hp
      by (apply reacho_root; repeat rewrite elem_of_cons; auto 10).
    pose proof (Inv_split _ _ _ _ _ _ _ _ _ _ _ Hsp Hp I) as I1.
    assert (reacho h1 (l :: Some ma :: r :: root pm :: R) l) as Hl
      by (apply reacho_root; repeat rewrite elem_of_cons; auto 10).
    assert (reacho h1 (l :: Some ma :: r :: root pm :: R) r) as Hr
      by (apply reacho_root; repeat rewrite elem_of_cons; auto 10).
    pose proof (Inv_merge _ _ _ _ _ _ _ _ Hm Hl Hr I1) as I2.
    eapply (Inv_decref (root pm)); [done|].
    eapply (Inv_decref r); [done|].
    eapply (Inv_decref (Some ma)); [done|].
    eapply (Inv_decref l); [done|].
    eapply Inv_equiv; [| |exact I2]; [mult_eq|cnt_eq].
  - injection H as <- <-.
    by destruct (split_f_rm_nil _ _ _ _ _ _ _ Hsp) as (_ & _ & ->).
Qed.

(** * Programs over several handles

    A client program is a sequence of API calls on the handles it has
    created; handles are named by the order of their creation.  [w] in the
    two [Set] calls is the weight [rand.Uint64()] returns. *)

Record world := World {
  wheap : heap;
  handles : list PMap
}.

Inductive op :=
| ONew
| OClone (i : nat)
| ODestroy (i : nat)
| OClear (i : nat)
| OSet (i : nat) (k : K) (v : V) (w : Z)
| OSetWithRelease (i : nat) (k : K) (v : V) (rel : option Rel) (w : Z)
| OSetAll (i j : nat)
| ODelete (i : nat) (k : K).

Definition update (i : nat) (m : M PMap) (w : world) : option world :=
  match m (wheap w) with
  | Some (pm', h') => Some (World h' (<[i := pm']> (handles w)))
  | None => None
  end.

Definition step (o : op) (w : world) : option world :=
  match o with
  | ONew => Some (World (wheap w) (handles w ++ [NewPMap]))
  | OClone i =>
      match handles w !! i with
      | Some pm =>
          match Clone pm (wheap w) with
          | Some (pm', h') => Some (World h' (handles w ++ [pm']))
          | None => None
          end
      | None => None
      end
  | ODestroy i =>
      match handles w !! i with
      | Some pm => update i (Destroy pm) w
      | None => None
      end
  | OClear i =>
      match handles w !! i with
      | Some pm => update i (Clear pm) w
      | None => None
      end
  | OSet i k v wt =>
      match handles w !! i with
      | Some pm => update i (Set_ pm k v wt) w
      | None => None
      end
  | OSetWithRelease i k v rel wt =>
      match handles w !! i with
      | Some pm => update i (SetWithRelease pm k v rel wt) w
      | None => None
      end
  | OSetAll i j =>
      match handles w !! i, handles w !! j with
      | Some pm, Some other => update i (SetAll pm other) w
      | _, _ => None
      end
  | ODelete i k =>
      match handles w !! i with
      | Some pm => update i (Delete pm k) w
      | None => None
      end
  end.

Fixpoint run (ops : list op) (w : world) : option world :=
  match ops with
  | [] => Some w
  | o :: ops =>
      match step o w with
      | Some w' => run ops w'
      | None => None
      end
  end.

Definition init : world := World (Heap [] [] [] false) [].

(** The bindings a program creates, in order: the [p]-th one lives in the
    [p]-th payload. *)
Definition created_by (o : op) : list binding :=
  match o with
  | OSet _ k v _ => [(k, v, None)]
  | OSetWithRelease _ k v rel _ => [(k, v, rel)]
  | _ => []
  end.

Definition created (ops : list op) : list binding :=
  concat (created_by <$> ops).

(** [op_ok n o]: [o] names handles among the first [n]. *)
Definition op_ok (n : nat) (o : op) : bool :=
  match o with
  | ONew => true
  | OClone i | ODestroy i | OClear i | OSet i _ _ _
  | OSetWithRelease i _ _ _ _ | ODelete i _ => i <? n
  | OSetAll i j => (i <? n) && (j <? n)
  end%nat.

Definition grows (o : op) : nat :=
  match o with
  | ONew | OClone _ => 1
  | _ => 0
  end.

Fixpoint ops_ok (n : nat) (ops : list op) : bool :=
  match ops with
  | [] => true
  | o :: ops => op_ok n o && ops_ok (n + grows o) ops
  end.

Definition roots (w : world) : list (option nat) := root <$> handles w.

Record Good (w : world) (recs : list binding) : Prop := MkGood {
  g_wf : wfh (wheap w);
  g_inv : Inv (wheap w) (roots w) [] recs;
  g_valid : forall pm, pm ∈ handles w -> valid (wheap w) (root pm)
}.

Lemma mult_fmap_root hs x :
  mult (root <$> hs) x = sumZ (fun pm => delta (root pm) x) hs.
Proof. induction hs as [|pm hs IH]; simpl; [done|]. by rewrite <- IH. Qed.

Lemma mult_app R1 R2 x : mult (R1 ++ R2) x = mult R1 x + mult R2 x.
Proof. apply sumZ_app. Qed.

Lemma mult_roots_insert hs i pm pm' x :
  hs !! i = Some pm ->
  mult (root <$> <[i := pm']> hs) x =
  mult (root <$> hs) x - delta (root pm) x + delta (root pm') x.
Proof.
  intros H. rewrite !mult_fmap_root.
  by rewrite (sumZ_insert (fun pm => delta (root pm) x) _ _ _ pm' H).
Qed.

Lemma Good_init : Good init [].
Proof.
  split; simpl.
  - split; simpl; intros *; by rewrite lookup_nil.
  - intros _. split; simpl; try done; try (intros *; by rewrite lookup_nil).
    + constructor.
    + intros e. split; [by intros ?%not_elem_of_nil|].
      intros (v & Hv & _). by rewrite lookup_nil in Hv.
  - intros pm H. by apply not_elem_of_nil in H.
Qed.

Lemma mult_rest hs i pm x :
  hs !! i = Some pm ->
  mult (root pm :: (root <$> <[i := NewPMap]> hs)) x = mult (root <$> hs) x.
Proof.
  intros H. rewrite mult_cons, (mult_roots_insert _ _ _ _ _ H). simpl. lia.
Qed.

(** An operation that rewrites the root of handle [i]. *)
Lemma Good_update w recs recs' i pm pm' h' :
  Good w recs -> handles w !! i = Some pm ->
  wfh h' -> ext (wheap w) h' -> valid h' (root pm') ->
  (forall R, (forall x, mult (root pm :: R) x = mult (roots w) x) ->
     Inv (wheap w) (root pm :: R) [] recs ->
     Inv h' (root pm' :: R) [] recs') ->
  Good (World h' (<[i := pm']> (handles w))) recs'.
Proof.
  intros [Gw Gi Gv] Hi W' E Hv HI. split; simpl.
  - done.
  - unfold roots. simpl.
    eapply Inv_equiv;
      [| |apply (HI (root <$> <[i := NewPMap]> (handles w)))].
    + intros x. rewrite mult_cons, !(mult_roots_insert _ _ _ _ _ Hi).
      simpl. lia.
    + done.
    + intros x. by apply mult_rest.
    + eapply Inv_equiv; [| |exact Gi]; [|done].
      intros x. symmetry. by apply mult_rest.
  - intros pm0 [j Hj]%list_elem_of_lookup.
    destruct (decide (j = i)) as [->|Hne].
    + rewrite list_lookup_insert_eq in Hj by (by eapply lookup_lt_Some).
      by injection Hj as <-.
    + rewrite list_lookup_insert_ne in Hj by done.
      eapply valid_ext; [done|]. apply Gv. by eapply list_elem_of_lookup_2.
Qed.

(** An operation that creates a handle. *)
Lemma Good_append w recs pm' h' :
  Good w recs ->
  wfh h' -> ext (wheap w) h' -> valid h' (root pm') ->
  Inv h' (root pm' :: roots w) [] recs ->
  Good (World h' (handles w ++ [pm'])) recs.
Proof.
  intros [Gw Gi Gv] W' E Hv HI. split; simpl.
  - done.
  - unfold roots. simpl. rewrite fmap_app. simpl.
    eapply Inv_equiv; [| |exact HI]; [|done].
    intros x. rewrite mult_app, !mult_cons. unfold roots, mult at 3. simpl.
    lia.
  - intros pm0 [H|H%list_elem_of_singleton]%elem_of_app.
    + eapply valid_ext; [done|]. by apply Gv.
    + by subst.
Qed.

Lemma roots_reacho w i pm R h :
  handles w !! i = Some pm ->
  (forall x, mult R x = mult (roots w) x) ->
  reacho h R (root pm).
Proof.
  intros Hi HR. destruct (root pm) as [a|] eqn:Ha; [|done].
  apply reach_root. rewrite HR. apply mult_pos_elem.
  unfold roots. rewrite <- Ha. apply list_elem_of_fmap. exists pm.
  split; [done|]. by eapply list_elem_of_lookup_2.
Qed.

Lemma handle_shape w recs i pm :
  Good w recs -> handles w !! i = Some pm ->
  exists t, shape (wheap w) (root pm) t.
Proof.
  intros [Gw Gi Gv] Hi.
  assert (valid (wheap w) (root pm)) as Hv
    by (apply Gv; by eapply list_elem_of_lookup_2).
  clear Gi Gv Hi. destruct (root pm) as [a|]; [|exists Leaf; constructor].
  simpl in Hv. revert Hv.
  induction a as [a IH] using lt_wf_ind. intros Ha.
  destruct (lookup_lt_is_Some_2 _ _ Ha) as [n Hn].
  assert (exists tl, shape (wheap w) (left n) tl) as [tl Hl].
  { destruct (left n) as [c|] eqn:Hc; [|exists Leaf; constructor].
    pose proof (wf_left _ Gw _ _ _ Hn Hc). apply IH; lia. }
  assert (exists tr, shape (wheap w) (right n) tr) as [tr Hr].
  { destruct (right n) as [c|] eqn:Hc; [|exists Leaf; constructor].
    pose proof (wf_right _ Gw _ _ _ Hn Hc). apply IH; lia. }
  eexists. by econstructor.
Qed.

Lemma PMap_eq (pm pm' : PMap) : root pm = root pm' -> pm = pm'.
Proof. destruct pm, pm'. simpl. by intros ->. Qed.

Lemma step_New w recs :
  Good w recs ->
  step ONew w = Some (World (wheap w) (handles w ++ [NewPMap])) /\
  Good (World (wheap w) (handles w ++ [NewPMap])) recs.
Proof.
  intros G. split; [done|].
  apply Good_append; [done|apply (g_wf _ _ G)|apply ext_refl|done|].
  eapply Inv_equiv; [| |apply (g_inv _ _ G)]; [mult_eq|cnt_eq].
Qed.

Lemma step_Clone w recs i pm :
  Good w recs -> handles w !! i = Some pm ->
  exists h', step (OClone i) w = Some (World h' (handles w ++ [pm])) /\
    Good (World h' (handles w ++ [pm])) recs /\ ext (wheap w) h'.
Proof.
  intros G Hi. simpl. rewrite Hi.
  assert (valid (wheap w) (root pm)) as Hv
    by (apply (g_valid _ _ G); by eapply list_elem_of_lookup_2).
  destruct (wp_Clone pm _ (g_wf _ _ G) Hv) as (pm' & h' & Hc & W' & Hr).
  apply PMap_eq in Hr as ->.
  pose proof (Ext_Clone _ _ _ _ Hc) as E.
  rewrite Hc. exists h'. split_ands; [done| |done].
  apply Good_append; [done..|by eapply valid_ext|].
  eapply Inv_Clone; [done| |apply (g_inv _ _ G)].
  by eapply roots_reacho.
Qed.

Lemma step_Clear w recs i pm :
  Good w recs -> handles w !! i = Some pm ->
  exists h',
    step (OClear i) w = Some (World h' (<[i := NewPMap]> (handles w))) /\
    step (ODestroy i) w = Some (World h' (<[i := NewPMap]> (handles w))) /\
    Good (World h' (<[i := NewPMap]> (handles w))) recs /\
    ext (wheap w) h'.
Proof.
  intros G Hi. simpl. rewrite Hi. unfold update, Destroy.
  assert (valid (wheap w) (root pm)) as Hv
    by (apply (g_valid _ _ G); by eapply list_elem_of_lookup_2).
  destruct (wp_Clear pm _ (g_wf _ _ G) Hv) as (pm' & h' & Hc & W' & Hr).
  assert (pm' = NewPMap) as -> by (by apply PMap_eq).
  pose proof (Ext_Clear _ _ _ _ Hc) as E.
  rewrite Hc. exists h'. split_ands; [done..| |done].
  eapply Good_update; [done..|].
  intros R HR I. by eapply Inv_Clear.
Qed.

Lemma step_SetAll w recs i j pm other t t' :
  Good w recs -> handles w !! i = Some pm -> handles w !! j = Some other ->
  shape (wheap w) (root pm) t -> shape (wheap w) (root other) t' ->
  exists pm' h',
    step (OSetAll i j) w = Some (World h' (<[i := pm']> (handles w))) /\
    Good (World h' (<[i := pm']> (handles w))) recs /\
    ext (wheap w) h' /\
    (height t + height t' <= 2 * length (nodes (wheap w)))%nat /\
    shape h' (root pm') (punion (wheap w) t t' true).
Proof.
  intros G Hi Hj St St'. simpl. rewrite Hi, Hj. unfold update.
  destruct (wp_SetAll pm other _ _ _ (g_wf _ _ G) St St')
    as (pm' & h' & Hc & W' & Sr).
  pose proof (Ext_SetAll _ _ _ _ _ Hc) as E.
  rewrite Hc. exists pm', h'. split_ands; [done| |done| |done].
  - eapply Good_update; [done..|by eapply shape_valid|].
    intros R HR I. eapply Inv_SetAll; [done| |done].
    by eapply roots_reacho.
  - pose proof (shape_height_len _ _ _ (g_wf _ _ G) St).
    pose proof (shape_height_len _ _ _ (g_wf _ _ G) St'). lia.
Qed.

Lemma step_SetWithRelease w recs i pm t k v rel wt :
  Good w recs -> handles w !! i = Some pm ->
  shape (wheap w) (root pm) t ->
  exists pm' h' fuel,
    step (OSetWithRelease i k v rel wt) w =
      Some (World h' (<[i := pm']> (handles w))) /\
    Good (World h' (<[i := pm']> (handles w))) (recs ++ [(k, v, rel)]) /\
    ext (wheap w) h' /\
    (height t + 1 <= fuel)%nat /\
    shape h' (root pm')
      (punion_f fuel t (single k (length (vals (wheap w))) wt) true) /\
    (wrapped h' = false -> length recs = length (vals (wheap w))).
Proof.
  intros G Hi St. simpl. rewrite Hi. unfold update.
  destruct (wp_SetWithRelease pm k v rel wt _ _ (g_wf _ _ G) St)
    as (pm' & h' & Hc & W' & fuel & Hf & Sr).
  pose proof (Ext_SetWithRelease _ _ _ _ _ _ _ _ Hc) as E.
  rewrite Hc. exists pm', h', fuel. split_ands; [done| |done..|].
  - eapply Good_update; [done..|by eapply shape_valid|].
    intros R HR I. by eapply Inv_SetWithRelease.
  - intros Wr.
    refine (proj2 (Inv_SetWithRelease _ _ _ _ _ _ _ _
                     (root <$> <[i := NewPMap]> (handles w)) [] recs Hc _) Wr).
    eapply Inv_equiv; [| |apply (g_inv _ _ G)]; [|done].
    intros x. symmetry. by apply mult_rest.
Qed.

Lemma step_Set w i k v wt :
  step (OSet i k v wt) w = step (OSetWithRelease i k v None wt) w.
Proof. reflexivity. Qed.

Lemma step_Delete w recs i pm t k :
  Good w recs -> handles w !! i = Some pm ->
  shape (wheap w) (root pm) t ->
  exists pm' h',
    step (ODelete i k) w = Some (World h' (<[i := pm']> (handles w))) /\
    Good (World h' (<[i := pm']> (handles w))) recs /\
    ext (wheap w) h' /\
    if is_leaf (psplit t k).1.2 then pm' = pm /\ h' = wheap w
    else shape h' (root pm') (pmerge (psplit t k).1.1 (psplit t k).2).
Proof.
  intros G Hi St. simpl. rewrite Hi. unfold update.
  destruct (wp_Delete pm k _ _ (g_wf _ _ G) St) as (pm' & h' & Hc & W' & Sr).
  pose proof (Ext_Delete _ _ _ _ _ Hc) as E.
  rewrite Hc. exists pm', h'. split_ands; [done| |done..].
  eapply Good_update; [done..| |].
  - destruct (is_leaf _).
    + destruct Sr as [-> ->]. apply (g_valid _ _ G).
      by eapply list_elem_of_lookup_2.
    + by eapply shape_valid.
  - intros R HR I. by eapply Inv_Delete.
Qed.

(** ** Every program runs, and keeps the invariant *)

Lemma ltb_lookup {A} (l : list A) i :
  (i <? length l)%nat = true -> exists x, l !! i = Some x.
Proof. intros H%Nat.ltb_lt. by apply lookup_lt_is_Some_2. Qed.

Lemma lookup_ltb {A} (l : list A) i x :
  l !! i = Some x -> (i <? length l)%nat = true.
Proof. intros H%lookup_lt_Some. by apply Nat.ltb_lt. Qed.

Lemma step_Good w recs o :
  Good w recs -> op_ok (length (handles w)) o = true ->
  exists w', step o w = Some w' /\
    Good w' (recs ++ created_by o) /\
    ext (wheap w) (wheap w') /\
    length (handles w') = (length (handles w) + grows o)%nat.
Proof.
  intros G Hok. destruct o as [|i|i|i|i k v wt|i k v rel wt|i j|i k];
    simpl in Hok.
  - destruct (step_New _ _ G) as [Hs G']. eexists. split; [done|].
    simpl. rewrite app_nil_r, length_app. simpl.
    split_ands; [done|apply ext_refl|done].
  - destruct (ltb_lookup _ _ Hok) as [pm Hi].
    destruct (step_Clone _ _ _ _ G Hi) as (h' & Hs & G' & E).
    eexists. split; [done|]. simpl. rewrite app_nil_r, length_app. done.
  - destruct (ltb_lookup _ _ Hok) as [pm Hi].
    destruct (step_Clear _ _ _ _ G Hi) as (h' & _ & Hs & G' & E).
    eexists. split; [done|]. simpl. rewrite app_nil_r, length_insert.
    split_ands; [done..|lia].
  - destruct (ltb_lookup _ _ Hok) as [pm Hi].
    destruct (step_Clear _ _ _ _ G Hi) as (h' & Hs & _ & G' & E).
    eexists. split; [done|]. simpl. rewrite app_nil_r, length_insert.
    split_ands; [done..|lia].
  - destruct (ltb_lookup _ _ Hok) as [pm Hi].
    destruct (handle_shape _ _ _ _ G Hi) as [t St].
    destruct (step_SetWithRelease _ _ _ _ _ k v None wt G Hi St)
      as (pm' & h' & fuel & Hs & G' & E & _).
    eexists. split; [by rewrite step_Set|]. simpl. rewrite length_insert.
    split_ands; [done..|lia].
  - destruct (ltb_lookup _ _ Hok) as [pm Hi].
    destruct (handle_shape _ _ _ _ G Hi) as [t St].
    destruct (step_SetWithRelease _ _ _ _ _ k v rel wt G Hi St)
      as (pm' & h' & fuel & Hs & G' & E & _).
    eexists. split; [done|]. simpl. rewrite length_insert.
    split_ands; [done..|lia].
  - apply andb_true_iff in Hok as [Hoi Hoj].
    destruct (ltb_lookup _ _ Hoi) as [pm Hi].
    destruct (ltb_lookup _ _ Hoj) as [other Hj].
    destruct (handle_shape _ _ _ _ G Hi) as [t St].
    destruct (handle_shape _ _ _ _ G Hj) as [t' St'].
    destruct (step_SetAll _ _ _ _ _ _ _ _ G Hi Hj St St')
      as (pm' & h' & Hs & G' & E & _).
    eexists. split; [done|]. simpl. rewrite app_nil_r, length_insert.
    split_ands; [done..|lia].
  - destruct (ltb_lookup _ _ Hok) as [pm Hi].
    destruct (handle_shape _ _ _ _ G Hi) as [t St].
    destruct (step_Delete _ _ _ _ _ k G Hi St) as (pm' & h' & Hs & G' & E & _).
    eexists. split; [done|]. simpl. rewrite app_nil_r, length_insert.
    split_ands; [done..|lia].
Qed.

Lemma step_ok o w w' :
  step o w = Some w' -> op_ok (length (handles w)) o = true.
Proof.
  destruct o as [|i|i|i|i k v wt|i k v rel wt|i j|i k]; simpl; try done;
    try (destruct (handles w !! i) eqn:Hi; [|done];
         intros _; by eapply lookup_ltb).
  destruct (handles w !! i) eqn:Hi; [|done].
  destruct (handles w !! j) eqn:Hj; [|done].
  intros _. apply andb_true_iff. split; by eapply lookup_ltb.
Qed.

Lemma created_cons o ops : created (o :: ops) = created_by o ++ created ops.
Proof. reflexivity. Qed.

Lemma run_Good ops : forall w recs,
  Good w recs -> ops_ok (length (handles w)) ops = true ->
  exists w', run ops w = Some w' /\
    Good w' (recs ++ created ops) /\
    ext (wheap w) (wheap w').
Proof.
  induction ops as [|o ops IH]; intros w recs G Hok; simpl in *.
  - exists w. rewrite app_nil_r. split_ands; [done..|apply ext_refl].
  - apply andb_true_iff in Hok as [Ho Hops].
    destruct (step_Good _ _ _ G Ho) as (w1 & Hs & G1 & E1 & Hl).
    rewrite Hs. rewrite <- Hl in Hops.
    destruct (IH _ _ G1 Hops) as (w' & Hr & G' & E').
    exists w'. rewrite created_cons, app_assoc.
    split_ands; [done..|by eapply ext_trans].
Qed.

Lemma run_ok ops : forall w w' recs,
  run ops w = Some w' -> Good w recs ->
  ops_ok (length (handles w)) ops = true.
Proof.
  induction ops as [|o ops IH]; intros w w' recs Hr G; simpl in *; [done|].
  destruct (step o w) as [w1|] eqn:Hs; [|done].
  pose proof (step_ok _ _ _ Hs) as Ho. rewrite Ho. simpl.
  destruct (step_Good _ _ _ G Ho) as (w1' & Hs' & G1 & _ & Hl).
  rewrite Hs in Hs'. injection Hs' as <-.
  rewrite <- Hl. eapply IH; [exact Hr|exact G1].
Qed.

Lemma run_Good' ops w w' recs :
  run ops w = Some w' -> Good w recs ->
  Good w' (recs ++ created ops) /\ ext (wheap w) (wheap w').
Proof.
  intros Hr G. pose proof (run_ok _ _ _ _ Hr G) as Hok.
  destruct (run_Good _ _ _ G Hok) as (w'' & Hr' & G' & E).
  rewrite Hr in Hr'. by injection Hr' as <-.
Qed.

(** What holds of every world a program reaches. *)
Lemma run_init ops w :
  run ops init = Some w -> Good w (created ops).
Proof. intros Hr. by destruct (run_Good' _ _ _ _ Hr Good_init). Qed.

(** ** Every tree a program builds is a treap *)

Definition Treaps (w : world) : Prop :=
  forall i pm t, handles w !! i = Some pm ->
    shape (wheap w) (root pm) t -> treap t.

Section OrderedWorld.

Hypothesis SWO : StrictWeakOrder.

Lemma treap_single k p wt : treap (single k p wt).
Proof.
  split; simpl; split_ands; try done;
    intros x Hx; by apply not_elem_of_nil in Hx.
Qed.

Lemma treap_punion fuel a b ow :
  (height a + height b <= fuel)%nat ->
  treap a -> treap b -> treap (punion_f fuel a b ow).
Proof.
  intros Hf [Ba Ha] [Bb Hb]. split.
  - by apply punion_bst.
  - by apply punion_heap.
Qed.

Lemma treap_delete t k :
  treap t -> treap (pmerge (psplit t k).1.1 (psplit t k).2).
Proof.
  intros [B H]. destruct (psplit_bst t k B) as (Bl & _ & Br).
  destruct (psplit_bounds SWO t k B) as (Hl & Hr).
  destruct (psplit_heap t k H) as ((H1 & _ & H3) & _). split.
  - apply pmerge_bst; [done..|]. intros x y Hx Hy.
    eapply (swo_trans SWO); eauto.
  - by apply pmerge_heap.
Qed.

(** Handles other than the one an operation rewrites keep their tree. *)
Lemma Treaps_update w recs i pm pm' h' tnew :
  Good w recs -> Treaps w -> handles w !! i = Some pm ->
  ext (wheap w) h' -> shape h' (root pm') tnew -> treap tnew ->
  Treaps (World h' (<[i := pm']> (handles w))).
Proof.
  intros G T Hi E Sn Tn j pmj t Hj St. simpl in *.
  destruct (decide (j = i)) as [->|Hne].
  - rewrite list_lookup_insert_eq in Hj by (by eapply lookup_lt_Some).
    injection Hj as <-. by rewrite (shape_inj _ _ _ St _ Sn).
  - rewrite list_lookup_insert_ne in Hj by done.
    destruct (handle_shape _ _ _ _ G Hj) as [t0 S0].
    rewrite (shape_inj _ _ _ St _ (shape_ext _ _ _ _ E S0)).
    by eapply T.
Qed.

Lemma Treaps_append w recs pm' h' tnew :
  Good w recs -> Treaps w ->
  ext (wheap w) h' -> shape h' (root pm') tnew -> treap tnew ->
  Treaps (World h' (handles w ++ [pm'])).
Proof.
  intros G T E Sn Tn j pmj t Hj St. simpl in *.
  apply lookup_snoc_cases in Hj as [[Hj Hlk]|[-> ->]].
  - destruct (handle_shape _ _ _ _ G Hlk) as [t0 S0].
    rewrite (shape_inj _ _ _ St _ (shape_ext _ _ _ _ E S0)).
    by eapply T.
  - by rewrite (shape_inj _ _ _ St _ Sn).
Qed.

Lemma step_Treaps w recs o w' :
  Good w recs -> Treaps w -> step o w = Some w' -> Treaps w'.
Proof.
  intros G T Hs. pose proof (step_ok _ _ _ Hs) as Hok.
  destruct o as [|i|i|i|i k v wt|i k v rel wt|i j|i k]; simpl in Hok.
  - injection Hs as <-.
    eapply (Treaps_append _ _ NewPMap _ Leaf); eauto using ext_refl.
    + constructor.
    + by split.
  - destruct (ltb_lookup _ _ Hok) as [pm Hi].
    destruct (step_Clone _ _ _ _ G Hi) as (h' & Hs' & G' & E).
    rewrite Hs in Hs'. injection Hs' as ->.
    destruct (handle_shape _ _ _ _ G Hi) as [t0 S0].
    eapply Treaps_append; eauto using shape_ext.
  - destruct (ltb_lookup _ _ Hok) as [pm Hi].
    destruct (step_Clear _ _ _ _ G Hi) as (h' & _ & Hs' & G' & E).
    rewrite Hs in Hs'. injection Hs' as ->.
    eapply (Treaps_update _ _ _ _ _ _ Leaf); eauto; [constructor|by split].
  - destruct (ltb_lookup _ _ Hok) as [pm Hi].
    destruct (step_Clear _ _ _ _ G Hi) as (h' & Hs' & _ & G' & E).
    rewrite Hs in Hs'. injection Hs' as ->.
    eapply (Treaps_update _ _ _ _ _ _ Leaf); eauto; [constructor|by split].
  - destruct (ltb_lookup _ _ Hok) as [pm Hi].
    destruct (handle_shape _ _ _ _ G Hi) as [t St].
    destruct (step_SetWithRelease _ _ _ _ _ k v None wt G Hi St)
      as (pm' & h' & fuel & Hs' & G' & E & Hf & Sn & _).
    rewrite step_Set, Hs' in Hs. injection Hs as <-.
    eapply Treaps_update; eauto.
    apply treap_punion; [simpl; lia|by eapply T|apply treap_single].
  - destruct (ltb_lookup _ _ Hok) as [pm Hi].
    destruct (handle_shape _ _ _ _ G Hi) as [t St].
    destruct (step_SetWithRelease _ _ _ _ _ k v rel wt G Hi St)
      as (pm' & h' & fuel & Hs' & G' & E & Hf & Sn & _).
    rewrite Hs' in Hs. injection Hs as <-.
    eapply Treaps_update; eauto.
    apply treap_punion; [simpl; lia|by eapply T|apply treap_single].
  - apply andb_true_iff in Hok as [Hoi Hoj].
    destruct (ltb_lookup _ _ Hoi) as [pm Hi].
    destruct (ltb_lookup _ _ Hoj) as [other Hj].
    destruct (handle_shape _ _ _ _ G Hi) as [t St].
    destruct (handle_shape _ _ _ _ G Hj) as [t' St'].
    destruct (step_SetAll _ _ _ _ _ _ _ _ G Hi Hj St St')
      as (pm' & h' & Hs' & G' & E & Hf & Sn).
    rewrite Hs' in Hs. injection Hs as <-.
    eapply Treaps_update; eauto.
    apply treap_punion; [done|exact (T _ _ _ Hi St)|exact (T _ _ _ Hj St')].
  - destruct (ltb_lookup _ _ Hok) as [pm Hi].
    destruct (handle_shape _ _ _ _ G Hi) as [t St].
    destruct (step_Delete _ _ _ _ _ k G Hi St)
      as (pm' & h' & Hs' & G' & E & Sn).
    rewrite Hs' in Hs. injection Hs as <-.
    destruct (is_leaf (psplit t k).1.2).
    + destruct Sn as [-> ->]. eapply Treaps_update; eauto.
    + eapply Treaps_update; eauto. apply treap_delete. by eapply T.
Qed.

Lemma run_Treaps ops : forall w recs w',
  Good w recs -> Treaps w -> run ops w = Some w' -> Treaps w'.
Proof.
  induction ops as [|o ops IH]; intros w recs w' G T Hr; simpl in Hr.
  - by injection Hr as <-.
  - destruct (step o w) as [w1|] eqn:Hs; [|done].
    pose proof (step_ok _ _ _ Hs) as Hok.
    destruct (step_Good _ _ _ G Hok) as (w1' & Hs' & G1 & _).
    rewrite Hs in Hs'. injection Hs' as <-.
    eapply IH; [exact G1| |exact Hr]. exact (step_Treaps _ _ _ _ G T Hs).
Qed.

Lemma Treaps_init : Treaps init.
Proof. intros i pm t Hi. simpl in Hi. by rewrite lookup_nil in Hi. Qed.

End OrderedWorld.

(** ** Reading in a reachable world *)


Lemma handle_root_in w i pm : handles w !! i = Some pm -> root pm ∈ roots w.
Proof.
  intros Hi. unfold roots. apply list_elem_of_fmap. exists pm.
  split; [done|]. by eapply list_elem_of_lookup_2.
Qed.



(** ** Operations on one handle leave the others alone *)






(** ** When a callback has run *)

Lemma sumZ_pos_exists {A} (f : A -> Z) l :
  0 < sumZ f l -> exists i x, l !! i = Some x /\ 0 < f x.
Proof.
  induction l as [|z l IH]; simpl; [lia|]. intros H.
  destruct (Z_lt_dec 0 (f z)) as [Hz|Hz].
  - by exists O, z.
  - destruct IH as (i & x & Hi & Hx); [lia|]. by exists (S i), x.
Qed.

(** A node with a positive counter is reached from a reference in [R]. *)
Lemma live_reach h R Q recs :
  wfh h -> counted h R Q recs ->
  forall d a n, (length (nodes h) - a <= d)%nat ->
    nodes h !! a = Some n -> 0 < refCount n -> reach h R a.
Proof.
  intros W C. induction d as [|d IH]; intros a n Hd Hn Hl.
  { apply lookup_lt_Some in Hn. lia. }
  rewrite (c_rc _ _ _ _ C _ _ Hn) in Hl.
  destruct (Z_lt_dec 0 (mult R a)) as [Hm|Hm]; [by apply reach_root|].
  destruct (sumZ_pos_exists (edges a) (nodes h)) as (b & nb & Hb & He).
  { unfold indeg in Hl. lia. }
  unfold edges in He. destruct (live nb) eqn:Hlb; [|lia].
  apply Z.ltb_lt in Hlb.
  pose proof (delta_nonneg (left nb) a). pose proof (delta_nonneg (right nb) a).
  destruct (Z_lt_dec 0 (delta (left nb) a)) as [Hd1|Hd1].
  - apply delta_pos_inv in Hd1. pose proof (wf_left _ W _ _ _ Hb Hd1).
    eapply reach_left; [|done..]. apply (IH b nb); [|done..].
    apply lookup_lt_Some in Hn. lia.
  - assert (0 < delta (right nb) a) as Hd2 by lia.
    apply delta_pos_inv in Hd2. pose proof (wf_right _ W _ _ _ Hb Hd2).
    eapply reach_right; [|done..]. apply (IH b nb); [|done..].
    apply lookup_lt_Some in Hn. lia.
Qed.

Lemma mult_pos_elem_inv R a : 0 < mult R a -> Some a ∈ R.
Proof.
  induction R as [|p R IH]; [unfold mult; simpl; lia|].
  rewrite mult_cons. intros H. pose proof (delta_nonneg p a).
  destruct (Z_lt_dec 0 (delta p a)) as [Hd|Hd].
  - apply delta_pos_inv in Hd as ->. by left.
  - right. apply IH. lia.
Qed.

Lemma reach_split h R a :
  reach h R a -> exists r, Some r ∈ R /\ reach h [Some r] a.
Proof.
  induction 1 as [a Ha|a n c _ (r & Hr & IH) Hn Hc|a n c _ (r & Hr & IH) Hn Hc].
  - exists a. split; [by apply mult_pos_elem_inv|].
    apply reach_root, mult_pos_elem. by left.
  - exists r. split; [done|]. by eapply reach_left.
  - exists r. split; [done|]. by eapply reach_right.
Qed.



Lemma reach_below h a n c x :
  nodes h !! a = Some n -> (left n = Some c \/ right n = Some c) ->
  reach h [Some c] x -> reach h [Some a] x.
Proof.
  intros Hn Hc. induction 1 as [x Hx|x m y _ IH Hm Hy|x m y _ IH Hm Hy].
  - apply mult_pos_elem_inv, list_elem_of_singleton in Hx.
    injection Hx as ->.
    assert (reach h [Some a] a) as Ha
      by (apply reach_root, mult_pos_elem; by left).
    destruct Hc; [by eapply reach_left|by eapply reach_right].
  - by eapply reach_left.
  - by eapply reach_right.
Qed.

Lemma items_reach h r t :
  shape h r t -> forall k q, (k, q) ∈ items t ->
  exists a n, reacho h [r] (Some a) /\ nodes h !! a = Some n /\
    key n = k /\ value n = q.
Proof.
  induction 1 as [|a n l r Hn Hl IHl Hr IHr]; intros k q; simpl.
  { by intros ?%not_elem_of_nil. }
  rewrite elem_of_app, elem_of_cons. intros [H|[[= -> ->]|H]].
  - destruct (IHl _ _ H) as (a' & n' & Hre & Hn' & Hk & Hq).
    exists a', n'. split_ands; [|done..].
    destruct (left n) as [c|] eqn:Hc.
    + eapply reach_below; eauto.
    + apply reach_split in Hre as (r0 & Hr0%list_elem_of_singleton & _).
      done.
  - exists a, n. split_ands; [|done..].
    apply reach_root, mult_pos_elem. by left.
  - destruct (IHr _ _ H) as (a' & n' & Hre & Hn' & Hk & Hq).
    exists a', n'. split_ands; [|done..].
    destruct (right n) as [c|] eqn:Hc.
    + eapply reach_below; eauto.
    + apply reach_split in Hre as (r0 & Hr0%list_elem_of_singleton & _).
      done.
Qed.


(** [held w p]: some handle of [w] still shows the payload [p]. *)
Definition held (w : world) (p : nat) : Prop :=
  exists i pm t, handles w !! i = Some pm /\
    shape (wheap w) (root pm) t /\ p ∈ (items t).*2.




Lemma mult_single_le R r x : Some r ∈ R -> mult [Some r] x <= mult R x.
Proof.
  intros Hr. unfold mult at 1. simpl. destruct (decide (r = x)) as [->|Hne].
  - pose proof (mult_pos_elem _ _ Hr). lia.
  - pose proof (mult_nonneg R x). lia.
Qed.

Lemma held_live w recs p :
  Good w recs -> wrapped (wheap w) = false -> held w p ->
  exists v, vals (wheap w) !! p = Some v /\ 0 < vRefCount v.
Proof.
  intros G Wr (i & pm & t & Hi & St & Hp).
  pose proof (g_inv _ _ G Wr) as C.
  apply list_elem_of_fmap in Hp as ([k q] & -> & Hkq). simpl.
  destruct (items_reach _ _ _ St _ _ Hkq) as (a & n & Hre & Hn & Hk & Hq).
  destruct (root pm) as [r|] eqn:Hr.
  2:{ apply reach_split in Hre as (r0 & Hr0%list_elem_of_singleton & _).
      done. }
  assert (reach (wheap w) (roots w) a) as Hre'.
  { eapply reach_mono; [|done]. intros x. apply mult_single_le.
    rewrite <- Hr. by apply handle_root_in with i. }
  destruct (reach_live _ _ _ _ _ C Hre') as (n' & Hn' & Hl).
  rewrite Hn in Hn'. injection Hn' as <-. rewrite <- Hq.
  by eapply live_payload.
Qed.



Lemma shape_payload_bound h r t :
  wfh h -> shape h r t ->
  forall k q, (k, q) ∈ items t -> (q < length (vals h))%nat.
Proof.
  intros W. induction 1 as [|a n l r Hn Hl IHl Hr IHr]; intros k q; simpl.
  { by intros ?%not_elem_of_nil. }
  rewrite elem_of_app, elem_of_cons. intros [H|[[= -> ->]|H]]; eauto.
  by eapply wf_value.
Qed.


Lemma not_held_fresh w recs p :
  Good w recs -> (length (vals (wheap w)) <= p)%nat -> ~ held w p.
Proof.
  intros G Hp (i & pm & t & Hi & St & Hin).
  apply list_elem_of_fmap in Hin as ([k q] & -> & Hkq).
  pose proof (shape_payload_bound _ _ _ (g_wf _ _ G) St _ _ Hkq). simpl in *.
  lia.
Qed.

(** * The specification, claim by claim *)

(** C9. A [split] with [requireMid] set that reports no [mid] returns three
    nil pointers and leaves the heap as it was: every node and payload
    counter is unchanged, so no reference is leaked on the short-circuit
    path. *)
Theorem split_short_circuit_no_leak n k h l r h' :
  split n k true h = Some ((l, None, r), h') ->
  l = None /\ r = None /\ h' = h.
Proof. apply split_f_rm_nil. Qed.

(** C10. In a well-formed heap, [Get] of a key that no node of the handle's
    tree binds returns the zero value and [false], and returns the heap it
    was given; a fresh handle is the case of the empty tree. *)
Theorem Get_unbound h pm t k :
  wfh h -> shape h (root pm) t ->
  (forall k', k' ∈ keys t -> ~ equiv k' k) ->
  Get pm k h = Some ((zeroV, false), h).
Proof.
  intros W St Hk. unfold Get. eapply Get_f_absent; [done| |].
  - by eapply shape_height_len.
  - by apply pget_None.
Qed.

(** C7. Under a strict weak order, after any program every handle's root
    denotes a treap: at every node the keys on the left are less than the
    node's key, the keys on the right are greater, and the weight is no less
    than the weight of either child. *)
Theorem treap_invariant ops w i pm :
  StrictWeakOrder ->
  run ops init = Some w -> handles w !! i = Some pm ->
  exists t, shape (wheap w) (root pm) t /\ bst t /\ heap_ord t.
Proof.
  intros SWO Hr Hi. pose proof (run_init _ _ Hr) as G.
  destruct (handle_shape _ _ _ _ G Hi) as [t St]. exists t. split; [done|].
  eapply (run_Treaps SWO); [apply Good_init|apply Treaps_init|..]; done.
Qed.












(** * Further properties of the code *)

(** ** Reading: [Range], [Get], [Empty] *)














(** ** Handles do not interfere *)



(** ** Reference counts *)

Lemma no_roots_no_live w recs a n :
  Good w recs -> wrapped (wheap w) = false ->
  Forall (fun pm => root pm = None) (handles w) ->
  nodes (wheap w) !! a = Some n -> refCount n = 0.
Proof.
  intros G Wr Hall Hn. pose proof (g_inv _ _ G Wr) as C.
  destruct (decide (0 < refCount n)) as [Hl|Hl].
  - pose proof (live_reach _ _ _ _ (g_wf _ _ G) C (length (nodes (wheap w)))
                  a n ltac:(lia) Hn Hl) as Hre.
    apply reach_split in Hre as (r & Hr & _).
    unfold roots in Hr. apply list_elem_of_fmap in Hr as (pm & Hpm & Hin).
    rewrite Forall_forall in Hall. rewrite (Hall _ Hin) in Hpm. done.
  - pose proof (c_rc _ _ _ _ C _ _ Hn) as Hrc.
    pose proof (mult_nonneg (roots w) a). pose proof (indeg_nonneg (wheap w) a).
    lia.
Qed.

(** X4. In any world a program reaches in which every handle has been
    cleared or destroyed, nothing is left alive (unless a counter wrapped):
    every node ever allocated has reference count 0, and every payload has
    reference count 0 with its value and its callback set to nil. *)
Theorem all_destroyed_all_dead ops w :
  run ops init = Some w ->
  Forall (fun pm => root pm = None) (handles w) ->
  wrapped (wheap w) = false ->
  (forall a n, nodes (wheap w) !! a = Some n -> refCount n = 0) /\
  (forall p v, vals (wheap w) !! p = Some v ->
     vRefCount v = 0 /\ vValue v = None /\ vRelease v = None).
Proof.
  intros Hr Hall Wr. pose proof (run_init _ _ Hr) as G.
  pose proof (g_inv _ _ G Wr) as C.
  split; [intros a n Hn; by eapply no_roots_no_live|].
  intros p v Hv.
  assert (vRefCount v = 0) as Hz.
  { rewrite (c_vrc _ _ _ _ C _ _ Hv). unfold cnt, pdeg. simpl.
    apply sumZ_zero. intros a n Hn. unfold holds, live.
    by rewrite (no_roots_no_live _ _ _ _ G Wr Hall Hn). }
  split; [done|].
  destruct (lookup_lt_is_Some_2 (created ops) p) as [[[k x] r] Hrec].
  { rewrite (c_len _ _ _ _ C). by eapply lookup_lt_Some. }
  pose proof (c_val _ _ _ _ C _ _ _ _ _ Hv Hrec) as Hcv.
  by rewrite Hz in Hcv.
Qed.


(** X5. In any world a program reaches and unless a counter wrapped, the
    counters are exact: a node's reference count is the number of handles
    whose root it is plus the number of child pointers to it from live
    nodes, a payload's reference count is the number of live nodes that
    hold it, a node is live exactly when it can be reached from the root of
    some handle, and the payload of a live node still has the value and the
    callback it was created with. *)
Theorem counts_exact ops w :
  run ops init = Some w -> wrapped (wheap w) = false ->
  (forall a n, nodes (wheap w) !! a = Some n ->
     refCount n = mult (roots w) a + indeg (wheap w) a /\
     (0 < refCount n <-> reach (wheap w) (roots w) a) /\
     (0 < refCount n ->
      exists v x r, vals (wheap w) !! value n = Some v /\
        0 < vRefCount v /\ vValue v = Some x /\ vRelease v = r /\
        created ops !! value n = Some (key n, x, r))) /\
  (forall p v, vals (wheap w) !! p = Some v ->
     vRefCount v = pdeg (wheap w) p).
Proof.
  intros Hr Wr. pose proof (run_init _ _ Hr) as G.
  pose proof (g_inv _ _ G Wr) as C. split.
  - intros a n Hn. split_ands.
    + by apply (c_rc _ _ _ _ C).
    + split.
      * intros Hl.
        by apply (live_reach _ _ _ _ (g_wf _ _ G) C
                    (length (nodes (wheap w))) a n ltac:(lia)).
      * intros Hre. destruct (reach_live _ _ _ _ _ C Hre) as (n' & Hn' & Hl).
        rewrite Hn in Hn'. by injection Hn' as <-.
    + intros Hl. destruct (live_payload _ _ _ _ _ _ C Hn Hl) as (v & Hv & Hvl).
      destruct (c_key _ _ _ _ C _ _ Hn) as (x & r & Hrec).
      pose proof (c_val _ _ _ _ C _ _ _ _ _ Hv Hrec) as Hcv.
      apply Z.ltb_lt in Hvl as Hb. rewrite Hb in Hcv. destruct Hcv as [? ?].
      by exists v, x, r.
  - intros p v Hv. rewrite (c_vrc _ _ _ _ C _ _ Hv). unfold cnt. simpl. lia.
Qed.


(** X6. In any world a program reaches and unless a counter wrapped, every
    call of a release callback made so far was made with the callback, the
    key and the value of one binding the program created by
    [SetWithRelease], and that binding is no longer shown by any handle;
    so a binding set without a callback never causes a call. *)
Theorem release_calls_sound ops w e :
  run ops init = Some w -> wrapped (wheap w) = false ->
  e ∈ trace (wheap w) ->
  created ops !! ePayload e = Some (eKey e, eValue e, Some (eRelease e)) /\
  ~ held w (ePayload e).
Proof.
  intros Hr Wr He. pose proof (run_init _ _ Hr) as G.
  pose proof (g_inv _ _ G Wr) as C.
  apply (c_trace _ _ _ _ C) in He as (v & Hv & Hz & Hrec).
  split; [done|]. intros Hh.
  destruct (held_live _ _ _ G Wr Hh) as (v' & Hv' & Hl).
  rewrite Hv in Hv'. injection Hv' as <-. lia.
Qed.


Lemma mult_two R i j a :
  R !! i = Some (Some a) -> R !! j = Some (Some a) -> i <> j ->
  2 <= mult R a.
Proof.
  intros Hi Hj Hij.
  assert (0 < mult (<[i := None]> R) a) as Hpos.
  { apply mult_pos_elem. apply (list_elem_of_lookup_2 _ j).
    by rewrite list_lookup_insert_ne. }
  unfold mult in *. rewrite (sumZ_insert _ _ _ _ _ Hi) in Hpos.
  simpl in Hpos. rewrite decide_True in Hpos by done. lia.
Qed.

(** [decref] of a node that has another reference only lowers its
    counter. *)
Lemma decref_shared a h h' n :
  decref (Some a) h = Some (tt, h') -> wrapped h' = false ->
  nodes h !! a = Some n -> 2 <= refCount n ->
  h' = Heap (<[a := set_refCount n (refCount n - 1)]> (nodes h))
            (vals h) (trace h) false.
Proof.
  unfold decref. intros H W' Hn Hrc.
  destruct (length (nodes h)) as [|f] eqn:Hlen.
  { apply lookup_lt_Some in Hn. lia. }
  simpl in H. apply bind_Some in H as (c & h1 & Hadd & H).
  destruct (c =? 0) eqn:Hc.
  - apply Z.eqb_eq in Hc. subst c.
    apply bind_Some in H as (n1 & h1' & Hld & H).
    unfold load_node in Hld.
    destruct (nodes h1 !! a) as [n1'|] eqn:Hn1; [|done].
    injection Hld as -> <-.
    apply bind_Some in H as (c2 & h2 & Hv & H).
    apply bind_Some in H as ([] & h3 & Hfrag & H).
    apply bind_Some in H as ([] & h4 & Hl & Hr).
    pose proof (Ext_decref_f _ _ _ _ _ Hr) as E4.
    pose proof (Ext_decref_f _ _ _ _ _ Hl) as E3.
    pose proof (Ext_release_last _ (key n1) _ _ _ _ Hfrag) as E2.
    pose proof (Ext_add_val_ref _ _ _ _ _ Hv) as E1.
    pose proof (ext_wrapped _ _ E4 W') as W4.
    pose proof (ext_wrapped _ _ E3 W4) as W3.
    pose proof (ext_wrapped _ _ E2 W3) as W2.
    pose proof (ext_wrapped _ _ E1 W2) as W1.
    destruct (add_node_ref_inv _ _ _ _ _ _ Hadd Hn W1) as (Hceq & _ & _).
    lia.
  - injection H as <-.
    destruct (add_node_ref_inv _ _ _ _ _ _ Hadd Hn W') as (-> & _ & ->).
    by replace (refCount n + -1) with (refCount n - 1) by lia.
Qed.

(** X7. In any world a program reaches, [Destroy] (or [Clear]) of a handle
    whose root is also the root of another handle returns, and (unless a
    counter wrapped) it only lowers the reference count of that root by one:
    no callback is called, no payload changes, and no other node changes. *)
Theorem Destroy_shared ops w i j pm a :
  run ops init = Some w ->
  handles w !! i = Some pm -> handles w !! j = Some pm -> i <> j ->
  root pm = Some a ->
  exists w' n,
    step (ODestroy i) w = Some w' /\ step (OClear i) w = Some w' /\
    nodes (wheap w) !! a = Some n /\
    handles w' = <[i := NewPMap]> (handles w) /\
    (wrapped (wheap w') = false ->
     trace (wheap w') = trace (wheap w) /\
     vals (wheap w') = vals (wheap w) /\
     nodes (wheap w') =
       <[a := set_refCount n (refCount n - 1)]> (nodes (wheap w))).
Proof.
  intros Hr Hi Hj Hij Ha. pose proof (run_init _ _ Hr) as G.
  destruct (step_Clear _ _ _ _ G Hi) as (h' & Hc & Hd & G' & E).
  pose proof (g_valid _ _ G pm (list_elem_of_lookup_2 _ _ _ Hi)) as Hv.
  rewrite Ha in Hv. simpl in Hv.
  destruct (lookup_lt_is_Some_2 _ _ Hv) as [n Hn].
  eexists _, n. split_ands; [exact Hd|exact Hc|done|done|].
  simpl. intros Wr'. pose proof (ext_wrapped _ _ E Wr') as Wr.
  pose proof (g_inv _ _ G Wr) as C.
  assert (2 <= refCount n) as Hrc.
  { rewrite (c_rc _ _ _ _ C _ _ Hn).
    pose proof (mult_two (roots w) i j a) as H2.
    pose proof (indeg_nonneg (wheap w) a).
    unfold roots in H2. rewrite !list_lookup_fmap, Hi, Hj in H2.
    simpl in H2. rewrite Ha in H2.
    specialize (H2 eq_refl eq_refl Hij). unfold roots. lia. }
  simpl in Hc. rewrite Hi in Hc. unfold update, Clear, bind in Hc.
  rewrite Ha in Hc.
  destruct (decref (Some a) (wheap w)) as [[[] h2]|] eqn:Hdec; [|done].
  simpl in Hc. injection Hc as <-.
  by rewrite (decref_shared _ _ _ _ Hdec Wr' Hn Hrc).
Qed.

(** X8. In any world a program reaches, [Clone] of a handle followed by
    [Destroy] of the clone returns, and (unless a counter wrapped) leaves
    the heap exactly as it was before the [Clone]: every node and payload
    counter, every field and the list of callback calls. *)
Theorem Clone_Destroy_roundtrip ops w i pm :
  run ops init = Some w -> handles w !! i = Some pm ->
  exists w1 w2,
    step (OClone i) w = Some w1 /\
    step (ODestroy (length (handles w))) w1 = Some w2 /\
    handles w2 = handles w ++ [NewPMap] /\
    (wrapped (wheap w2) = false -> wheap w2 = wheap w).
Proof.
  intros Hr Hi. pose proof (run_init _ _ Hr) as G.
  destruct (step_Clone _ _ _ _ G Hi) as (h1 & Hs1 & G1 & E1).
  set (w1 := World h1 (handles w ++ [pm])) in *.
  assert (handles w1 !! length (handles w) = Some pm) as Hl.
  { simpl. rewrite lookup_app_r, Nat.sub_diag by lia. done. }
  destruct (step_Clear _ _ _ _ G1 Hl) as (h2 & Hc & Hd & G2 & E2).
  exists w1, (World h2 (<[length (handles w) := NewPMap]> (handles w1))).
  split_ands; [done|done| |].
  { simpl. rewrite insert_app_r_alt, Nat.sub_diag by lia. done. }
  simpl. intros Wr2.
  pose proof (ext_wrapped _ _ E2 Wr2) as Wr1. simpl in Wr1.
  pose proof (ext_wrapped _ _ E1 Wr1) as Wr.
  simpl in Hs1, Hc. rewrite Hi in Hs1.
  rewrite lookup_app_r, Nat.sub_diag in Hc by lia. simpl in Hc.
  unfold update, Clear, bind in Hc. simpl in Hc.
  unfold Clone, bind in Hs1.
  destruct (wheap w) as [ns vs tr wr] eqn:Hw. simpl in Wr. subst wr.
  destruct (root pm) as [a|] eqn:Ha; simpl in Hs1.
  - unfold bind in Hs1.
    destruct (add_node_ref a 1 (Heap ns vs tr false)) as [[c h1']|] eqn:Hadd;
      [|done].
    simpl in Hs1. injection Hs1 as -> _.
    destruct (decref (Some a) h1) as [[[] h2']|] eqn:Hdec; [|done].
    simpl in Hc. injection Hc as <-.
    pose proof (g_valid _ _ G pm (list_elem_of_lookup_2 _ _ _ Hi)) as Hv.
    rewrite Ha, Hw in Hv. simpl in Hv.
    destruct (lookup_lt_is_Some_2 _ _ Hv) as [n Hn].
    destruct (add_node_ref_inv _ _ _ _ _ _ Hadd Hn Wr1) as (-> & _ & Hh1).
    simpl in Hh1.
    assert (1 <= refCount n) as Hrc.
    { assert (wrapped (wheap w) = false) as Wr by (by rewrite Hw).
      pose proof (g_inv _ _ G Wr) as C. rewrite Hw in C.
      rewrite (c_rc _ _ _ _ C _ _ Hn).
      pose proof (indeg_nonneg (Heap ns vs tr false) a).
      assert (0 < mult (roots w) a); [|lia].
      apply mult_pos_elem. rewrite <- Ha. by eapply handle_root_in. }
    assert (nodes h1 !! a = Some (set_refCount n (refCount n + 1))) as Hn1.
    { rewrite Hh1. simpl. by apply list_lookup_insert_eq. }
    rewrite (decref_shared _ _ _ _ Hdec Wr2 Hn1) by (simpl; lia).
    rewrite Hh1. simpl. rewrite list_insert_insert_eq. f_equal.
    apply list_insert_id. rewrite Hn. f_equal. destruct n.
    unfold set_refCount. simpl. f_equal. lia.
  - injection Hs1 as <-.
    unfold decref in Hc. simpl in Hc.
    destruct (length ns); simpl in Hc; by injection Hc as <-.
Qed.


(** ** The three treap primitives *)

(** X9. Under a strict weak order, in a well-formed heap, [split] without
    [requireMid] of a search tree [n] at [key] returns three trees and
    leaves [n] as it was: read in order, left, mid and right are the
    bindings of [n]; every key of left is less than [key] and every key of
    right is greater; mid is nil or a single childless node whose key is
    equivalent to [key]; left and right are search trees, and heap-ordered
    when [n] is. *)
Theorem split_spec h n t k :
  StrictWeakOrder -> wfh h -> shape h n t -> bst t ->
  exists l m r h' tl tm tr,
    split n k false h = Some ((l, m, r), h') /\
    shape h' l tl /\ shape h' m tm /\ shape h' r tr /\ shape h' n t /\
    items t = items tl ++ items tm ++ items tr /\
    (forall x, x ∈ keys tl -> less x k = true) /\
    (forall x, x ∈ keys tr -> less k x = true) /\
    (tm = Leaf \/ exists k' p w, tm = Node Leaf k' p w Leaf /\ equiv k' k) /\
    bst tl /\ bst tr /\
    (heap_ord t -> heap_ord tl /\ heap_ord tr).
Proof.
  intros SWO W St B.
  destruct (wp_split n t k false h
    (fun x h' => ext h h' /\ shape h' x.1.1 (psplit t k).1.1 /\
                 shape h' x.1.2 (psplit t k).1.2 /\
                 shape h' x.2 (psplit t k).2) W St)
    as ([[l m] r] & h' & Hs & E & Sl & Sm & Sr).
  { intros l m r h' E _. rewrite psplit_rm_false. by intros. }
  simpl in *.
  destruct (psplit_bounds SWO t k B) as [Hl Hr].
  destruct (psplit_bst t k B) as (Bl & _ & Br).
  exists l, m, r, h', (psplit t k).1.1, (psplit t k).1.2, (psplit t k).2.
  split_ands; try done.
  - by eapply shape_ext.
  - apply psplit_items.
  - apply psplit_mid.
  - intros Ho. destruct (psplit_heap t k Ho) as [(? & _ & ?) _]. done.
Qed.

(** X10. In a well-formed heap, [merge] of two trees returns a tree and
    leaves both arguments as they were: read in order, the result is the
    bindings of left followed by those of right; it is heap-ordered when
    both arguments are, and a search tree when both are and every key of
    left is less than every key of right. *)
Theorem merge_spec h l r tl tr :
  wfh h -> shape h l tl -> shape h r tr ->
  exists res h' t,
    merge l r h = Some (res, h') /\
    shape h' res t /\ shape h' l tl /\ shape h' r tr /\
    items t = items tl ++ items tr /\
    (heap_ord tl -> heap_ord tr -> heap_ord t) /\
    (bst tl -> bst tr ->
     (forall x y, x ∈ keys tl -> y ∈ keys tr -> less x y = true) -> bst t).
Proof.
  intros W Sl Sr.
  destruct (wp_merge l r tl tr h
    (fun res h' => ext h h' /\ shape h' res (pmerge tl tr)) W Sl Sr)
    as (res & h' & Hm & E & Sm); [done|].
  exists res, h', (pmerge tl tr).
  split_ands; try done; try (by eapply shape_ext).
  - apply pmerge_items.
  - intros Hl Hr. by destruct (pmerge_heap tl tr Hl Hr).
  - apply pmerge_bst.
Qed.

(** X11. Under a strict weak order, in a well-formed heap, [union] of two
    trees returns a tree and leaves both arguments as they were.  A lookup
    in the result finds what it finds in [second], else what it finds in
    [first], when [overwrite] is set, and the other way round when it is
    not; every binding of the result is a binding of one of the arguments;
    the result is a search tree when both arguments are, and heap-ordered
    when both are. *)
Theorem union_spec h a b ta tb ow :
  StrictWeakOrder -> wfh h -> shape h a ta -> shape h b tb ->
  exists res h' t,
    union a b ow h = Some (res, h') /\
    shape h' res t /\ shape h' a ta /\ shape h' b tb /\
    (forall x, pget t x =
       if ow then por (pget tb x) (pget ta x)
       else por (pget ta x) (pget tb x)) /\
    (forall kp, kp ∈ items t -> kp ∈ items ta \/ kp ∈ items tb) /\
    (bst ta -> bst tb -> bst t) /\
    (heap_ord ta -> heap_ord tb -> heap_ord t).
Proof.
  intros SWO W Sa Sb.
  destruct (wp_union a b ta tb ow h
    (fun res h' => ext h h' /\ shape h' res (punion h ta tb ow)) W Sa Sb)
    as (res & h' & Hu & E & Su); [done|].
  pose proof (shape_height_len _ _ _ W Sa).
  pose proof (shape_height_len _ _ _ W Sb).
  assert (height ta + height tb <= 2 * length (nodes h))%nat as Hf by lia.
  exists res, h', (punion h ta tb ow). unfold punion in *.
  split_ands; try done; try (by eapply shape_ext).
  - intros x. by apply (punion_pget SWO).
  - by apply punion_items.
  - by apply (punion_bst SWO).
  - intros Ha Hb. by destruct (punion_heap _ _ _ ow Hf Ha Hb).
Qed.


(** ** What [Set] and [Delete] do to the [Range] sequence *)
















(** ** Updates leave the other keys alone *)



(** ** No call panics *)



(** ** Borrowing: the counters depend on the roots alone *)

Lemma sumZ_prefix {A} (f g : A -> Z) (l' : list A) : forall l,
  (forall i x', l' !! i = Some x' ->
     g x' = match l !! i with Some x => f x | None => 0 end) ->
  (length l <= length l')%nat ->
  sumZ g l' = sumZ f l.
Proof.
  induction l' as [|x' l' IH]; intros [|x l] H Hlen; simpl in *; try lia.
  - rewrite (H 0%nat x' eq_refl), (IH []); [done| |simpl; lia].
    intros i y Hy. by rewrite (H (S i) y Hy).
  - rewrite (H 0%nat x' eq_refl), (IH l); [done| |lia].
    intros i y Hy. by rewrite (H (S i) y Hy).
Qed.

(** Two exact heaps with the same roots, one later than the other, have
    the same counter in every node of the earlier one, and only dead nodes
    besides. *)
Lemma counted_same h h' R Q recs recs' :
  ext h h' -> wfh h -> wfh h' ->
  counted h R Q recs -> counted h' R Q recs' ->
  forall d a n', (length (nodes h') - a <= d)%nat ->
    nodes h' !! a = Some n' ->
    refCount n' = match nodes h !! a with
                  | Some n => refCount n
                  | None => 0
                  end.
Proof.
  intros E W W' C C'. induction d as [|d IH]; intros a n' Hd Hn'.
  { apply lookup_lt_Some in Hn'. lia. }
  rewrite (c_rc _ _ _ _ C' _ _ Hn').
  assert (indeg h' a = indeg h a) as ->.
  { unfold indeg. apply sumZ_prefix; [|apply (ext_nlen _ _ E)].
    intros b nb' Hb'.
    destruct (decide (b <= a)%nat) as [Hle|Hgt].
    - assert (edges a nb' = 0) as ->.
      { unfold edges. destruct (live nb'); [|done]. unfold delta.
        destruct (left nb') as [c|] eqn:Hl, (right nb') as [c'|] eqn:Hr;
          repeat case_decide; subst; try done;
          try (pose proof (wf_left _ W' _ _ _ Hb' Hl); lia);
          try (pose proof (wf_right _ W' _ _ _ Hb' Hr); lia). }
      destruct (nodes h !! b) as [nb|] eqn:Hb; [|done].
      unfold edges. destruct (live nb); [|done]. unfold delta.
      destruct (left nb) as [c|] eqn:Hl, (right nb) as [c'|] eqn:Hr;
        repeat case_decide; subst; try done;
        try (pose proof (wf_left _ W _ _ _ Hb Hl); lia);
        try (pose proof (wf_right _ W _ _ _ Hb Hr); lia).
    - pose proof (IH b nb' ltac:(lia) Hb') as Hrc.
      destruct (nodes h !! b) as [nb|] eqn:Hb.
      + destruct (ext_lookup _ _ _ _ E Hb) as (nb2 & Hb2 & _ & _ & _ & Hl & Hr).
        rewrite Hb' in Hb2. injection Hb2 as <-.
        unfold edges, live. by rewrite Hrc, Hl, Hr.
      + unfold edges, live. by rewrite Hrc. }
  destruct (nodes h !! a) as [n|] eqn:Hn.
  - by rewrite (c_rc _ _ _ _ C _ _ Hn).
  - assert (mult R a = 0) as ->.
    { pose proof (mult_nonneg R a).
      destruct (decide (0 < mult R a)) as [Hp|]; [|lia].
      pose proof (c_roots _ _ _ _ C _ Hp) as Hlt.
      apply lookup_lt_is_Some_2 in Hlt as [? Hlt]. congruence. }
    assert (indeg h a = 0) as ->; [|done].
    unfold indeg. apply sumZ_zero. intros b nb Hb.
    apply lookup_ge_None_1 in Hn. pose proof (lookup_lt_Some _ _ _ Hb).
    unfold edges. destruct (live nb); [|done]. unfold delta.
    destruct (left nb) as [c|] eqn:Hl, (right nb) as [c'|] eqn:Hr;
      repeat case_decide; subst; try done;
      try (pose proof (wf_left _ W _ _ _ Hb Hl); lia);
      try (pose proof (wf_right _ W _ _ _ Hb Hr); lia).
Qed.

(** [restored h h']: [h'] is [h] with some dead nodes added. *)
Definition restored (h h' : heap) : Prop :=
  (forall a n, nodes h !! a = Some n -> nodes h' !! a = Some n) /\
  (forall a n', nodes h' !! a = Some n' -> (length (nodes h) <= a)%nat ->
     refCount n' = 0) /\
  vals h' = vals h /\ trace h' = trace h.

Lemma counted_restored h h' R recs :
  ext h h' -> wfh h -> wfh h' ->
  counted h R [] recs -> counted h' R [] recs ->
  restored h h'.
Proof.
  intros E W W' C C'.
  pose proof (counted_same _ _ _ _ _ _ E W W' C C') as Hsame.
  assert (forall a n', nodes h' !! a = Some n' ->
            refCount n' = match nodes h !! a with
                          | Some n => refCount n
                          | None => 0
                          end) as Hrc.
  { intros a n' Hn'. apply (Hsame (length (nodes h')) a); [lia|done]. }
  assert (vals h' = vals h) as Hvals.
  { apply list_eq. intros p.
    assert (length (vals h') = length (vals h)) as Hlen
      by (rewrite <- (c_len _ _ _ _ C), <- (c_len _ _ _ _ C'); done).
    destruct (vals h !! p) as [v|] eqn:Hv.
    - pose proof (lookup_lt_Some _ _ _ Hv) as Hp.
      destruct (lookup_lt_is_Some_2 (vals h') p) as [v' Hv']; [lia|].
      rewrite Hv'. f_equal.
      destruct (lookup_lt_is_Some_2 recs p) as [[[k x] r] Hrec].
      { by rewrite (c_len _ _ _ _ C). }
      pose proof (c_val _ _ _ _ C _ _ _ _ _ Hv Hrec) as Hcv.
      pose proof (c_val _ _ _ _ C' _ _ _ _ _ Hv' Hrec) as Hcv'.
      assert (vRefCount v' = vRefCount v) as Heq.
      { rewrite (c_vrc _ _ _ _ C _ _ Hv), (c_vrc _ _ _ _ C' _ _ Hv').
        f_equal. unfold pdeg. apply sumZ_prefix; [|apply (ext_nlen _ _ E)].
        intros b nb' Hb'. pose proof (Hrc b nb' Hb') as Hb.
        destruct (nodes h !! b) as [nb|] eqn:Hnb.
        - destruct (ext_lookup _ _ _ _ E Hnb) as (nb2 & Hb2 & _ & Hval & _).
          rewrite Hb' in Hb2. injection Hb2 as <-.
          unfold holds, live. by rewrite Hb, Hval.
        - unfold holds, live. by rewrite Hb. }
      rewrite Heq in Hcv'. destruct v as [c x1 r1], v' as [c' x2 r2].
      simpl in *. subst c'.
      destruct (0 <? c); destruct Hcv as [-> ->], Hcv' as [-> ->]; done.
    - apply lookup_ge_None_2. apply lookup_ge_None_1 in Hv. lia. }
  unfold restored. split_ands; [| |done|].
  - intros a n Hn. destruct (ext_lookup _ _ _ _ E Hn)
      as (n' & Hn' & Hk & Hv & Hw & Hl & Hr).
    pose proof (Hrc a n' Hn') as H. rewrite Hn in H. rewrite Hn'. f_equal.
    destruct n, n'. simpl in *. by subst.
  - intros a n' Hn' Hge. rewrite (Hrc a n' Hn').
    by rewrite (lookup_ge_None_2 _ _ Hge).
  - destruct (ext_trace _ _ E) as [t Ht]. rewrite Ht.
    destruct t as [|e t]; [by rewrite app_nil_r|].
    assert (e ∈ trace h') as He
      by (rewrite Ht; apply elem_of_app; right; by left).
    apply (c_trace _ _ _ _ C') in He. rewrite Hvals in He.
    apply (c_trace _ _ _ _ C) in He.
    pose proof (c_nodup _ _ _ _ C') as Hnd. rewrite Ht, fmap_app in Hnd.
    apply NoDup_app in Hnd as (_ & Hnd & _).
    destruct (Hnd (ePayload e)).
    + apply list_elem_of_fmap. by exists e.
    + rewrite fmap_cons. by left.
Qed.


(** X18. [split(n:-0) (left:+1, mid:+1, right:+1)].  In any world a
    program reaches, [split] of the tree of a handle, with or without
    [requireMid], returns, and so do the three [decref] calls that give its
    results back; after them (unless a counter wrapped) every node and
    payload that existed before the [split] is exactly as it was, no
    callback was called, and every node the [split] allocated is dead. *)
Theorem split_borrows ops w i pm k rm :
  run ops init = Some w -> handles w !! i = Some pm ->
  exists l m r h1 h2,
    split (root pm) k rm (wheap w) = Some ((l, m, r), h1) /\
    (decref l ;; decref m ;; decref r) h1 = Some (tt, h2) /\
    (wrapped h2 = false -> restored (wheap w) h2).
Proof.
  intros Hr Hi. pose proof (run_init _ _ Hr) as G.
  destruct (handle_shape _ _ _ _ G Hi) as [t St].
  pose proof (g_wf _ _ G) as W.
  destruct (wp_split (root pm) t k rm (wheap w)
    (fun x h1 => ext (wheap w) h1 /\ wfh h1 /\ valid h1 x.1.1 /\
                 valid h1 x.1.2 /\ valid h1 x.2) W St)
    as ([[l m] r] & h1 & Hs & E1 & W1 & Vl & Vm & Vr).
  { intros l m r h1 E1 W1 Sl Sm Sr. simpl.
    split_ands; try done; by eapply shape_valid. }
  simpl in *.
  destruct (wp_decref l h1 (fun _ h' => ext h1 h' /\ wfh h') W1 Vl)
    as ([] & ha & Hd1 & Ea & Wa); [done|].
  destruct (wp_decref m ha (fun _ h' => ext ha h' /\ wfh h') Wa
              (valid_ext _ _ _ Ea Vm)) as ([] & hb & Hd2 & Eb & Wb); [done|].
  destruct (wp_decref r hb (fun _ h' => ext hb h' /\ wfh h') Wb
              (valid_ext _ _ _ Eb (valid_ext _ _ _ Ea Vr)))
    as ([] & h2 & Hd3 & E2 & W2); [done|].
  exists l, m, r, h1, h2. split_ands; [done| |].
  { unfold bind. by rewrite Hd1, Hd2. }
  intros Wr2.
  assert (ext (wheap w) h2) as E by eauto using ext_trans.
  pose proof (ext_wrapped _ _ E Wr2) as Wr.
  assert (reacho (wheap w) (roots w) (root pm)) as Hre
    by (apply reacho_root; by eapply handle_root_in).
  pose proof (Inv_split _ _ _ _ _ _ _ _ _ _ _ Hs Hre (g_inv _ _ G)) as I1.
  pose proof (Inv_decref _ _ _ _ _ _ _ Hd1 I1) as Ia.
  pose proof (Inv_decref _ _ _ _ _ _ _ Hd2 Ia) as Ib.
  pose proof (Inv_decref _ _ _ _ _ _ _ Hd3 Ib) as I2.
  exact (counted_restored _ _ _ _ E W W2 (g_inv _ _ G Wr) (I2 Wr2)).
Qed.

(** X19. [merge(left:-0, right:-0) (result:+1)].  In any world a program
    reaches, [merge] of the trees of two handles returns, and so does the
    [decref] that gives its result back; after it (unless a counter
    wrapped) every node and payload that existed before the [merge] is
    exactly as it was, no callback was called, and every node the [merge]
    allocated is dead. *)
Theorem merge_borrows ops w i j pl pr :
  run ops init = Some w ->
  handles w !! i = Some pl -> handles w !! j = Some pr ->
  exists res h1 h2,
    merge (root pl) (root pr) (wheap w) = Some (res, h1) /\
    decref res h1 = Some (tt, h2) /\
    (wrapped h2 = false -> restored (wheap w) h2).
Proof.
  intros Hr Hi Hj. pose proof (run_init _ _ Hr) as G.
  destruct (handle_shape _ _ _ _ G Hi) as [tl Sl].
  destruct (handle_shape _ _ _ _ G Hj) as [tr Sr].
  pose proof (g_wf _ _ G) as W.
  destruct (wp_merge (root pl) (root pr) tl tr (wheap w)
    (fun res h1 => ext (wheap w) h1 /\ wfh h1 /\ valid h1 res) W Sl Sr)
    as (res & h1 & Hm & E1 & W1 & Vres).
  { intros res h1 E1 W1 Sres. split_ands; try done. by eapply shape_valid. }
  destruct (wp_decref res h1 (fun _ h' => ext h1 h' /\ wfh h') W1 Vres)
    as ([] & h2 & Hd & E2 & W2); [done|].
  exists res, h1, h2. split_ands; [done..|]. intros Wr2.
  assert (ext (wheap w) h2) as E by eauto using ext_trans.
  pose proof (ext_wrapped _ _ E Wr2) as Wr.
  assert (reacho (wheap w) (roots w) (root pl)) as Hl
    by (apply reacho_root; by eapply handle_root_in).
  assert (reacho (wheap w) (roots w) (root pr)) as Hrr
    by (apply reacho_root; by eapply handle_root_in).
  pose proof (Inv_merge _ _ _ _ _ _ _ _ Hm Hl Hrr (g_inv _ _ G)) as I1.
  pose proof (Inv_decref _ _ _ _ _ _ _ Hd I1) as I2.
  exact (counted_restored _ _ _ _ E W W2 (g_inv _ _ G Wr) (I2 Wr2)).
Qed.

(** X20. [union(first:-0, second:-0) (result:+1)].  In any world a
    program reaches, [union] of the trees of two handles, with either
    value of [overwrite], returns, and so does the [decref] that gives its
    result back; after it (unless a counter wrapped) every node and payload
    that existed before the [union] is exactly as it was, no callback was
    called, and every node the [union] allocated is dead. *)
Theorem union_borrows ops w i j pa pb ow :
  run ops init = Some w ->
  handles w !! i = Some pa -> handles w !! j = Some pb ->
  exists res h1 h2,
    union (root pa) (root pb) ow (wheap w) = Some (res, h1) /\
    decref res h1 = Some (tt, h2) /\
    (wrapped h2 = false -> restored (wheap w) h2).
Proof.
  intros Hr Hi Hj. pose proof (run_init _ _ Hr) as G.
  destruct (handle_shape _ _ _ _ G Hi) as [ta Sa].
  destruct (handle_shape _ _ _ _ G Hj) as [tb Sb].
  pose proof (g_wf _ _ G) as W.
  destruct (wp_union (root pa) (root pb) ta tb ow (wheap w)
    (fun res h1 => ext (wheap w) h1 /\ wfh h1 /\ valid h1 res) W Sa Sb)
    as (res & h1 & Hu & E1 & W1 & Vres).
  { intros res h1 E1 W1 Sres. split_ands; try done. by eapply shape_valid. }
  destruct (wp_decref res h1 (fun _ h' => ext h1 h' /\ wfh h') W1 Vres)
    as ([] & h2 & Hd & E2 & W2); [done|].
  exists res, h1, h2. split_ands; [done..|]. intros Wr2.
  assert (ext (wheap w) h2) as E by eauto using ext_trans.
  pose proof (ext_wrapped _ _ E Wr2) as Wr.
  assert (reacho (wheap w) (roots w) (root pa)) as Ha
    by (apply reacho_root; by eapply handle_root_in).
  assert (reacho (wheap w) (roots w) (root pb)) as Hb
    by (apply reacho_root; by eapply handle_root_in).
  pose proof (Inv_union _ _ _ _ _ _ _ _ _ Hu Ha Hb (g_inv _ _ G)) as I1.
  pose proof (Inv_decref _ _ _ _ _ _ _ Hd I1) as I2.
  exact (counted_restored _ _ _ _ E W W2 (g_inv _ _ G Wr) (I2 Wr2)).
Qed.

End PMap.

(** * Instances: integer keys *)

Module Example.


(** The map [{1: 10, 2: 20}] built by two [Set] calls with weights 50 and
    70, both bindings with callback 0. *)
Definition prog12 : list (@op Z nat nat) :=
  [ONew; OSetWithRelease 0 1 10%nat (Some 0%nat) 50;
   OSetWithRelease 0 2 20%nat (Some 0%nat) 70].

Definition w12 : @world Z nat nat :=
  Eval vm_compute in
    match run Z.ltb prog12 init with
    | Some w => w
    | None => init
    end.

Definition h12 : @heap Z nat nat := wheap w12.

Definition t12 : @tree Z :=
  Node (Node Leaf 1 0%nat 50 Leaf) 2 1%nat 70 Leaf.

Lemma run_prog12 : run Z.ltb prog12 init = Some w12.
Proof. vm_compute. reflexivity. Qed.

Lemma Good_w12 : Good w12 (created prog12).
Proof. apply (run_init Z.ltb), run_prog12. Qed.

Lemma shape_t12 : shape h12 (Some 3%nat) t12.
Proof.
  apply (shape_node h12 3%nat (MapNode 2 1%nat 70 1 (Some 2%nat) None));
    [reflexivity| |constructor].
  apply (shape_node h12 2%nat (MapNode 1 0%nat 50 1 None None));
    [reflexivity|constructor..].
Qed.

Lemma split_short_circuit_no_leak_witness :
  split Z.ltb (Some 3%nat) 7 true h12 = Some ((None, None, None), h12) /\
  (@None nat = None /\ @None nat = None /\ h12 = h12).
Proof.
  split; [vm_compute; reflexivity|].
  apply (split_short_circuit_no_leak Z.ltb (Some 3%nat) 7 h12).
  vm_compute. reflexivity.
Defined.

Lemma Get_unbound_witness :
  Get Z.ltb 0%nat (MkPMap (Some 3%nat)) 7 h12 = Some ((0%nat, false), h12).
Proof.
  apply (Get_unbound Z.ltb 0%nat h12 (MkPMap (Some 3%nat)) t12 7).
  - apply (g_wf _ _ Good_w12).
  - apply shape_t12.
  - intros k' Hk [E1 E2]. simpl in Hk.
    apply elem_of_cons in Hk as [->|Hk]; [done|].
    apply elem_of_cons in Hk as [->|Hk]; [done|].
    by apply not_elem_of_nil in Hk.
Defined.

Ltac conjs := repeat match goal with |- _ /\ _ => split end.

Lemma swo_Zltb : StrictWeakOrder Z.ltb.
Proof.
  split.
  - intros x. apply Z.ltb_irrefl.
  - intros x y z H1%Z.ltb_lt H2%Z.ltb_lt. apply Z.ltb_lt. lia.
  - intros x y z H1%Z.ltb_ge H2%Z.ltb_ge H3%Z.ltb_ge H4%Z.ltb_ge.
    split; apply Z.ltb_ge; lia.
Qed.

Lemma handle_w12 : handles w12 !! 0%nat = Some (MkPMap (Some 3%nat)).
Proof. reflexivity. Qed.

Lemma treap_invariant_witness :
  StrictWeakOrder Z.ltb /\
  run Z.ltb prog12 init = Some w12 /\
  handles w12 !! 0%nat = Some (MkPMap (Some 3%nat)) /\
  exists t, shape (wheap w12) (Some 3%nat) t /\ bst Z.ltb t /\ heap_ord t.
Proof.
  conjs; [apply swo_Zltb|apply run_prog12|apply handle_w12|].
  apply (treap_invariant Z.ltb prog12 w12 0%nat (MkPMap (Some 3%nat))
           swo_Zltb run_prog12 handle_w12).
Defined.






(** Two handles, [{1: 10, 2: 20}] and [{2: 21, 3: 30}]. *)
Definition prog2 : list (@op Z nat nat) :=
  prog12 ++ [ONew; OSetWithRelease 1 2 21%nat (Some 0%nat) 40;
             OSetWithRelease 1 3 30%nat (Some 0%nat) 90].

Definition w2 : @world Z nat nat :=
  Eval vm_compute in
    match run Z.ltb prog2 init with
    | Some w => w
    | None => init
    end.

Lemma run_prog2 : run Z.ltb prog2 init = Some w2.
Proof. vm_compute. reflexivity. Qed.

Definition other2 : PMap :=
  Eval vm_compute in
    match handles w2 !! 1%nat with
    | Some pm => pm
    | None => NewPMap
    end.

Lemma handle0_w2 : handles w2 !! 0%nat = Some (MkPMap (Some 3%nat)).
Proof. reflexivity. Qed.

Lemma handle1_w2 : handles w2 !! 1%nat = Some other2.
Proof. reflexivity. Qed.







(** ** Inputs for the further properties *)

Lemma treap_t12 : treap Z.ltb t12.
Proof.
  eapply (run_Treaps Z.ltb swo_Zltb prog12 init [] w12);
    [apply Good_init|apply Treaps_init|apply run_prog12|apply handle_w12|
     apply shape_t12].
Qed.

(** The left child of the root of [w12], and the dead node the second
    [Set] made for its binding. *)
Lemma shape_left12 : shape h12 (Some 2%nat) (Node Leaf 1 0%nat 50 Leaf).
Proof.
  apply (shape_node h12 2%nat (MapNode 1 0%nat 50 1 None None));
    [reflexivity|constructor..].
Qed.

Lemma shape_dead12 : shape h12 (Some 1%nat) (Node Leaf 2 1%nat 70 Leaf).
Proof.
  apply (shape_node h12 1%nat (MapNode 2 1%nat 70 0 None None));
    [reflexivity|constructor..].
Qed.

(** [w12] with its handle destroyed. *)
Definition prog12d : list (@op Z nat nat) := prog12 ++ [ODestroy 0].

Definition w12d : @world Z nat nat :=
  Eval vm_compute in
    match run Z.ltb prog12d init with
    | Some w => w
    | None => init
    end.

Lemma run_prog12d : run Z.ltb prog12d init = Some w12d.
Proof. vm_compute. reflexivity. Qed.

(** [w12] with a clone of its handle. *)
Definition prog12c : list (@op Z nat nat) := prog12 ++ [OClone 0].

Definition w12c : @world Z nat nat :=
  Eval vm_compute in
    match run Z.ltb prog12c init with
    | Some w => w
    | None => init
    end.

Lemma run_prog12c : run Z.ltb prog12c init = Some w12c.
Proof. vm_compute. reflexivity. Qed.

Lemma handle0_w12c : handles w12c !! 0%nat = Some (MkPMap (Some 3%nat)).
Proof. reflexivity. Qed.

Lemma handle1_w12c : handles w12c !! 1%nat = Some (MkPMap (Some 3%nat)).
Proof. reflexivity. Qed.



Lemma all_nil_w12d : Forall (fun pm => root pm = None) (handles w12d).
Proof. repeat constructor. Qed.

Lemma event_w12d : Event 0%nat 0%nat 1 10%nat ∈ trace (wheap w12d).
Proof. apply (list_elem_of_lookup_2 _ 1%nat). reflexivity. Qed.


(** ** The further properties at these inputs *)




Lemma all_destroyed_all_dead_witness :
  (forall (a : nat) (n : mapNode),
     nodes (wheap w12d) !! a = Some n -> refCount n = 0)
  /\ forall (p : nat) (v : refValue),
      vals (wheap w12d) !! p = Some v
      -> vRefCount v = 0 /\ vValue v = None /\ vRelease v = None.
Proof.
  exact (all_destroyed_all_dead Z.ltb prog12d w12d run_prog12d all_nil_w12d
    eq_refl).
Defined.

Lemma counts_exact_witness :
  (forall (a : nat) (n : mapNode),
     nodes (wheap w12) !! a = Some n
     -> refCount n = mult (roots w12) a + indeg (wheap w12) a
       /\ (0 < refCount n <-> reach (wheap w12) (roots w12) a)
         /\ (0 < refCount n
            -> exists (v : refValue) (x : nat) (r : option nat),
                vals (wheap w12) !! value n = Some v
                /\ 0 < vRefCount v
                  /\ vValue v = Some x
                    /\ vRelease v = r
                      /\ created prog12 !! value n = Some (key n, x, r)))
  /\ forall (p : nat) (v : refValue),
      vals (wheap w12) !! p = Some v
      -> vRefCount v = pdeg (wheap w12) p.
Proof.
  exact (counts_exact Z.ltb prog12 w12 run_prog12 eq_refl).
Defined.

Lemma release_calls_sound_witness :
  created prog12d
  !! ePayload
       {|
         ePayload := 0; eRelease := 0%nat; eKey := 1; eValue := 10%nat
       |} =
  Some
    (eKey
       {|
         ePayload := 0; eRelease := 0%nat; eKey := 1; eValue := 10%nat
       |},
     eValue
       {|
         ePayload := 0; eRelease := 0%nat; eKey := 1; eValue := 10%nat
       |},
     Some
       (eRelease
          {|
            ePayload := 0;
            eRelease := 0%nat;
            eKey := 1;
            eValue := 10%nat
          |}))
  /\ ~ held w12d
        (ePayload
           {|
             ePayload := 0;
             eRelease := 0%nat;
             eKey := 1;
             eValue := 10%nat
           |}).
Proof.
  exact (release_calls_sound Z.ltb prog12d w12d (Event 0%nat 0%nat 1 10%nat)
    run_prog12d eq_refl event_w12d).
Defined.

Lemma Destroy_shared_witness :
  exists (w' : world) (n : mapNode),
    step Z.ltb (ODestroy 0) w12c = Some w'
    /\ step Z.ltb (OClear 0) w12c = Some w'
      /\ nodes (wheap w12c) !! 3%nat = Some n
        /\ handles w' = <[0%nat:=NewPMap]> (handles w12c)
          /\ (wrapped (wheap w') = false
             -> trace (wheap w') = trace (wheap w12c)
               /\ vals (wheap w') = vals (wheap w12c)
                 /\ nodes (wheap w') =
                   <[3%nat:=set_refCount n (refCount n - 1)]>
                     (nodes (wheap w12c))).
Proof.
  exact (Destroy_shared Z.ltb prog12c w12c 0%nat 1%nat (MkPMap (Some 3%nat))
    3%nat run_prog12c handle0_w12c handle1_w12c (Nat.neq_0_succ 0) eq_refl).
Defined.

Lemma Clone_Destroy_roundtrip_witness :
  exists w1 w2 : world,
    step Z.ltb (OClone 0) w12 = Some w1
    /\ step Z.ltb (ODestroy (length (handles w12))) w1 = Some w2
      /\ handles w2 = handles w12 ++ [NewPMap]
        /\ (wrapped (wheap w2) = false -> wheap w2 = wheap w12).
Proof.
  exact (Clone_Destroy_roundtrip Z.ltb prog12 w12 0%nat (MkPMap (Some
    3%nat)) run_prog12 handle_w12).
Defined.

Lemma split_spec_witness :
  exists (l m r : option nat) (h' : heap) (tl tm tr : tree),
    split Z.ltb (Some 3%nat) 2 false h12 = Some (l, m, r, h')
    /\ shape h' l tl
      /\ shape h' m tm
        /\ shape h' r tr
          /\ shape h' (Some 3%nat) t12
            /\ items t12 = items tl ++ items tm ++ items tr
              /\ (forall x : Z, x ∈ keys tl -> (x <? 2) = true)
                /\ (forall x : Z, x ∈ keys tr -> (2 <? x) = true)
                  /\ (tm = Leaf
                     \/ exists (k' : Z) (p : nat) (w : Z),
                         tm = Node Leaf k' p w Leaf /\ equiv Z.ltb k' 2)
                    /\ bst Z.ltb tl
                      /\ bst Z.ltb tr
                        /\ (heap_ord t12 -> heap_ord tl /\ heap_ord tr).
Proof.
  exact (split_spec Z.ltb h12 (Some 3%nat) t12 2 swo_Zltb (g_wf _ _
    Good_w12) shape_t12 (proj1 treap_t12)).
Defined.

Lemma merge_spec_witness :
  exists (res : option nat) (h' : heap) (t : tree),
    merge (Some 2%nat) (Some 1%nat) h12 = Some (res, h')
    /\ shape h' res t
      /\ shape h' (Some 2%nat) (Node Leaf 1 0 50 Leaf)
        /\ shape h' (Some 1%nat) (Node Leaf 2 1 70 Leaf)
          /\ items t =
            items (Node Leaf 1 0 50 Leaf) ++
            items (Node Leaf 2 1 70 Leaf)
            /\ (heap_ord (Node Leaf 1 0 50 Leaf)
               -> heap_ord (Node Leaf 2 1 70 Leaf) -> heap_ord t)
              /\ (bst Z.ltb (Node Leaf 1 0 50 Leaf)
                 -> bst Z.ltb (Node Leaf 2 1 70 Leaf)
                   -> (forall x y : Z,
                        x ∈ keys (Node Leaf 1 0 50 Leaf)
                        -> y ∈ keys (Node Leaf 2 1 70 Leaf)
                          -> (x <? y) = true)
                     -> bst Z.ltb t).
Proof.
  exact (merge_spec Z.ltb h12 (Some 2%nat) (Some 1%nat) _ _ (g_wf _ _
    Good_w12) shape_left12 shape_dead12).
Defined.

Lemma union_spec_witness :
  exists (res : option nat) (h' : heap) (t : tree),
    union Z.ltb (Some 2%nat) (Some 1%nat) false h12 = Some (res, h')
    /\ shape h' res t
      /\ shape h' (Some 2%nat) (Node Leaf 1 0 50 Leaf)
        /\ shape h' (Some 1%nat) (Node Leaf 2 1 70 Leaf)
          /\ (forall x : Z,
               pget Z.ltb t x =
               por (pget Z.ltb (Node Leaf 1 0 50 Leaf) x)
                 (pget Z.ltb (Node Leaf 2 1 70 Leaf) x))
            /\ (forall kp : Z * nat,
                 kp ∈ items t
                 -> kp ∈ items (Node Leaf 1 0 50 Leaf)
                   \/ kp ∈ items (Node Leaf 2 1 70 Leaf))
              /\ (bst Z.ltb (Node Leaf 1 0 50 Leaf)
                 -> bst Z.ltb (Node Leaf 2 1 70 Leaf) -> bst Z.ltb t)
                /\ (heap_ord (Node Leaf 1 0 50 Leaf)
                   -> heap_ord (Node Leaf 2 1 70 Leaf) -> heap_ord t).
Proof.
  exact (union_spec Z.ltb h12 (Some 2%nat) (Some 1%nat) _ _ false swo_Zltb
    (g_wf _ _ Good_w12) shape_left12 shape_dead12).
Defined.






Lemma split_borrows_witness :
  exists (l m r : option nat) (h1 h2 : heap),
    split Z.ltb (root {| root := Some 3%nat |}) 1 false (wheap w12) =
    Some (l, m, r, h1)
    /\ bind (decref l) (fun _ : () => bind (decref m) (fun _ : () => decref r))
        h1 =
      Some ((), h2) /\ (wrapped h2 = false -> restored (wheap w12) h2).
Proof.
  exact (split_borrows Z.ltb prog12 w12 0%nat (MkPMap (Some 3%nat)) 1 false
    run_prog12 handle_w12).
Defined.

Lemma merge_borrows_witness :
  exists (res : option nat) (h1 h2 : heap),
    merge (root {| root := Some 3%nat |}) (root other2) (wheap w2) =
    Some (res, h1)
    /\ decref res h1 = Some ((), h2)
      /\ (wrapped h2 = false -> restored (wheap w2) h2).
Proof.
  exact (merge_borrows Z.ltb prog2 w2 0%nat 1%nat (MkPMap (Some 3%nat))
    other2 run_prog2 handle0_w2 handle1_w2).
Defined.

Lemma union_borrows_witness :
  exists (res : option nat) (h1 h2 : heap),
    union Z.ltb (root {| root := Some 3%nat |}) 
      (root other2) false (wheap w2) =
    Some (res, h1)
    /\ decref res h1 = Some ((), h2)
      /\ (wrapped h2 = false -> restored (wheap w2) h2).
Proof.
  exact (union_borrows Z.ltb prog2 w2 0%nat 1%nat (MkPMap (Some 3%nat))
    other2 false run_prog2 handle0_w2 handle1_w2).
Defined.

End Example.
